(** * Game-tile renamer: matcher, sanitizer and processing pipeline

    A shallow embedding of [src/App.tsx] (with the types of the repository's
    type declarations and the constants of [src/constants.ts]) and the
    properties of the matcher, the filename sanitizer, the archive layout and
    the processing scheduler.

    JavaScript strings are sequences of UTF-16 code units; they are modelled
    as lists of code units, each an [N].  Optional fields ([x?: string]) are
    [option] values, and JavaScript truthiness of such a field is [truthy]. *)

From Stdlib Require Import Ascii String DecimalString DecimalN.
From Stdlib Require Import Bool Arith NArith ZArith Lia List.
Import ListNotations.

Set Implicit Arguments.

(* ================================================================== *)
(** * Part I: the embedding *)
(* ================================================================== *)

(** ** JavaScript strings *)

Definition codeUnit := N.
Definition jsstr := list codeUnit.

Definition cu (a : ascii) : codeUnit := N_of_ascii a.

(** A string literal of the source, as code units. *)
Definition js (s : string) : jsstr := map cu (list_ascii_of_string s).

Fixpoint str_eqb (a b : jsstr) : bool :=
  match a, b with
  | [], [] => true
  | x :: a', y :: b' => N.eqb x y && str_eqb a' b'
  | _, _ => false
  end.

(** [!!s] for an optional string: [undefined], [null] and the empty string
    are falsy. *)
Definition truthy (o : option jsstr) : bool :=
  match o with
  | Some (_ :: _) => true
  | _ => false
  end.

Definition nonEmpty (s : jsstr) : bool :=
  match s with [] => false | _ :: _ => true end.

(** [a || b] on strings. *)
Definition orElse (a b : jsstr) : jsstr := if nonEmpty a then a else b.

(** [o || undefined] on an optional string. *)
Definition orUndefined (o : option jsstr) : option jsstr :=
  if truthy o then o else None.

Definition inRange (lo hi c : N) : bool := (N.leb lo c && N.leb c hi)%bool.

Definition isDigit (c : codeUnit) : bool := inRange 48 57 c.
Definition isUpper (c : codeUnit) : bool := inRange 65 90 c.
Definition isLower (c : codeUnit) : bool := inRange 97 122 c.
Definition isAlnum (c : codeUnit) : bool := isDigit c || isUpper c || isLower c.

(** The regular-expression class [\s], which is also what [trim] removes:
    the WhiteSpace and LineTerminator code points of ECMAScript. *)
Definition isSpace (c : codeUnit) : bool :=
  inRange 9 13 c || N.eqb c 32 || N.eqb c 160 || N.eqb c 5760
  || inRange 8192 8202 c || N.eqb c 8232 || N.eqb c 8233
  || N.eqb c 8239 || N.eqb c 8287 || N.eqb c 12288 || N.eqb c 65279.

(** [String.prototype.toLowerCase], one code unit at a time.  The ASCII
    capitals move to their small letters.  Two code units outside ASCII have
    a lower case that reaches into ASCII: U+0130 becomes [i] followed by
    U+0307, and the Kelvin sign U+212A becomes [k].  Every other code unit
    outside ASCII has a lower case outside ASCII; the model leaves it as it
    is, which no function below can tell apart from its true lower case
    (they only compare with ASCII text or delete it). *)
Definition lowerUnit (c : codeUnit) : list codeUnit :=
  if isUpper c then [c + 32]%N
  else if N.eqb c 304 then [105; 775]%N
  else if N.eqb c 8490 then [107]%N
  else [c].

Definition toLowerCase (s : jsstr) : jsstr := flat_map lowerUnit s.

Fixpoint dropWhile (p : codeUnit -> bool) (s : jsstr) : jsstr :=
  match s with
  | [] => []
  | c :: r => if p c then dropWhile p r else s
  end.

Definition trim (s : jsstr) : jsstr :=
  rev (dropWhile isSpace (rev (dropWhile isSpace s))).

Fixpoint startsWith (sub s : jsstr) : bool :=
  match sub, s with
  | [], _ => true
  | _ :: _, [] => false
  | x :: sub', y :: s' => N.eqb x y && startsWith sub' s'
  end.

(** [s.includes(sub)] *)
Fixpoint includes (s sub : jsstr) : bool :=
  startsWith sub s ||
  match s with
  | [] => false
  | _ :: r => includes r sub
  end.

(** [s.lastIndexOf(c)] for a one-character search string; [-1] when absent. *)
Fixpoint lastIndexFrom (c : codeUnit) (s : jsstr) (i : Z) (found : Z) : Z :=
  match s with
  | [] => found
  | x :: r => lastIndexFrom c r (i + 1) (if N.eqb x c then i else found)
  end.

Definition lastIndexOf (s : jsstr) (c : codeUnit) : Z :=
  lastIndexFrom c s 0 (-1).

(** [s.substring(a, b)]: both indices are clamped to [0, length] and swapped
    when the first exceeds the second. *)
Definition clampIndex (s : jsstr) (i : Z) : nat :=
  Nat.min (Z.to_nat i) (length s).

Definition substring (s : jsstr) (a b : Z) : jsstr :=
  let a' := clampIndex s a in
  let b' := clampIndex s b in
  let lo := Nat.min a' b' in
  let hi := Nat.max a' b' in
  firstn (hi - lo) (skipn lo s).

(** [s.split(sep)] for a one-character separator: never an empty array. *)
Fixpoint splitAcc (sep : codeUnit) (cur : jsstr) (s : jsstr) : list jsstr :=
  match s with
  | [] => [rev cur]
  | c :: r =>
      if N.eqb c sep then rev cur :: splitAcc sep [] r
      else splitAcc sep (c :: cur) r
  end.

Definition split (s : jsstr) (sep : codeUnit) : list jsstr := splitAcc sep [] s.

(** [arr.indexOf(x)] on an array of strings; [None] stands for [-1]. *)
Fixpoint indexOfFrom (x : jsstr) (l : list jsstr) (i : nat) : option nat :=
  match l with
  | [] => None
  | y :: r => if str_eqb y x then Some i else indexOfFrom x r (S i)
  end.

Definition indexOf (l : list jsstr) (x : jsstr) : option nat := indexOfFrom x l 0.

(** [arr.join(sep)] *)
Fixpoint join (sep : jsstr) (l : list jsstr) : jsstr :=
  match l with
  | [] => []
  | [x] => x
  | x :: r => x ++ sep ++ join sep r
  end.

(** A number inside a template literal: its decimal digits. *)
Definition showN (n : N) : jsstr :=
  js (NilEmpty.string_of_uint (N.to_uint n)).

Definition showNat (n : nat) : jsstr := showN (N.of_nat n).

(** ** Text normalizer (App.tsx, [normalizeText]) *)

(** [text.toLowerCase().replace(/[^a-z0-9]/gi, '')]; the class is ASCII
    letters of either case and digits, since the flag [i] is set. *)
Definition normalizeText (text : option jsstr) : jsstr :=
  match text with
  | None => []
  | Some t => if nonEmpty t then filter isAlnum (toLowerCase t) else []
  end.

(** ** Mapping entries *)

Record FilenameMappingEntry := mkEntry {
  gameName : jsstr;
  imsGameCode : jsstr;
  provider : option jsstr
}.

(** ** Matcher (App.tsx, [findMatchingGame]) *)

(** The longest prefix of [s] whose code units satisfy [p], and the rest. *)
Fixpoint span (p : codeUnit -> bool) (s : jsstr) : jsstr * jsstr :=
  match s with
  | [] => ([], [])
  | c :: r =>
      if p c then let (a, b) := span p r in (c :: a, b) else ([], s)
  end.

(** [s.replace(/^[0-9]+x[0-9]+-/, '')].  Each digit run is greedy, and no
    shorter run can be followed by [x] or [-], so the match is the one
    computed here. *)
Definition stripDimensionPrefix (s : jsstr) : jsstr :=
  let (d1, r1) := span isDigit s in
  match d1, r1 with
  | _ :: _, x :: r2 =>
      if N.eqb x (cu "x") then
        let (d2, r3) := span isDigit r2 in
        match d2, r3 with
        | _ :: _, m :: r4 => if N.eqb m (cu "-") then r4 else s
        | _, _ => s
        end
      else s
  | _, _ => s
  end.

Definition filenameGamePart (originalFilename : jsstr) : jsstr :=
  stripDimensionPrefix
    (orElse (substring originalFilename 0 (lastIndexOf originalFilename (cu ".")))
            originalFilename).

(** The body of the loop after the [continue] guard: [currentScore] for an
    entry whose normalized name is [m]. *)
Definition currentScoreOf (normalizedOcr normalizedFilename m : jsstr) : nat :=
  let currentScore := 0 in
  let currentScore :=
    if nonEmpty normalizedOcr then
      let currentScore :=
        if includes m normalizedOcr
        then Nat.max currentScore (20 + length normalizedOcr)
        else currentScore in
      if includes normalizedOcr m
      then Nat.max currentScore (20 + length m)
      else currentScore
    else currentScore in
  if nonEmpty normalizedFilename then
    let currentScore :=
      if includes m normalizedFilename
      then Nat.max currentScore (10 + length normalizedFilename)
      else currentScore in
    if includes normalizedFilename m
    then Nat.max currentScore (10 + length m)
    else currentScore
  else currentScore.

(** One iteration of [for (const mapping of mappings)], on the pair
    ([bestMatch], [highestScore]). *)
Definition matchStep (normalizedOcr normalizedFilename : jsstr)
    (acc : option FilenameMappingEntry * nat) (mapping : FilenameMappingEntry)
    : option FilenameMappingEntry * nat :=
  let normalizedMappingGameName := normalizeText (Some (gameName mapping)) in
  if negb (nonEmpty normalizedMappingGameName) then acc
  else
    let currentScore :=
      currentScoreOf normalizedOcr normalizedFilename normalizedMappingGameName in
    if snd acc <? currentScore then (Some mapping, currentScore) else acc.

Definition matchLoop (normalizedOcr normalizedFilename : jsstr)
    (mappings : list FilenameMappingEntry) : option FilenameMappingEntry * nat :=
  fold_left (matchStep normalizedOcr normalizedFilename) mappings (None, 0).

Definition findMatchingGame (ocrText : option jsstr) (originalFilename : jsstr)
    (mappings : list FilenameMappingEntry) : option FilenameMappingEntry :=
  let normalizedOcr :=
    normalizeText (Some (match ocrText with Some t => t | None => [] end)) in
  let normalizedFilename := normalizeText (Some (filenameGamePart originalFilename)) in
  fst (matchLoop normalizedOcr normalizedFilename mappings).

(** ** Filename sanitizer (App.tsx, [sanitizeFilename]) *)

(** A literal letter of a pattern under the flag [i]: the code unit itself
    in either ASCII case. *)
Definition ciMatches (pat c : codeUnit) : bool :=
  N.eqb c pat || (isLower pat && N.eqb c (pat - 32)).

Definition matchesWebpToEnd (s : jsstr) : bool :=
  match s with
  | [d; w; e; b; p] =>
      N.eqb d (cu ".") && ciMatches (cu "w") w && ciMatches (cu "e") e
      && ciMatches (cu "b") b && ciMatches (cu "p") p
  | _ => false
  end.

(** [name.replace(/\.webp$/i, '')]: the first position from the left at
    which the pattern matches up to the end of the input is cut off. *)
Fixpoint stripWebpSuffix (s : jsstr) : jsstr :=
  match s with
  | [] => []
  | c :: r => if matchesWebpToEnd s then [] else c :: stripWebpSuffix r
  end.

(** The class [[\w.-]]. *)
Definition isSafeChar (c : codeUnit) : bool :=
  isAlnum c || N.eqb c (cu "_") || N.eqb c (cu ".") || N.eqb c (cu "-").

(** [s.replace(/[^\w.-]/gi, '_')] *)
Definition replaceUnsafe (s : jsstr) : jsstr :=
  map (fun c => if isSafeChar c then c else cu "_") s.

(** [s.replace(/\s+/g, '_')]: a left-to-right scan; [inRun] tells that the
    previous code unit belongs to a run already replaced. *)
Fixpoint replaceSpaceRuns (inRun : bool) (s : jsstr) : jsstr :=
  match s with
  | [] => []
  | c :: r =>
      if isSpace c then
        if inRun then replaceSpaceRuns true r
        else cu "_" :: replaceSpaceRuns true r
      else c :: replaceSpaceRuns false r
  end.

(** The class [[_.-]]. *)
Definition isSeparator (c : codeUnit) : bool :=
  N.eqb c (cu "_") || N.eqb c (cu ".") || N.eqb c (cu "-").

(** [s.replace(/[_.-]+$/, '')]: the leftmost position from which only
    separators follow up to the end. *)
Fixpoint stripTrailingSeparators (s : jsstr) : jsstr :=
  match s with
  | [] => []
  | c :: r => if forallb isSeparator s then [] else c :: stripTrailingSeparators r
  end.

(** [s.replace(/^[_.-]+/, '')] *)
Definition stripLeadingSeparators (s : jsstr) : jsstr := dropWhile isSeparator s.

Definition defaultFallbackName : jsstr := js "renamed_image".
Definition defaultMaxLength : Z := 50.

Definition sanitizeFilename (name fallbackName : jsstr) (maxLength : Z) : jsstr :=
  let saneName := stripWebpSuffix name in
  let saneName := replaceUnsafe saneName in
  let saneName := replaceSpaceRuns false saneName in
  let saneName :=
    if (maxLength <? Z.of_nat (length saneName))%Z
    then substring saneName 0 maxLength
    else saneName in
  let saneName := stripLeadingSeparators (stripTrailingSeparators saneName) in
  orElse saneName fallbackName.

(** ** Mapping table parser (App.tsx, [parseCustomMappings]) *)

Definition MAPPING_COL_GAME_NAME : jsstr := js "Name".
Definition MAPPING_COL_IMS_CODE : jsstr := js "IMS Game Code".
Definition MAPPING_COL_PROVIDER : jsstr := js "Game Provider".
Definition NO_TEXT_DETECTED_MARKER : jsstr := js "NO_TEXT_DETECTED".

Definition lineFeed : codeUnit := 10%N.
Definition tab : codeUnit := 9%N.
Definition quoteMark : codeUnit := 34%N.

(** The body of the row loop: the entry pushed for one data line, if any. *)
Definition parseRow (gameNameIndex imsCodeIndex : nat) (providerIndex : option nat)
    (line : jsstr) : option FilenameMappingEntry :=
  let cells := map trim (split line tab) in
  if Nat.max gameNameIndex imsCodeIndex <? length cells then
    let gameName := nth gameNameIndex cells [] in
    let imsGameCode := nth imsCodeIndex cells [] in
    let provider :=
      match providerIndex with
      | Some p => if p <? length cells then Some (nth p cells []) else None
      | None => None
      end in
    if nonEmpty gameName && nonEmpty imsGameCode
    then Some (mkEntry gameName imsGameCode (orUndefined provider))
    else None
  else None.

Definition optToList {A} (o : option A) : list A :=
  match o with Some x => [x] | None => [] end.

(** The parsed entries together with the text handed to
    [setMappingParseMessage]. *)
Definition parseCustomMappings (mappingsString : jsstr)
    : list FilenameMappingEntry * jsstr :=
  if negb (nonEmpty (trim mappingsString)) then
    ([], js "Mapping data is empty. Paste your tab-separated table.")
  else
    let lines := split (trim mappingsString) lineFeed in
    match lines with
    | [] => ([], js "No lines found in mapping data.")
    | header :: rows =>
        let headerLine := map trim (split (toLowerCase header) tab) in
        let gameNameIndex := indexOf headerLine (toLowerCase MAPPING_COL_GAME_NAME) in
        let imsCodeIndex := indexOf headerLine (toLowerCase MAPPING_COL_IMS_CODE) in
        let providerIndex := indexOf headerLine (toLowerCase MAPPING_COL_PROVIDER) in
        match gameNameIndex, imsCodeIndex with
        | Some gi, Some ci =>
            let newMappings :=
              flat_map (fun l => optToList (parseRow gi ci providerIndex l)) rows in
            if (length newMappings =? 0) && (1 <? length lines) then
              (newMappings,
               js "Mappings parsed, but no valid entries found after the header row. Check data values and ensure they are tab-separated under the correct headers.")
            else if 0 <? length newMappings then
              (newMappings,
               js "Successfully parsed " ++ showNat (length newMappings)
                 ++ js " mapping entries.")
            else
              (newMappings,
               js "No mapping entries found. Ensure data is present after the header row or check header names.")
        | _, _ =>
            ([], js "Error: Required columns missing. Ensure '" ++ MAPPING_COL_GAME_NAME
                   ++ js "' and '" ++ MAPPING_COL_IMS_CODE
                   ++ js "' headers are present. Data should be tab-separated.")
        end
    end.

(** ** Items *)

Inductive ImageProcessingStatus :=
  | queued
  | processing
  | ocr_extracting
  | name_matching
  | completed
  | error
  | api_key_missing
  | mapping_parse_error.

Inductive ImageType := portrait | landscape | standard.

(** What the program reads of a browser [File]: its name and MIME type. *)
Record File := mkFile {
  fileName : jsstr;
  fileType : jsstr
}.

Record ProcessedImage := mkImage {
  id : jsstr;
  file : File;
  originalName : jsstr;
  previewUrl : jsstr;
  status : ImageProcessingStatus;
  ocrText : option jsstr;
  suggestedName : option jsstr;
  errorMessage : option jsstr;
  gameProvider : option jsstr;
  imageType : option ImageType;
  width : option N;
  height : option N
}.

Definition status_eqb (a b : ImageProcessingStatus) : bool :=
  match a, b with
  | queued, queued | processing, processing | ocr_extracting, ocr_extracting
  | name_matching, name_matching | completed, completed | error, error
  | api_key_missing, api_key_missing
  | mapping_parse_error, mapping_parse_error => true
  | _, _ => false
  end.

(** The classification of [getImageMetadata]'s [onload] handler. *)
Definition classifyGeometry (w h : N) : ImageType :=
  if N.eqb w 500 && N.eqb h 693 then portrait
  else if N.eqb w 500 && N.eqb h 333 then landscape
  else standard.

(** Object spreads [{ ...img, field: v }], one field at a time. *)
Definition withStatus (v : ImageProcessingStatus) (img : ProcessedImage) :=
  mkImage (id img) (file img) (originalName img) (previewUrl img) v
          (ocrText img) (suggestedName img) (errorMessage img) (gameProvider img)
          (imageType img) (width img) (height img).

Definition withOcrText (v : option jsstr) (img : ProcessedImage) :=
  mkImage (id img) (file img) (originalName img) (previewUrl img) (status img)
          v (suggestedName img) (errorMessage img) (gameProvider img)
          (imageType img) (width img) (height img).

Definition withSuggestedName (v : option jsstr) (img : ProcessedImage) :=
  mkImage (id img) (file img) (originalName img) (previewUrl img) (status img)
          (ocrText img) v (errorMessage img) (gameProvider img)
          (imageType img) (width img) (height img).

Definition withErrorMessage (v : option jsstr) (img : ProcessedImage) :=
  mkImage (id img) (file img) (originalName img) (previewUrl img) (status img)
          (ocrText img) (suggestedName img) v (gameProvider img)
          (imageType img) (width img) (height img).

Definition withGameProvider (v : option jsstr) (img : ProcessedImage) :=
  mkImage (id img) (file img) (originalName img) (previewUrl img) (status img)
          (ocrText img) (suggestedName img) (errorMessage img) v
          (imageType img) (width img) (height img).

(** [prev.map(img => img.id === theId ? f(img) : img)] *)
Definition mapById (theId : jsstr) (f : ProcessedImage -> ProcessedImage)
    (prev : list ProcessedImage) : list ProcessedImage :=
  map (fun img => if str_eqb (id img) theId then f img else img) prev.

Definition optStr (o : option jsstr) : jsstr :=
  match o with Some s => s | None => [] end.

(** The object literals of [processSingleImage]. *)
Definition markApiKeyMissing (img : ProcessedImage) :=
  withErrorMessage (Some (js "API Key is missing. OCR skipped."))
    (withStatus api_key_missing img).

Definition markMappingError (img : ProcessedImage) :=
  withErrorMessage (Some (js "No valid mappings loaded. Cannot process."))
    (withStatus mapping_parse_error img).

Definition markExtracting (img : ProcessedImage) := withStatus ocr_extracting img.

Definition markMatching (ocr : option jsstr) (img : ProcessedImage) :=
  withStatus name_matching
    (withOcrText (Some (orElse (optStr ocr) NO_TEXT_DETECTED_MARKER)) img).

Definition markOcrFailed (message : option jsstr) (img : ProcessedImage) :=
  withOcrText (Some (js "OCR_FAILED"))
    (withErrorMessage (Some (orElse (optStr message) (js "Failed OCR extraction.")))
       (withStatus error img)).

Definition suggestedNameFor (matchedMapping : FilenameMappingEntry) : jsstr :=
  sanitizeFilename (imsGameCode matchedMapping) (imsGameCode matchedMapping)
                   defaultMaxLength ++ js ".webp".

Definition markCompleted (matchedMapping : FilenameMappingEntry) (img : ProcessedImage) :=
  withErrorMessage None
    (withGameProvider (provider matchedMapping)
       (withSuggestedName (Some (suggestedNameFor matchedMapping))
          (withStatus completed img))).

Definition markNotFound (img : ProcessedImage) :=
  withErrorMessage (Some (js "Game not found in mappings."))
    (withStatus error img).

Definition markMatchFailed (message : option jsstr) (img : ProcessedImage) :=
  withErrorMessage
    (Some (orElse (optStr message) (js "Failed to process and match name.")))
    (withStatus error img).

(** The object literal shared by [handleRetry] and [handleStartAllProcessing]. *)
Definition requeue (img : ProcessedImage) :=
  withOcrText None
    (withSuggestedName None
       (withGameProvider None
          (withErrorMessage None (withStatus queued img)))).

(** The "Set Key" button's update of an item. *)
Definition requeueAfterKey (img : ProcessedImage) :=
  if status_eqb (status img) api_key_missing
  then withErrorMessage None (withStatus queued img)
  else img.

(** ** Upload (App.tsx, [handleFilesSelected]) *)

(** One chosen file: the file, its object URL, the value of [Date.now()]
    when its id is built, and the outcome of [getImageMetadata] (the natural
    width and height, or [None] when the image fails to load). *)
Record ChosenFile := mkChosen {
  chosenFile : File;
  chosenUrl : jsstr;
  chosenNow : N;
  chosenMetadata : option (N * N)
}.

Definition newImage (apiKey : option jsstr) (index : nat) (c : ChosenFile)
    : ProcessedImage :=
  let name := fileName (chosenFile c) in
  let theId := showN (chosenNow c) ++ js "-" ++ showNat index ++ js "-" ++ name in
  match chosenMetadata c with
  | Some (w, h) =>
      mkImage theId (chosenFile c) name (chosenUrl c)
              (if truthy apiKey then queued else api_key_missing)
              None None
              (if truthy apiKey then None else Some (js "API Key is missing."))
              None (Some (classifyGeometry w h)) (Some w) (Some h)
  | None =>
      mkImage theId (chosenFile c) name (chosenUrl c) error
              None None (Some (js "Could not read image dimensions."))
              None (Some standard) None None
  end.

Fixpoint newImagesFrom (apiKey : option jsstr) (index : nat) (files : list ChosenFile)
    : list ProcessedImage :=
  match files with
  | [] => []
  | c :: r => newImage apiKey index c :: newImagesFrom apiKey (S index) r
  end.

(** ** Application state *)

(** A call of [processSingleImage] that has not run to its end: the item
    and mapping set it was called with, and how far it got. *)
Inductive TaskPhase :=
  | AwaitingOcr
  | Matching (ocrResult : option jsstr)
  | Settled.

Record Task := mkTask {
  imageToProcess : ProcessedImage;
  currentMappings : list FilenameMappingEntry;
  phase : TaskPhase
}.

(** The [useState] cells of [App], and the pending [processSingleImage]
    promise. *)
Record AppState := mkState {
  processedImages : list ProcessedImage;
  isCurrentlyProcessingImage : bool;
  startProcessingFlag : bool;
  isZipping : bool;
  apiKey : option jsstr;
  apiKeyInput : jsstr;
  pastedCustomMappings : jsstr;
  manualFilenameMappings : list FilenameMappingEntry;
  mappingParseMessage : option jsstr;
  unusedMappingsMessage : option jsstr;
  startAttemptErrorMessage : option jsstr;
  pendingTask : option Task
}.

Definition initialState : AppState :=
  mkState [] false false false None [] [] [] None None None None.

Definition setProcessedImages (v : list ProcessedImage) (s : AppState) :=
  mkState v (isCurrentlyProcessingImage s) (startProcessingFlag s) (isZipping s)
          (apiKey s) (apiKeyInput s) (pastedCustomMappings s)
          (manualFilenameMappings s) (mappingParseMessage s)
          (unusedMappingsMessage s) (startAttemptErrorMessage s) (pendingTask s).

Definition setIsCurrentlyProcessingImage (v : bool) (s : AppState) :=
  mkState (processedImages s) v (startProcessingFlag s) (isZipping s)
          (apiKey s) (apiKeyInput s) (pastedCustomMappings s)
          (manualFilenameMappings s) (mappingParseMessage s)
          (unusedMappingsMessage s) (startAttemptErrorMessage s) (pendingTask s).

Definition setStartProcessingFlag (v : bool) (s : AppState) :=
  mkState (processedImages s) (isCurrentlyProcessingImage s) v (isZipping s)
          (apiKey s) (apiKeyInput s) (pastedCustomMappings s)
          (manualFilenameMappings s) (mappingParseMessage s)
          (unusedMappingsMessage s) (startAttemptErrorMessage s) (pendingTask s).

Definition setIsZipping (v : bool) (s : AppState) :=
  mkState (processedImages s) (isCurrentlyProcessingImage s)
          (startProcessingFlag s) v
          (apiKey s) (apiKeyInput s) (pastedCustomMappings s)
          (manualFilenameMappings s) (mappingParseMessage s)
          (unusedMappingsMessage s) (startAttemptErrorMessage s) (pendingTask s).

Definition setApiKey (v : option jsstr) (s : AppState) :=
  mkState (processedImages s) (isCurrentlyProcessingImage s)
          (startProcessingFlag s) (isZipping s)
          v (apiKeyInput s) (pastedCustomMappings s)
          (manualFilenameMappings s) (mappingParseMessage s)
          (unusedMappingsMessage s) (startAttemptErrorMessage s) (pendingTask s).

Definition setApiKeyInput (v : jsstr) (s : AppState) :=
  mkState (processedImages s) (isCurrentlyProcessingImage s)
          (startProcessingFlag s) (isZipping s)
          (apiKey s) v (pastedCustomMappings s)
          (manualFilenameMappings s) (mappingParseMessage s)
          (unusedMappingsMessage s) (startAttemptErrorMessage s) (pendingTask s).

Definition setPastedCustomMappings (v : jsstr) (s : AppState) :=
  mkState (processedImages s) (isCurrentlyProcessingImage s)
          (startProcessingFlag s) (isZipping s)
          (apiKey s) (apiKeyInput s) v
          (manualFilenameMappings s) (mappingParseMessage s)
          (unusedMappingsMessage s) (startAttemptErrorMessage s) (pendingTask s).

Definition setManualFilenameMappings (v : list FilenameMappingEntry) (s : AppState) :=
  mkState (processedImages s) (isCurrentlyProcessingImage s)
          (startProcessingFlag s) (isZipping s)
          (apiKey s) (apiKeyInput s) (pastedCustomMappings s)
          v (mappingParseMessage s)
          (unusedMappingsMessage s) (startAttemptErrorMessage s) (pendingTask s).

Definition setMappingParseMessage (v : option jsstr) (s : AppState) :=
  mkState (processedImages s) (isCurrentlyProcessingImage s)
          (startProcessingFlag s) (isZipping s)
          (apiKey s) (apiKeyInput s) (pastedCustomMappings s)
          (manualFilenameMappings s) v
          (unusedMappingsMessage s) (startAttemptErrorMessage s) (pendingTask s).

Definition setUnusedMappingsMessage (v : option jsstr) (s : AppState) :=
  mkState (processedImages s) (isCurrentlyProcessingImage s)
          (startProcessingFlag s) (isZipping s)
          (apiKey s) (apiKeyInput s) (pastedCustomMappings s)
          (manualFilenameMappings s) (mappingParseMessage s)
          v (startAttemptErrorMessage s) (pendingTask s).

Definition setStartAttemptErrorMessage (v : option jsstr) (s : AppState) :=
  mkState (processedImages s) (isCurrentlyProcessingImage s)
          (startProcessingFlag s) (isZipping s)
          (apiKey s) (apiKeyInput s) (pastedCustomMappings s)
          (manualFilenameMappings s) (mappingParseMessage s)
          (unusedMappingsMessage s) v (pendingTask s).

Definition setPendingTask (v : option Task) (s : AppState) :=
  mkState (processedImages s) (isCurrentlyProcessingImage s)
          (startProcessingFlag s) (isZipping s)
          (apiKey s) (apiKeyInput s) (pastedCustomMappings s)
          (manualFilenameMappings s) (mappingParseMessage s)
          (unusedMappingsMessage s) (startAttemptErrorMessage s) v.

Definition handleFilesSelected (capturedKey : option jsstr) (files : list ChosenFile)
    (s : AppState) : AppState :=
  let s := setStartAttemptErrorMessage None s in
  let s := setUnusedMappingsMessage None s in
  setProcessedImages (processedImages s ++ newImagesFrom capturedKey 0 files) s.

(** ** Per-item processing (App.tsx, [processSingleImage]) *)

(** The synchronous start of the call, up to the first [await]. *)
Definition processSingleImage_begin (s : AppState) (img : ProcessedImage) : AppState :=
  let mappings := manualFilenameMappings s in
  let upd f ph :=
    setPendingTask (Some (mkTask img mappings ph))
      (setProcessedImages (mapById (id img) f (processedImages s)) s) in
  if negb (truthy (apiKey s)) then upd markApiKeyMissing Settled
  else if length mappings =? 0 then upd markMappingError Settled
  else upd markExtracting AwaitingOcr.

Definition advanceTask (t : Task) (f : ProcessedImage -> ProcessedImage)
    (ph : TaskPhase) (s : AppState) : AppState :=
  setPendingTask (Some (mkTask (imageToProcess t) (currentMappings t) ph))
    (setProcessedImages
       (mapById (id (imageToProcess t)) f (processedImages s)) s).

(** The OCR call returned [text] ([None] for [null]). *)
Definition ocrResolved (text : option jsstr) (s : AppState) : option AppState :=
  match pendingTask s with
  | Some t =>
      match phase t with
      | AwaitingOcr => Some (advanceTask t (markMatching text) (Matching text) s)
      | _ => None
      end
  | None => None
  end.

(** [fileToBase64] or the OCR call threw; [message] is [error.message]. *)
Definition ocrRejected (message : option jsstr) (s : AppState) : option AppState :=
  match pendingTask s with
  | Some t =>
      match phase t with
      | AwaitingOcr => Some (advanceTask t (markOcrFailed message) Settled s)
      | _ => None
      end
  | None => None
  end.

(** The second [try] block. *)
Definition matchSettled (s : AppState) : option AppState :=
  match pendingTask s with
  | Some t =>
      match phase t with
      | Matching text =>
          match findMatchingGame text (originalName (imageToProcess t))
                                 (currentMappings t) with
          | Some matchedMapping =>
              Some (advanceTask t (markCompleted matchedMapping) Settled s)
          | None => Some (advanceTask t markNotFound Settled s)
          end
      | _ => None
      end
  | None => None
  end.

(** The [catch] of the second [try] block. *)
Definition matchThrew (message : option jsstr) (s : AppState) : option AppState :=
  match pendingTask s with
  | Some t =>
      match phase t with
      | Matching _ => Some (advanceTask t (markMatchFailed message) Settled s)
      | _ => None
      end
  | None => None
  end.

(** [.finally(() => setIsCurrentlyProcessingImage(false))] *)
Definition taskFinally (s : AppState) : option AppState :=
  match pendingTask s with
  | Some t =>
      match phase t with
      | Settled => Some (setPendingTask None (setIsCurrentlyProcessingImage false s))
      | _ => None
      end
  | None => None
  end.

(** ** Scheduler (App.tsx, the processing loop effect) *)

Definition isQueued (img : ProcessedImage) : bool := status_eqb (status img) queued.

Definition processingEffect (s : AppState) : AppState :=
  if isCurrentlyProcessingImage s || negb (startProcessingFlag s) || isZipping s
  then s
  else
    match find isQueued (processedImages s) with
    | Some nextImageToProcess =>
        processSingleImage_begin (setIsCurrentlyProcessingImage true s)
                                 nextImageToProcess
    | None =>
        if startProcessingFlag s && (0 <? length (processedImages s))
        then setStartProcessingFlag false s
        else s
    end.

(** ** Start all (App.tsx, [handleStartAllProcessing]) *)

Definition isEligible (img : ProcessedImage) : bool :=
  match status img with
  | queued | error | api_key_missing | mapping_parse_error => true
  | _ => false
  end.

Definition trulyUnusedMappingNames (parsed : list FilenameMappingEntry)
    (images : list ProcessedImage) : list jsstr :=
  let allImageOriginalNamesNormalized :=
    map (fun img =>
           normalizeText
             (Some (orElse (substring (originalName img) 0
                                      (lastIndexOf (originalName img) (cu ".")))
                           (originalName img)))) images in
  flat_map
    (fun mapping =>
       let normalizedMappingGameName := normalizeText (Some (gameName mapping)) in
       if negb (nonEmpty normalizedMappingGameName) then []
       else if existsb (fun imgName => includes imgName normalizedMappingGameName)
                       allImageOriginalNamesNormalized
            then []
            else [gameName mapping])
    parsed.

Definition unusedMappingsNote (names : list jsstr) : jsstr :=
  let limit := 3 in
  let namesToShow := join (quoteMark :: js ", " ++ [quoteMark]) (firstn limit names) in
  (* [moreCount] is only compared with 0, so truncated subtraction will do *)
  let moreCount := length names - limit in
  let moreText :=
    if 0 <? moreCount then js " (and " ++ showNat moreCount ++ js " more)" else [] in
  js "Note: No uploaded images seem to directly relate to mapping entries for: "
    ++ [quoteMark] ++ namesToShow ++ [quoteMark] ++ moreText
    ++ js ". These mappings might not be used if OCR also doesn't find a match.".

Definition msgKeyMissing : jsstr :=
  js "Cannot start processing: API Key is missing. OCR functionality requires it.".
Definition msgMappingEmpty : jsstr :=
  js "Cannot start processing: Mapping data is empty. Please paste your game mappings.".
Definition msgNoEntriesBase : jsstr :=
  js "Cannot start processing: No valid mapping entries found. ".
Definition msgNoEntriesGeneric : jsstr :=
  js "Please check mapping data format, ensure headers ('Name', 'IMS Game Code') are correct and data exists under them.".
Definition msgNoUploads : jsstr :=
  js "Cannot start processing: No images have been uploaded.".
Definition msgNothingPending : jsstr :=
  js "Cannot start processing: No images are currently pending or in an error state to reprocess.".

Definition handleStartAllProcessing (s : AppState) : AppState :=
  let processedImages0 := processedImages s in
  let staleParseMessage := mappingParseMessage s in
  let s := setStartAttemptErrorMessage None s in
  let s := setUnusedMappingsMessage None s in
  let (currentParsedMappings, parseMessage) :=
    parseCustomMappings (pastedCustomMappings s) in
  let s := setMappingParseMessage (Some parseMessage) s in
  let s := setManualFilenameMappings currentParsedMappings s in
  let s :=
    if (0 <? length currentParsedMappings) && (0 <? length processedImages0) then
      let names := trulyUnusedMappingNames currentParsedMappings processedImages0 in
      if 0 <? length names
      then setUnusedMappingsMessage (Some (unusedMappingsNote names)) s
      else s
    else s in
  if negb (truthy (apiKey s)) then
    setStartAttemptErrorMessage (Some msgKeyMissing) s
  else if negb (nonEmpty (trim (pastedCustomMappings s))) then
    setStartAttemptErrorMessage (Some msgMappingEmpty) s
  else if length currentParsedMappings =? 0 then
    let specificError :=
      if truthy staleParseMessage
         && startsWith (js "error:") (toLowerCase (optStr staleParseMessage))
      then optStr staleParseMessage
      else msgNoEntriesGeneric in
    setStartAttemptErrorMessage (Some (msgNoEntriesBase ++ specificError)) s
  else
    let imagesToProcess := filter isEligible processedImages0 in
    if length imagesToProcess =? 0 then
      setStartAttemptErrorMessage
        (Some (if length processedImages0 =? 0 then msgNoUploads
               else msgNothingPending)) s
    else
      let s :=
        setProcessedImages
          (map (fun img =>
                  if existsb (fun procImg => str_eqb (id procImg) (id img))
                             imagesToProcess
                  then requeue img else img)
               (processedImages s)) s in
      setStartProcessingFlag true s.

(** The item list after a successful start: the update handed to
    [setProcessedImages], applied to the list the handler saw. *)
Definition requeueEligible (images : list ProcessedImage) : list ProcessedImage :=
  map (fun img =>
         if existsb (fun procImg => str_eqb (id procImg) (id img))
                    (filter isEligible images)
         then requeue img else img)
      images.

(** ** Retry, credential, clear (App.tsx) *)

Definition handleRetry (theId : jsstr) (s : AppState) : AppState :=
  let flag := startProcessingFlag s in
  let busy := isCurrentlyProcessingImage s in
  let s := setProcessedImages (mapById theId requeue (processedImages s)) s in
  if negb flag && negb busy then setStartProcessingFlag true s else s.

(** The mount effect that reads [process.env.API_KEY]. *)
Definition mountWithEnvKey (keyFromEnv : option jsstr) (s : AppState) : AppState :=
  if truthy keyFromEnv
  then setApiKeyInput (optStr keyFromEnv) (setApiKey keyFromEnv s)
  else s.

(** [onKeyDown] with Enter in the credential field. *)
Definition pressEnterOnKey (s : AppState) : AppState :=
  setApiKey (Some (trim (apiKeyInput s))) s.

(** [onClick] of the "Set Key" button. *)
Definition clickSetKey (s : AppState) : AppState :=
  let trimmedKey := trim (apiKeyInput s) in
  let s := setApiKey (Some trimmedKey) s in
  if nonEmpty trimmedKey
  then setProcessedImages (map requeueAfterKey (processedImages s)) s
  else s.

Definition handleClearAll (s : AppState) : AppState :=
  let s := setProcessedImages [] s in
  let s := setStartProcessingFlag false s in
  let s := setIsCurrentlyProcessingImage false s in
  let s := setIsZipping false s in
  let s := setMappingParseMessage None s in
  let s := setUnusedMappingsMessage None s in
  setStartAttemptErrorMessage None s.

(** The [disabled] attribute of the "Clear All" button. *)
Definition clearAllDisabled (s : AppState) : bool :=
  (length (processedImages s) =? 0) || isCurrentlyProcessingImage s
  || startProcessingFlag s || isZipping s.

(** ** Archive (App.tsx, [createAndDownloadZip]) *)

Definition isCompletedWithName (img : ProcessedImage) : bool :=
  status_eqb (status img) completed && truthy (suggestedName img).

(** The body of [completedImages.forEach]: the path handed to [zip.file],
    or [None] when the guard fails. *)
Definition filePathInZip (imageInfo : ProcessedImage) : option jsstr :=
  if truthy (suggestedName imageInfo) then
    let name := optStr (suggestedName imageInfo) in
    if truthy (gameProvider imageInfo)
       && negb (str_eqb (trim (optStr (gameProvider imageInfo))) [])
    then
      let sanitizedProvider :=
        sanitizeFilename (optStr (gameProvider imageInfo)) (js "default_provider")
                         defaultMaxLength in
      let subfolder :=
        match imageType imageInfo with
        | Some portrait => js "portrait/"
        | Some landscape => js "landscape/"
        | _ => []
        end in
      Some (sanitizedProvider ++ js "/" ++ subfolder ++ name)
    else Some name
  else None.

(** The calls [zip.file(path, file)], in order. *)
Definition zipEntries (images : list ProcessedImage) : list (jsstr * File) :=
  flat_map
    (fun imageInfo =>
       match filePathInZip imageInfo with
       | Some p => [(p, file imageInfo)]
       | None => []
       end)
    (filter isCompletedWithName images).

Definition clickDownloadZip (s : AppState) : AppState :=
  let s := setIsZipping true s in
  let s := setStartAttemptErrorMessage None s in
  if length (filter isCompletedWithName (processedImages s)) =? 0 then
    setIsZipping false
      (setStartAttemptErrorMessage
         (Some (js "Download failed: No successfully processed images are available to include in the ZIP.")) s)
  else s.

(** [zip.generateAsync] settled; [ok] is false when it threw. *)
Definition zipGenerated (ok : bool) (s : AppState) : AppState :=
  let s :=
    if ok then s
    else setStartAttemptErrorMessage
           (Some (js "An unexpected error occurred while creating the ZIP file.")) s in
  setIsZipping false s.

(** ** Runs of the application *)

(** What can happen to the application: user actions, the scheduler's
    effect, and the settling of the asynchronous calls. *)
Inductive Event :=
  | MountWithEnvKey (keyFromEnv : option jsstr)
  | TypeApiKey (text : jsstr)
  | PressEnterOnKey
  | ClickSetKey
  | PasteMappings (text : jsstr)
  | FilesSelected (capturedKey : option jsstr) (files : list ChosenFile)
  | ClickStartAll
  | ClickRetry (theId : jsstr)
  | ClickClearAll
  | ClickDownloadZip
  | ZipGenerated (ok : bool)
  | RunEffect
  | OcrResolved (text : option jsstr)
  | OcrRejected (message : option jsstr)
  | MatchSettled
  | MatchThrew (message : option jsstr)
  | TaskFinally.

Fixpoint distinctIds (l : list jsstr) : bool :=
  match l with
  | [] => true
  | x :: r => negb (existsb (str_eqb x) r) && distinctIds r
  end.

(** Ids are unique per upload: [Date.now()] has moved on, or the index or
    the file name differs. *)
Definition idsAreFresh (s : AppState) (added : list ProcessedImage) : bool :=
  distinctIds (map id (processedImages s ++ added)).

Definition hasItem (theId : jsstr) (s : AppState) : bool :=
  existsb (fun img => str_eqb (id img) theId) (processedImages s).

(** The state after an event, or [None] when the event cannot happen in
    that state.  User actions are allowed whenever their handler can be
    called; only "Clear All" is tied to its button being enabled, retry to
    a card that exists, an upload to ids that are new, and a second archive
    to the end of the first.  [FilesSelected] carries the credential of the
    render in which the files were chosen. *)
Definition applyEvent (e : Event) (s : AppState) : option AppState :=
  match e with
  | MountWithEnvKey k => Some (mountWithEnvKey k s)
  | TypeApiKey text => Some (setApiKeyInput text s)
  | PressEnterOnKey => Some (pressEnterOnKey s)
  | ClickSetKey => Some (clickSetKey s)
  | PasteMappings text => Some (setPastedCustomMappings text s)
  | FilesSelected k files =>
      if idsAreFresh s (newImagesFrom k 0 files)
      then Some (handleFilesSelected k files s) else None
  | ClickStartAll => Some (handleStartAllProcessing s)
  | ClickRetry theId =>
      if hasItem theId s then Some (handleRetry theId s) else None
  | ClickClearAll =>
      if clearAllDisabled s then None else Some (handleClearAll s)
  | ClickDownloadZip =>
      if isZipping s then None else Some (clickDownloadZip s)
  | ZipGenerated ok =>
      if isZipping s then Some (zipGenerated ok s) else None
  | RunEffect => Some (processingEffect s)
  | OcrResolved text => ocrResolved text s
  | OcrRejected message => ocrRejected message s
  | MatchSettled => matchSettled s
  | MatchThrew message => matchThrew message s
  | TaskFinally => taskFinally s
  end.

Fixpoint run (events : list Event) (s : AppState) : option AppState :=
  match events with
  | [] => Some s
  | e :: rest =>
      match applyEvent e s with
      | Some s' => run rest s'
      | None => None
      end
  end.

Definition reachable (s : AppState) : Prop :=
  exists events, run events initialState = Some s.

(** ** The properties in the words of the design document *)

Definition isActive (img : ProcessedImage) : bool :=
  match status img with
  | ocr_extracting | name_matching => true
  | _ => false
  end.

Definition isErrorFamily (img : ProcessedImage) : bool :=
  match status img with
  | error | api_key_missing | mapping_parse_error => true
  | _ => false
  end.

(** Containment of one string in another. *)
Definition contains (s sub : jsstr) : Prop :=
  exists pre post, s = pre ++ sub ++ post.

(** The four containment checks of the matcher, each worth its points when
    it fires and nothing otherwise. *)
Definition checkNameHoldsOcr (o m : jsstr) : nat :=
  if nonEmpty o && includes m o then 20 + length o else 0.
Definition checkOcrHoldsName (o m : jsstr) : nat :=
  if includes o m then 20 + length m else 0.
Definition checkNameHoldsFile (f m : jsstr) : nat :=
  if nonEmpty f && includes m f then 10 + length f else 0.
Definition checkFileHoldsName (f m : jsstr) : nat :=
  if includes f m then 10 + length m else 0.

Definition scoreOfChecks (o f m : jsstr) : nat :=
  Nat.max (Nat.max (checkNameHoldsOcr o m) (checkOcrHoldsName o m))
          (Nat.max (checkNameHoldsFile f m) (checkFileHoldsName f m)).

(** The score of an entry: that of the four checks, and 0 for an entry that
    is skipped. *)
Definition entryScore (o f : jsstr) (e : FilenameMappingEntry) : nat :=
  let m := normalizeText (Some (gameName e)) in
  if nonEmpty m then scoreOfChecks o f m else 0.

(** Keeping the best entry seen so far under a scoring [sc]: a later entry
    takes over only with a strictly higher score. *)
Definition bestStep (sc : FilenameMappingEntry -> nat)
    (acc : option FilenameMappingEntry * nat) (e : FilenameMappingEntry) :=
  if snd acc <? sc e then (Some e, sc e) else acc.

(** No check of the matcher fires for the normalized name [m]. *)
Definition noContainment (o f m : jsstr) : Prop :=
  ~ (o <> [] /\ contains m o) /\ ~ contains o m
  /\ ~ (f <> [] /\ contains m f) /\ ~ contains f m.

(** The text has the shape [<digits>x<digits>-rest]. *)
Definition hasDimensionPrefix (s rest : jsstr) : Prop :=
  exists d1 d2,
    d1 <> [] /\ d2 <> [] /\ forallb isDigit d1 = true /\ forallb isDigit d2 = true
    /\ s = d1 ++ cu "x" :: d2 ++ cu "-" :: rest.

(** The sanitizer, step by step as the design document words it. *)
Definition endsWithWebp (s : jsstr) : bool :=
  matchesWebpToEnd (skipn (length s - 5) s).

Definition dropImageSuffix (s : jsstr) : jsstr :=
  if endsWithWebp s then firstn (length s - 5) s else s.

Definition replaceOutsideSafeSet (s : jsstr) : jsstr :=
  map (fun c => if isSafeChar c then c else cu "_") s.

(** Each maximal run of whitespace becomes one underscore. *)
Fixpoint collapseWhitespace (s : jsstr) : jsstr :=
  match s with
  | [] => []
  | c :: r =>
      if isSpace c then
        match r with
        | c' :: _ => if isSpace c' then collapseWhitespace r
                     else cu "_" :: collapseWhitespace r
        | [] => [cu "_"]
        end
      else c :: collapseWhitespace r
  end.

Definition truncateTo (maxLength : Z) (s : jsstr) : jsstr :=
  firstn (Z.to_nat maxLength) s.

Definition trimSeparators (s : jsstr) : jsstr :=
  rev (dropWhile isSeparator (rev (dropWhile isSeparator s))).

Definition sanitizeSteps (name : jsstr) (maxLength : Z) : jsstr :=
  trimSeparators
    (truncateTo maxLength
       (collapseWhitespace (replaceOutsideSafeSet (dropImageSuffix name)))).

(** A provider that is absent or blank. *)
Definition providerIsBlank (p : option jsstr) : bool :=
  match p with
  | None => true
  | Some t => negb (nonEmpty (trim t))
  end.

(** The folder of a provider in the archive. *)
Definition providerFolder (p : option jsstr) : jsstr :=
  sanitizeFilename (optStr p) (js "default_provider") defaultMaxLength.

(** The four reasons for which a start is refused, and the reason a
    reported message stands for. *)
Inductive StartRefusal :=
  | CredentialAbsent
  | MappingTextEmpty
  | NoMappingEntries
  | NoEligibleItems.

Definition refusalOfMessage (m : jsstr) : option StartRefusal :=
  if str_eqb m msgKeyMissing then Some CredentialAbsent
  else if str_eqb m msgMappingEmpty then Some MappingTextEmpty
  else if startsWith msgNoEntriesBase m then Some NoMappingEntries
  else if str_eqb m msgNoUploads || str_eqb m msgNothingPending
       then Some NoEligibleItems
       else None.

(** [n] clicks on "Start Processing All" in a row. *)
Fixpoint startAllTimes (n : nat) (s : AppState) : AppState :=
  match n with
  | O => s
  | S k => startAllTimes k (handleStartAllProcessing s)
  end.

(** The geometry class of an item as recorded at upload. *)
Definition geometryClass (w h : option N) : ImageType :=
  match w, h with
  | Some w, Some h => classifyGeometry w h
  | _, _ => standard
  end.

Definition isTerminal (img : ProcessedImage) : bool :=
  match status img with
  | completed | error | api_key_missing | mapping_parse_error => true
  | _ => false
  end.

(** How an event can change the pending call: not at all; the scheduler
    starts a call for a queued item; the pending call moves on and updates
    its item; or the call is over and the scheduler is released. *)
Inductive Transition (s s' : AppState) : Prop :=
  | KeepsTask :
      pendingTask s' = pendingTask s ->
      (forall img, In img (processedImages s') -> isActive img = true ->
         exists old, In old (processedImages s) /\ isActive old = true
                     /\ id old = id img) ->
      Transition s s'
  | StartsTask (img : ProcessedImage) (f : ProcessedImage -> ProcessedImage)
               (ph : TaskPhase) :
      isCurrentlyProcessingImage s = false ->
      find isQueued (processedImages s) = Some img ->
      pendingTask s' = Some (mkTask img (manualFilenameMappings s) ph) ->
      processedImages s' = mapById (id img) f (processedImages s) ->
      (forall x, id (f x) = id x) ->
      (ph = Settled -> forall x, isTerminal (f x) = true) ->
      Transition s s'
  | AdvancesTask (t : Task) (f : ProcessedImage -> ProcessedImage)
                 (ph : TaskPhase) :
      pendingTask s = Some t ->
      phase t <> Settled ->
      pendingTask s' = Some (mkTask (imageToProcess t) (currentMappings t) ph) ->
      processedImages s' = mapById (id (imageToProcess t)) f (processedImages s) ->
      (forall x, id (f x) = id x) ->
      (ph = Settled -> forall x, isTerminal (f x) = true) ->
      Transition s s'
  | ReleasesTask (t : Task) :
      pendingTask s = Some t ->
      phase t = Settled ->
      pendingTask s' = None ->
      processedImages s' = processedImages s ->
      Transition s s'.

(** ** Invariants of the runs *)

(** What holds of every item: a completed item carries a name, a failed one
    a message, and the recorded class is that of the recorded geometry. *)
Definition itemOk (img : ProcessedImage) : Prop :=
  (status img = completed -> truthy (suggestedName img) = true)
  /\ (isErrorFamily img = true -> truthy (errorMessage img) = true)
  /\ imageType img = Some (geometryClass (width img) (height img)).

(** Every item in the extraction window belongs to the pending call, which
    has not settled. *)
Definition activeOk (images : list ProcessedImage) (pending : option Task) : Prop :=
  forall img, In img images -> isActive img = true ->
    exists t, pending = Some t /\ phase t <> Settled
              /\ id img = id (imageToProcess t).

Definition schedulerOk (s : AppState) : Prop :=
  (isCurrentlyProcessingImage s = true <-> pendingTask s <> None)
  /\ activeOk (processedImages s) (pendingTask s)
  /\ (startProcessingFlag s = true -> processedImages s <> []).

Definition invariant (s : AppState) : Prop :=
  Forall itemOk (processedImages s)
  /\ distinctIds (map id (processedImages s)) = true
  /\ schedulerOk s.

(** ** A sample session *)

Definition sampleTable : jsstr :=
  js "Name" ++ [tab] ++ js "Game Provider" ++ [tab] ++ js "IMS Game Code"
    ++ [lineFeed]
    ++ js "King's Mystery" ++ [tab] ++ js "Playtech" ++ [tab] ++ js "code1".

Definition sampleFile : ChosenFile :=
  mkChosen (mkFile (js "540x540-kings-mystery.webp") (js "image/webp"))
           (js "blob:1") 1700000000000%N (Some (500, 693)%N).

(** A credential is set, a table pasted, one portrait tile uploaded and the
    run started. *)
Definition sampleStart : list Event :=
  [TypeApiKey (js "key"); ClickSetKey; PasteMappings sampleTable;
   FilesSelected (Some (js "key")) [sampleFile]; ClickStartAll].

(** The scheduler has picked the tile and the OCR call is pending. *)
Definition sampleExtracting : list Event := sampleStart ++ [RunEffect].

(** The whole session up to the completed tile. *)
Definition sampleSession : list Event :=
  sampleExtracting
    ++ [OcrResolved (Some (js "King's Mystery")); MatchSettled; TaskFinally].

(** After the session the flag is cleared and a second file, whose image
    cannot be read, is uploaded: one completed and one failed item. *)
Definition sampleBrokenFile : ChosenFile :=
  mkChosen (mkFile (js "broken.webp") (js "image/webp"))
           (js "blob:2") 1700000005000%N None.

Definition sampleMixed : list Event :=
  sampleSession ++ [RunEffect; FilesSelected (Some (js "key")) [sampleBrokenFile]].

(** A credential and an upload, but nothing pasted. *)
Definition sampleNoTable : list Event :=
  [TypeApiKey (js "key"); ClickSetKey;
   FilesSelected (Some (js "key")) [sampleFile]].

Definition stateAfter (events : list Event) : AppState :=
  match run events initialState with
  | Some s => s
  | None => initialState
  end.

Definition sampleQueuedItem : ProcessedImage :=
  hd (newImage None 0 sampleFile) (processedImages (stateAfter sampleStart)).

Definition sampleCompletedItem : ProcessedImage :=
  hd (newImage None 0 sampleFile) (processedImages (stateAfter sampleSession)).

(** ** Values derived at each render (App.tsx, after the handlers) *)

(** [apiKey != null]: the empty string counts as a credential here. *)
Definition isNotNull (o : option jsstr) : bool :=
  match o with Some _ => true | None => false end.

Definition canStartProcessing (s : AppState) : bool :=
  isNotNull (apiKey s)
  && existsb isEligible (processedImages s)
  && negb (isCurrentlyProcessingImage s) && negb (startProcessingFlag s)
  && negb (isZipping s)
  && negb (str_eqb (trim (pastedCustomMappings s)) []).

Definition globalDisable (s : AppState) : bool :=
  isCurrentlyProcessingImage s || startProcessingFlag s || isZipping s
  || negb (truthy (apiKey s)).

Definition inProcessingQueue (img : ProcessedImage) : bool :=
  match status img with
  | queued | ocr_extracting | name_matching | processing => true
  | _ => false
  end.

Definition isCompleted (img : ProcessedImage) : bool :=
  status_eqb (status img) completed.

Definition processingQueueCount (s : AppState) : nat :=
  length (filter inProcessingQueue (processedImages s)).

Definition completedImagesCount (s : AppState) : nat :=
  length (filter isCompleted (processedImages s)).

Definition canDownloadZip (s : AppState) : bool :=
  (0 <? completedImagesCount s) && negb (isZipping s)
  && negb (startProcessingFlag s) && negb (isCurrentlyProcessingImage s).

(** [handleDownload]: the [href] and [download] attributes of the link that
    is clicked, or [None] when nothing is downloaded.  The source also tests
    [imageInfo.file], an object in every item and hence always truthy. *)
Definition handleDownload (theId : jsstr) (s : AppState) : option (jsstr * jsstr) :=
  match find (fun img => str_eqb (id img) theId) (processedImages s) with
  | Some imageInfo =>
      if truthy (suggestedName imageInfo)
      then Some (previewUrl imageInfo, optStr (suggestedName imageInfo))
      else None
  | None => None
  end.

(** ** OCR service (services/geminiService.ts) *)

(** [s.indexOf(c)] for a one-character search string; [-1] when absent. *)
Fixpoint indexOfFromZ (c : codeUnit) (s : jsstr) (i : Z) : Z :=
  match s with
  | [] => (-1)%Z
  | x :: r => if N.eqb x c then i else indexOfFromZ c r (i + 1)
  end.

Definition indexOfChar (s : jsstr) (c : codeUnit) : Z := indexOfFromZ c s 0.

(** [fileToBase64]'s [onload]: [result.substring(result.indexOf(',') + 1)]. *)
Definition base64OfDataUrl (result : jsstr) : jsstr :=
  substring result (indexOfChar result (cu ",") + 1) (Z.of_nat (length result)).

(** What [extractTextFromImageUsingGemini] returns for the model's answer
    [response.text]. *)
Definition textOfResponse (text : option jsstr) : option jsstr :=
  if truthy text
     && negb (str_eqb (trim (optStr text)) [])
     && negb (includes (optStr text) (js "NO_TEXT_DETECTED"))
  then Some (trim (optStr text))
  else None.

(** The message of the error thrown from the [catch] block; [message] is
    the caught error's message when it is an [Error]. *)
Definition messageOfFailure (message : option jsstr) : jsstr :=
  match message with
  | Some m =>
      if includes m (js "API key not valid")
      then js "Invalid API Key for Gemini. Please check the provided key."
      else js "Failed to extract text using Gemini API."
  | None => js "Failed to extract text using Gemini API."
  end.

(** ** File input (components/FileUpload.tsx) *)

Inductive UploadOutcome :=
  | FilesPassedOn (files : list File)
  | AlertShown (message : jsstr)
  | NothingDone.

Definition isWebp (f : File) : bool := str_eqb (fileType f) (js "image/webp").

(** [handleFileChange]; [None] stands for a null [event.target.files]. *)
Definition handleFileChange (files : option (list File)) : UploadOutcome :=
  match files with
  | Some fs =>
      let webpFiles := filter isWebp fs in
      if 0 <? length webpFiles then FilesPassedOn webpFiles
      else if 0 <? length fs then AlertShown (js "Please select .webp files only.")
      else NothingDone
  | None => NothingDone
  end.

Definition handleDrop (disabled : bool) (files : option (list File)) : UploadOutcome :=
  if disabled then NothingDone
  else
    match files with
    | Some fs =>
        if 0 <? length fs then
          let webpFiles := filter isWebp fs in
          if 0 <? length webpFiles then FilesPassedOn webpFiles
          else if 0 <? length fs then AlertShown (js "Please drop .webp files only.")
          else NothingDone
        else NothingDone
    | None => NothingDone
    end.

(** ** Item card (components/ImageCard.tsx) *)

Definition statusText (st : ImageProcessingStatus) : jsstr :=
  match st with
  | api_key_missing => js "API Key Missing"
  | mapping_parse_error => js "Mapping Error"
  | ocr_extracting => js "OCR Extracting..."
  | name_matching => js "Matching Name..."
  | processing => js "Processing..."
  | completed => js "Completed"
  | error => js "Error"
  | queued => js "Queued"
  end.

Definition canRetry (img : ProcessedImage) : bool :=
  match status img with
  | error | api_key_missing | mapping_parse_error => true
  | _ => false
  end.

Definition showsDownloadButton (img : ProcessedImage) : bool :=
  status_eqb (status img) completed && truthy (suggestedName img).

Definition showsRetryButton (img : ProcessedImage) : bool := canRetry img.

Definition showsPlaceholder (img : ProcessedImage) : bool :=
  negb (showsDownloadButton img) && negb (canRetry img).

Definition showsError (img : ProcessedImage) : bool :=
  truthy (errorMessage img) && canRetry img.

Definition showsLoader (img : ProcessedImage) : bool :=
  match status img with
  | ocr_extracting | name_matching | processing => true
  | _ => false
  end.

Definition showOcrText (img : ProcessedImage) : bool :=
  truthy (ocrText img)
  && negb (str_eqb (optStr (ocrText img)) (js "OCR_FAILED"))
  && negb (str_eqb (optStr (ocrText img)) NO_TEXT_DETECTED_MARKER).

(** ** Notions used by the further properties *)

(** The object literals by which the program rewrites an item. *)
Inductive ItemUpdate : (ProcessedImage -> ProcessedImage) -> Prop :=
  | UpdApiKeyMissing : ItemUpdate markApiKeyMissing
  | UpdMappingError : ItemUpdate markMappingError
  | UpdExtracting : ItemUpdate markExtracting
  | UpdMatching ocr : ItemUpdate (markMatching ocr)
  | UpdOcrFailed message : ItemUpdate (markOcrFailed message)
  | UpdCompleted m : ItemUpdate (markCompleted m)
  | UpdNotFound : ItemUpdate markNotFound
  | UpdMatchFailed message : ItemUpdate (markMatchFailed message)
  | UpdRequeue : ItemUpdate requeue
  | UpdRequeueAfterKey : ItemUpdate requeueAfterKey.

Definition isLowerOrDigit (c : codeUnit) : bool := isLower c || isDigit c.

(** The item list after an event: emptied by "Clear All", or else the old
    list rewritten in place by the program's object literals, followed by
    the items of an upload. *)
Definition rewrittenInPlace (old new : list ProcessedImage) : Prop :=
  exists (g : ProcessedImage -> ProcessedImage) k files,
    new = map g old ++ newImagesFrom k 0 files
    /\ forall img, g img = img \/ exists f, ItemUpdate f /\ g img = f img.

(** The state "Clear All" leaves behind: the initial one, but for the
    credential, its input field, the pasted text and the parsed table. *)
Definition clearedState (s : AppState) : AppState :=
  setManualFilenameMappings (manualFilenameMappings s)
    (setPastedCustomMappings (pastedCustomMappings s)
       (setApiKeyInput (apiKeyInput s)
          (setApiKey (apiKey s) initialState))).

(** The id given to the file at position [index] of an upload. *)
Definition idOfUpload (now : N) (index : nat) (name : jsstr) : jsstr :=
  showN now ++ js "-" ++ showNat index ++ js "-" ++ name.

(** What is fixed at upload: identity, file and geometry. *)
Definition identityOf (img : ProcessedImage) :=
  (id img, file img, originalName img, previewUrl img,
   imageType img, width img, height img).

(** The text has no whitespace at either end. *)
Definition isTrimmed (s : jsstr) : Prop :=
  (forall c r, s = c :: r -> isSpace c = false)
  /\ (forall r c, s = r ++ [c] -> isSpace c = false).

Definition entryWellFormed (e : FilenameMappingEntry) : Prop :=
  gameName e <> [] /\ isTrimmed (gameName e)
  /\ imsGameCode e <> [] /\ isTrimmed (imsGameCode e)
  /\ match provider e with
     | None => True
     | Some p => p <> [] /\ isTrimmed p
     end.

(** The header cells the parser looks its columns up in. *)
Definition headerCells (text : jsstr) : list jsstr :=
  match split (trim text) lineFeed with
  | header :: _ => map trim (split (toLowerCase header) tab)
  | [] => []
  end.

Definition requiredColumnsPresent (text : jsstr) : bool :=
  match indexOf (headerCells text) (js "name"),
        indexOf (headerCells text) (js "ims game code") with
  | Some _, Some _ => true
  | _, _ => false
  end.

Definition msgParsed (n : nat) : jsstr :=
  js "Successfully parsed " ++ showNat n ++ js " mapping entries.".

(** What a completed item carries: the name made from a mapping entry's
    code, that entry's provider and no error message. *)
Definition completedShape (img : ProcessedImage) : Prop :=
  status img = completed ->
  exists m, suggestedName img = Some (suggestedNameFor m)
            /\ gameProvider img = provider m
            /\ errorMessage img = None.

(** The text ends with [.webp]. *)
Definition endsWithDotWebp (s : jsstr) : Prop :=
  exists stem, s = stem ++ js ".webp".

(** The filename without its extension, as both the matcher and the
    advisory check of start-all compute it. *)
Definition withoutExtension (name : jsstr) : jsstr :=
  orElse (substring name 0 (lastIndexOf name (cu "."))) name.

(** The item after extraction and matching, for the OCR result [text]. *)
Definition outcomeOfMatch (text : option jsstr)
    (mappings : list FilenameMappingEntry) (img : ProcessedImage) : ProcessedImage :=
  match findMatchingGame text (originalName img) mappings with
  | Some matchedMapping =>
      markCompleted matchedMapping (markMatching text (markExtracting img))
  | None => markNotFound (markMatching text (markExtracting img))
  end.

(** The state once a call is over: the item list replaced, the busy flag
    down, no call pending. *)
Definition settledWith (images : list ProcessedImage) (s : AppState) : AppState :=
  setPendingTask None
    (setIsCurrentlyProcessingImage false (setProcessedImages images s)).

(** The scheduler may pick [img], which stands between [pre] and [post]. *)
Definition readyToPick (s : AppState) (pre : list ProcessedImage)
    (img : ProcessedImage) (post : list ProcessedImage) : Prop :=
  startProcessingFlag s = true
  /\ isCurrentlyProcessingImage s = false
  /\ isZipping s = false
  /\ processedImages s = pre ++ img :: post
  /\ status img = queued
  /\ forall x, In x pre -> status x <> queued.

(** An upload without credential, then a retry of the blocked item. *)
Definition sampleNoKey : list Event :=
  [FilesSelected None [sampleFile];
   ClickRetry (idOfUpload 1700000000000 0 (js "540x540-kings-mystery.webp"))].

(** The advisory note start-all leaves, from the parsed table and the
    items it saw. *)
Definition advisoryNote (parsed : list FilenameMappingEntry)
    (images : list ProcessedImage) : option jsstr :=
  if (0 <? length parsed) && (0 <? length images)
     && (0 <? length (trulyUnusedMappingNames parsed images))
  then Some (unusedMappingsNote (trulyUnusedMappingNames parsed images))
  else None.

(** The table is ready, the tile uploaded, the run not yet started. *)
Definition sampleReady : list Event :=
  [TypeApiKey (js "key"); ClickSetKey; PasteMappings sampleTable;
   FilesSelected (Some (js "key")) [sampleFile]].

(** As [sampleReady], then Enter on an emptied credential field. *)
Definition sampleKeyErased : list Event :=
  sampleReady ++ [TypeApiKey []; PressEnterOnKey].

(** The sessions of the pipeline for one item. *)
Definition sessionCompleted (text : option jsstr) : list Event :=
  [RunEffect; OcrResolved text; MatchSettled; TaskFinally].

Definition sessionOcrFailed (message : option jsstr) : list Event :=
  [RunEffect; OcrRejected message; TaskFinally].

Definition sessionBlocked : list Event := [RunEffect; TaskFinally].

(** An item that has not yet come out of OCR extraction in its current
    run: waiting in the queue, held back for a key or a table, or with its
    OCR call pending. *)
Definition awaitsResult (img : ProcessedImage) : bool :=
  match status img with
  | queued | api_key_missing | mapping_parse_error | ocr_extracting => true
  | _ => false
  end.

Definition carriesNoResult (img : ProcessedImage) : Prop :=
  ocrText img = None /\ suggestedName img = None /\ gameProvider img = None.

Definition freshShape (img : ProcessedImage) : Prop :=
  (awaitsResult img = true -> carriesNoResult img)
  /\ (status img = queued \/ status img = ocr_extracting -> errorMessage img = None).

(* ================================================================== *)
(** * Part II: properties *)
(* ================================================================== *)

(** ** Strings *)

Lemma nonEmpty_true (s : jsstr) : nonEmpty s = true <-> s <> [].
Proof. destruct s; simpl; split; congruence. Qed.

Lemma str_eqb_eq (a b : jsstr) : str_eqb a b = true <-> a = b.
Proof.
  revert b; induction a as [|x a IH]; intros [|y b]; simpl;
    try (split; congruence).
  rewrite andb_true_iff, N.eqb_eq, IH. split.
  - intros [-> ->]; reflexivity.
  - intros H; inversion H; auto.
Qed.

Lemma str_eqb_refl (a : jsstr) : str_eqb a a = true.
Proof. apply str_eqb_eq; reflexivity. Qed.

Lemma startsWith_spec (sub s : jsstr) :
  startsWith sub s = true <-> exists post, s = sub ++ post.
Proof.
  revert s; induction sub as [|x sub IH]; intros s; simpl.
  - split; eauto.
  - destruct s as [|y s].
    + split; [discriminate | intros [post H]; discriminate].
    + rewrite andb_true_iff, N.eqb_eq, IH. split.
      * intros [-> [post ->]]. exists post; reflexivity.
      * intros [post H]. inversion H; subst. eauto.
Qed.

Lemma includes_spec (s sub : jsstr) :
  includes s sub = true <-> contains s sub.
Proof.
  unfold contains. induction s as [|c s IH]; simpl.
  - rewrite orb_false_r, startsWith_spec. split.
    + intros [post H]. exists [], post. exact H.
    + intros [pre [post H]]. destruct pre; simpl in H.
      * eauto.
      * discriminate.
  - rewrite orb_true_iff, startsWith_spec, IH. split.
    + intros [[post H] | [pre [post H]]].
      * exists [], post. exact H.
      * exists (c :: pre), post. simpl. congruence.
    + intros [pre [post H]]. destruct pre as [|p pre]; simpl in H.
      * left. eauto.
      * right. inversion H; subst. eauto.
Qed.

Lemma includes_empty_haystack (m : jsstr) : m <> [] -> includes [] m = false.
Proof. destruct m; simpl; congruence. Qed.

(** ** Matcher *)

Lemma currentScoreOf_is_scoreOfChecks (o f m : jsstr) :
  m <> [] -> currentScoreOf o f m = scoreOfChecks o f m.
Proof.
  intros Hm.
  unfold currentScoreOf, scoreOfChecks, checkNameHoldsOcr, checkOcrHoldsName,
    checkNameHoldsFile, checkFileHoldsName.
  destruct o as [|oc o']; destruct f as [|fc f'];
    cbn [nonEmpty andb];
    rewrite ?(includes_empty_haystack Hm);
    repeat match goal with
           | |- context [if includes ?a ?b then _ else _] => destruct (includes a b)
           end; lia.
Qed.

Lemma matchStep_by_score (o f : jsstr) acc (e : FilenameMappingEntry) :
  matchStep o f acc e =
  if snd acc <? entryScore o f e then (Some e, entryScore o f e) else acc.
Proof.
  unfold matchStep, entryScore.
  destruct (normalizeText (Some (gameName e))) as [|c m] eqn:E; cbn [nonEmpty negb].
  - destruct (snd acc <? 0) eqn:L; [apply Nat.ltb_lt in L; lia | reflexivity].
  - rewrite currentScoreOf_is_scoreOfChecks by discriminate. reflexivity.
Qed.

Section BestOfScores.
(** The loop of the matcher over an arbitrary scoring of the entries. *)
Variable sc : FilenameMappingEntry -> nat.

Lemma bestLoop_all_below l b h :
  (forall x, In x l -> sc x <= h) -> fold_left (bestStep sc) l (b, h) = (b, h).
Proof.
  revert b h; induction l as [|a l IH]; intros b h H; simpl; [reflexivity|].
  unfold bestStep at 2; simpl.
  destruct (h <? sc a) eqn:L.
  - apply Nat.ltb_lt in L. specialize (H a (or_introl eq_refl)). lia.
  - apply IH. intros x Hx. apply H. right; exact Hx.
Qed.

Lemma bestLoop_bound l b h v :
  h < v -> (forall x, In x l -> sc x < v) ->
  snd (fold_left (bestStep sc) l (b, h)) < v.
Proof.
  revert b h; induction l as [|a l IH]; intros b h Hh H; simpl; [exact Hh|].
  unfold bestStep at 2; simpl.
  destruct (h <? sc a).
  - apply IH; [apply H; left; reflexivity | intros; apply H; right; assumption].
  - apply IH; [exact Hh | intros; apply H; right; assumption].
Qed.

Lemma bestLoop_strict_first pre e post :
  0 < sc e ->
  (forall x, In x pre -> sc x < sc e) ->
  (forall x, In x post -> sc x <= sc e) ->
  fst (fold_left (bestStep sc) (pre ++ e :: post) (None, 0)) = Some e.
Proof.
  intros Hpos Hpre Hpost.
  rewrite fold_left_app. simpl.
  pose proof (bestLoop_bound pre None Hpos Hpre) as Hb.
  destruct (fold_left (bestStep sc) pre (None, 0)) as [b h]. simpl in Hb.
  unfold bestStep at 2; simpl.
  apply Nat.ltb_lt in Hb. rewrite Hb.
  rewrite bestLoop_all_below by exact Hpost. reflexivity.
Qed.

Lemma bestLoop_result l b h :
  (fold_left (bestStep sc) l (b, h) = (b, h) /\ forall x, In x l -> sc x <= h)
  \/ exists pre e post,
       l = pre ++ e :: post
       /\ fold_left (bestStep sc) l (b, h) = (Some e, sc e)
       /\ h < sc e
       /\ (forall x, In x pre -> sc x < sc e)
       /\ (forall x, In x post -> sc x <= sc e).
Proof.
  revert b h; induction l as [|a l IH]; intros b h; simpl.
  - left. split; [reflexivity | intros x []].
  - unfold bestStep at 2 4; simpl.
    destruct (h <? sc a) eqn:L.
    + apply Nat.ltb_lt in L.
      destruct (IH (Some a) (sc a)) as [[E A] | (pre & e & post & -> & E & Hlt & Hpre & Hpost)].
      * right. exists [], a, l. repeat split; auto. intros x [].
      * right. exists (a :: pre), e, post. repeat split; auto; try lia.
        intros x [<- | Hx]; auto.
    + apply Nat.ltb_ge in L.
      destruct (IH b h) as [[E A] | (pre & e & post & -> & E & Hlt & Hpre & Hpost)].
      * left. split; [exact E|]. intros x [<- | Hx]; auto.
      * right. exists (a :: pre), e, post. repeat split; auto.
        intros x [<- | Hx]; [lia | auto].
Qed.
End BestOfScores.

Lemma matchLoop_is_bestLoop (o f : jsstr) (mappings : list FilenameMappingEntry) acc :
  fold_left (matchStep o f) mappings acc =
  fold_left (bestStep (entryScore o f)) mappings acc.
Proof.
  revert acc; induction mappings as [|a l IH]; intros acc; simpl; [reflexivity|].
  rewrite matchStep_by_score. apply IH.
Qed.

Lemma noContainment_score (o f m : jsstr) :
  noContainment o f m -> scoreOfChecks o f m = 0.
Proof.
  intros (H1 & H2 & H3 & H4).
  unfold scoreOfChecks, checkNameHoldsOcr, checkOcrHoldsName,
    checkNameHoldsFile, checkFileHoldsName.
  assert (E1 : nonEmpty o && includes m o = false).
  { destruct (nonEmpty o && includes m o) eqn:E; [|reflexivity].
    apply andb_true_iff in E. destruct E as [Ea Eb].
    exfalso. apply H1. split; [apply nonEmpty_true, Ea | apply includes_spec, Eb]. }
  assert (E2 : includes o m = false).
  { destruct (includes o m) eqn:E; [|reflexivity].
    exfalso. apply H2, includes_spec, E. }
  assert (E3 : nonEmpty f && includes m f = false).
  { destruct (nonEmpty f && includes m f) eqn:E; [|reflexivity].
    apply andb_true_iff in E. destruct E as [Ea Eb].
    exfalso. apply H3. split; [apply nonEmpty_true, Ea | apply includes_spec, Eb]. }
  assert (E4 : includes f m = false).
  { destruct (includes f m) eqn:E; [|reflexivity].
    exfalso. apply H4, includes_spec, E. }
  rewrite E1, E2, E3, E4. reflexivity.
Qed.

(** C1.  The matcher is the loop of [matchStep] over the mapping list, run
    with the normalized OCR text [O] and the normalized filename core [F].
    For an entry whose normalized game name [M] is not empty, the score the
    loop computes is the maximum of the four containment checks: [20 +
    len O] if [M] contains the non-empty [O], [20 + len M] if [O] contains
    [M], [10 + len F] if [M] contains the non-empty [F], [10 + len M] if [F]
    contains [M], each check counting 0 when it does not fire; the entry
    replaces the best one so far exactly when that score is higher.  An
    entry whose normalized game name is empty leaves the loop's state as it
    was. *)
Theorem findMatchingGame_scores_by_four_checks :
  forall (ocrText : option jsstr) (originalFilename : jsstr)
         (mappings : list FilenameMappingEntry),
    findMatchingGame ocrText originalFilename mappings
    = fst (fold_left
             (matchStep (normalizeText (Some (optStr ocrText)))
                        (normalizeText (Some (filenameGamePart originalFilename))))
             mappings (None, 0))
    /\ forall (o f : jsstr) (e : FilenameMappingEntry)
              (acc : option FilenameMappingEntry * nat),
         (normalizeText (Some (gameName e)) <> [] ->
            let m := normalizeText (Some (gameName e)) in
            currentScoreOf o f m
              = Nat.max (Nat.max (checkNameHoldsOcr o m) (checkOcrHoldsName o m))
                        (Nat.max (checkNameHoldsFile f m) (checkFileHoldsName f m))
            /\ (checkNameHoldsOcr o m = 20 + length o /\ o <> [] /\ contains m o
                \/ checkNameHoldsOcr o m = 0 /\ ~ (o <> [] /\ contains m o))
            /\ (checkOcrHoldsName o m = 20 + length m /\ contains o m
                \/ checkOcrHoldsName o m = 0 /\ ~ contains o m)
            /\ (checkNameHoldsFile f m = 10 + length f /\ f <> [] /\ contains m f
                \/ checkNameHoldsFile f m = 0 /\ ~ (f <> [] /\ contains m f))
            /\ (checkFileHoldsName f m = 10 + length m /\ contains f m
                \/ checkFileHoldsName f m = 0 /\ ~ contains f m)
            /\ (noContainment o f m -> currentScoreOf o f m = 0)
            /\ matchStep o f acc e
               = if snd acc <? currentScoreOf o f m
                 then (Some e, currentScoreOf o f m) else acc)
         /\ (normalizeText (Some (gameName e)) = [] -> matchStep o f acc e = acc).
Proof.
  intros ocrText originalFilename mappings. split.
  - unfold findMatchingGame, matchLoop, optStr. reflexivity.
  - intros o f e acc. split.
    + intros Hm m. subst m.
      set (m := normalizeText (Some (gameName e))) in *.
      split; [apply currentScoreOf_is_scoreOfChecks; exact Hm|].
      split.
      { unfold checkNameHoldsOcr.
        destruct (nonEmpty o && includes m o) eqn:E.
        - left. apply andb_true_iff in E. destruct E as [Ea Eb].
          split; [reflexivity|]. split; [apply nonEmpty_true, Ea | apply includes_spec, Eb].
        - right. split; [reflexivity|]. intros [Ha Hb].
          apply nonEmpty_true in Ha. apply includes_spec in Hb.
          rewrite Ha, Hb in E. discriminate. }
      split.
      { unfold checkOcrHoldsName. destruct (includes o m) eqn:E.
        - left. split; [reflexivity | apply includes_spec, E].
        - right. split; [reflexivity|]. intros Hb. apply includes_spec in Hb. congruence. }
      split.
      { unfold checkNameHoldsFile.
        destruct (nonEmpty f && includes m f) eqn:E.
        - left. apply andb_true_iff in E. destruct E as [Ea Eb].
          split; [reflexivity|]. split; [apply nonEmpty_true, Ea | apply includes_spec, Eb].
        - right. split; [reflexivity|]. intros [Ha Hb].
          apply nonEmpty_true in Ha. apply includes_spec in Hb.
          rewrite Ha, Hb in E. discriminate. }
      split.
      { unfold checkFileHoldsName. destruct (includes f m) eqn:E.
        - left. split; [reflexivity | apply includes_spec, E].
        - right. split; [reflexivity|]. intros Hb. apply includes_spec in Hb. congruence. }
      split.
      { intros Hn. rewrite currentScoreOf_is_scoreOfChecks by exact Hm.
        apply noContainment_score, Hn. }
      unfold matchStep. fold m.
      destruct m; [congruence | reflexivity].
    + intros Hm. unfold matchStep. rewrite Hm. reflexivity.
Qed.

(** C2.  With the score of an entry being that of its four checks (0 for a
    skipped entry): the matcher returns an entry exactly when that entry
    stands at a position of the list where its score is positive, strictly
    above the score of every earlier entry and not below the score of any
    later one, so a later entry with an equal score never replaces it; it
    returns none exactly when every entry scores 0, in particular when no
    entry's normalized name is in a containment relation with the
    normalized OCR text or the normalized filename core. *)
Theorem findMatchingGame_selects_first_strict_maximum :
  forall (ocrText : option jsstr) (originalFilename : jsstr)
         (mappings : list FilenameMappingEntry),
    let o := normalizeText (Some (optStr ocrText)) in
    let f := normalizeText (Some (filenameGamePart originalFilename)) in
    (forall e, findMatchingGame ocrText originalFilename mappings = Some e ->
       exists pre post,
         mappings = pre ++ e :: post
         /\ 0 < entryScore o f e
         /\ (forall x, In x pre -> entryScore o f x < entryScore o f e)
         /\ (forall x, In x post -> entryScore o f x <= entryScore o f e))
    /\ (forall pre e post,
          mappings = pre ++ e :: post ->
          0 < entryScore o f e ->
          (forall x, In x pre -> entryScore o f x < entryScore o f e) ->
          (forall x, In x post -> entryScore o f x <= entryScore o f e) ->
          findMatchingGame ocrText originalFilename mappings = Some e)
    /\ (findMatchingGame ocrText originalFilename mappings = None
        <-> forall x, In x mappings -> entryScore o f x = 0)
    /\ ((forall x, In x mappings ->
           normalizeText (Some (gameName x)) <> [] ->
           noContainment o f (normalizeText (Some (gameName x)))) ->
        findMatchingGame ocrText originalFilename mappings = None).
Proof.
  intros ocrText originalFilename mappings o f.
  assert (R : findMatchingGame ocrText originalFilename mappings
              = fst (fold_left (bestStep (entryScore o f)) mappings (None, 0))).
  { unfold findMatchingGame, matchLoop. rewrite matchLoop_is_bestLoop. reflexivity. }
  assert (N : findMatchingGame ocrText originalFilename mappings = None
              <-> forall x, In x mappings -> entryScore o f x = 0).
  { rewrite R. split.
    - intros H.
      destruct (bestLoop_result (entryScore o f) mappings None 0)
        as [[E A] | (pre & e & post & -> & E & _)].
      + intros x Hx. specialize (A x Hx). lia.
      + rewrite E in H. discriminate.
    - intros H. rewrite bestLoop_all_below; [reflexivity|].
      intros x Hx. rewrite (H x Hx). lia. }
  split; [|split; [|split; [exact N|]]].
  - intros e He. rewrite R in He.
    destruct (bestLoop_result (entryScore o f) mappings None 0)
      as [[E A] | (pre & e' & post & -> & E & Hlt & Hpre & Hpost)].
    + rewrite E in He. discriminate.
    + rewrite E in He. simpl in He. inversion He; subst e'.
      exists pre, post. auto.
  - intros pre e post -> Hpos Hpre Hpost. rewrite R.
    apply bestLoop_strict_first; assumption.
  - intros H. apply N. intros x Hx. unfold entryScore.
    destruct (nonEmpty (normalizeText (Some (gameName x)))) eqn:E; [|reflexivity].
    apply noContainment_score, H; [exact Hx | apply nonEmpty_true, E].
Qed.

(** *** The filename core *)

Lemma lastIndexFrom_absent (c : codeUnit) (s : jsstr) (i found : Z) :
  ~ In c s -> lastIndexFrom c s i found = found.
Proof.
  revert i found; induction s as [|x s IH]; intros i found H; simpl; [reflexivity|].
  destruct (N.eqb x c) eqn:E.
  - apply N.eqb_eq in E. exfalso. apply H. left; exact E.
  - apply IH. intros Hin. apply H. right; exact Hin.
Qed.

Lemma substring_to_minus_one (s : jsstr) : substring s 0 (-1) = [].
Proof. unfold substring, clampIndex. simpl. reflexivity. Qed.

Lemma span_spec (p : codeUnit -> bool) (s a b : jsstr) :
  span p s = (a, b) ->
  s = a ++ b /\ forallb p a = true
  /\ match b with [] => True | c :: _ => p c = false end.
Proof.
  revert a b; induction s as [|c s IH]; intros a b H; simpl in H.
  - inversion H; subst. simpl. auto.
  - destruct (p c) eqn:E.
    + destruct (span p s) as [a' b'] eqn:S. inversion H; subst.
      destruct (IH a' b eq_refl) as (-> & Hall & Hb).
      simpl. rewrite E. auto.
    + inversion H; subst. simpl. rewrite E. auto.
Qed.

Lemma span_run (p : codeUnit -> bool) (d : jsstr) (c : codeUnit) (r : jsstr) :
  forallb p d = true -> p c = false -> span p (d ++ c :: r) = (d, c :: r).
Proof.
  intros Hd Hc. induction d as [|x d IH]; simpl.
  - rewrite Hc. reflexivity.
  - simpl in Hd. apply andb_true_iff in Hd. destruct Hd as [Hx Hd].
    rewrite Hx, (IH Hd). reflexivity.
Qed.

Lemma stripDimensionPrefix_strips (s rest : jsstr) :
  hasDimensionPrefix s rest -> stripDimensionPrefix s = rest.
Proof.
  intros (d1 & d2 & H1 & H2 & D1 & D2 & ->).
  unfold stripDimensionPrefix.
  rewrite (span_run isDigit d1 (cu "x") (d2 ++ cu "-" :: rest) D1 eq_refl).
  destruct d1 as [|a d1]; [congruence|].
  rewrite N.eqb_refl.
  rewrite (span_run isDigit d2 (cu "-") rest D2 eq_refl).
  destruct d2 as [|b d2]; [congruence|].
  rewrite N.eqb_refl. reflexivity.
Qed.

Lemma stripDimensionPrefix_cases (s : jsstr) :
  stripDimensionPrefix s = s
  \/ hasDimensionPrefix s (stripDimensionPrefix s).
Proof.
  unfold stripDimensionPrefix.
  destruct (span isDigit s) as [d1 r1] eqn:S1.
  destruct (span_spec isDigit s S1) as (Es & D1 & _).
  destruct d1 as [|a d1]; [left; reflexivity|].
  destruct r1 as [|x r2]; [left; reflexivity|].
  destruct (N.eqb x (cu "x")) eqn:Ex; [|left; reflexivity].
  apply N.eqb_eq in Ex. subst x.
  destruct (span isDigit r2) as [d2 r3] eqn:S2.
  destruct (span_spec isDigit r2 S2) as (Er & D2 & _).
  destruct d2 as [|b d2]; [left; reflexivity|].
  destruct r3 as [|m r4]; [left; reflexivity|].
  destruct (N.eqb m (cu "-")) eqn:Em; [|left; reflexivity].
  apply N.eqb_eq in Em. subst m.
  right. exists (a :: d1), (b :: d2).
  repeat split; try discriminate; try assumption.
  rewrite Es, Er. reflexivity.
Qed.

(** C10.  For a filename without any ['.'], the filename core of the
    matcher is the whole filename with a leading [<digits>x<digits>-]
    removed: the rest of the name when it starts with such a prefix, the
    name itself when it does not; the matcher runs its loop with the
    normalization of that core. *)
Theorem filename_without_dot_is_its_own_core :
  forall (originalFilename : jsstr),
    ~ In (cu ".") originalFilename ->
    filenameGamePart originalFilename = stripDimensionPrefix originalFilename
    /\ (forall rest, hasDimensionPrefix originalFilename rest ->
          filenameGamePart originalFilename = rest)
    /\ ((forall rest, ~ hasDimensionPrefix originalFilename rest) ->
          filenameGamePart originalFilename = originalFilename)
    /\ (forall ocrText mappings,
          findMatchingGame ocrText originalFilename mappings
          = fst (matchLoop (normalizeText (Some (optStr ocrText)))
                           (normalizeText
                              (Some (stripDimensionPrefix originalFilename)))
                           mappings)).
Proof.
  intros fname Hdot.
  assert (E : filenameGamePart fname = stripDimensionPrefix fname).
  { unfold filenameGamePart, lastIndexOf.
    rewrite lastIndexFrom_absent by exact Hdot.
    rewrite substring_to_minus_one.
    reflexivity. }
  split; [exact E|]. split; [|split].
  - intros rest H. rewrite E. apply stripDimensionPrefix_strips, H.
  - intros H. rewrite E.
    destruct (stripDimensionPrefix_cases fname) as [K | K]; [exact K|].
    exfalso. exact (H _ K).
  - intros ocrText mappings. unfold findMatchingGame. rewrite E. reflexivity.
Qed.

Lemma filename_without_dot_is_its_own_core_witness :
  ~ In (cu ".") (js "540x540-kingsmystery")
  /\ filenameGamePart (js "540x540-kingsmystery") = js "kingsmystery".
Proof.
  assert (H : ~ In (cu ".") (js "540x540-kingsmystery")).
  { vm_compute. intros K.
    repeat (destruct K as [K | K]; [discriminate K|]). exact K. }
  split; [exact H|].
  rewrite (proj1 (filename_without_dot_is_its_own_core _ H)).
  reflexivity.
Defined.

(** ** Sanitizer *)

Lemma matchesWebpToEnd_length (s : jsstr) :
  matchesWebpToEnd s = true -> length s = 5.
Proof.
  destruct s as [|a [|b [|c [|d [|e [|g s]]]]]]; simpl; try discriminate.
  reflexivity.
Qed.

Lemma stripWebpSuffix_drops_suffix (s : jsstr) :
  stripWebpSuffix s = dropImageSuffix s.
Proof.
  induction s as [|c r IH]; [reflexivity|].
  cbn [stripWebpSuffix].
  destruct (matchesWebpToEnd (c :: r)) eqn:M.
  - pose proof (matchesWebpToEnd_length _ M) as L.
    unfold dropImageSuffix, endsWithWebp. rewrite L. simpl skipn.
    rewrite M. reflexivity.
  - rewrite IH. unfold dropImageSuffix, endsWithWebp.
    destruct (Nat.le_gt_cases 5 (length r)) as [G | G].
    + replace (length (c :: r) - 5) with (S (length r - 5)) by (simpl; lia).
      cbn [skipn firstn].
      destruct (matchesWebpToEnd (skipn (length r - 5) r)); reflexivity.
    + replace (length (c :: r) - 5) with 0 by (simpl; lia).
      replace (length r - 5) with 0 by lia.
      cbn [skipn]. rewrite M.
      destruct (matchesWebpToEnd r) eqn:Mr; [|reflexivity].
      apply matchesWebpToEnd_length in Mr. lia.
Qed.

Lemma replaceSpaceRuns_collapses (s : jsstr) :
  replaceSpaceRuns false s = collapseWhitespace s
  /\ forall c, isSpace c = true ->
       cu "_" :: replaceSpaceRuns true s = collapseWhitespace (c :: s).
Proof.
  induction s as [|x r [IH1 IH2]].
  - split; [reflexivity|]. intros c Hc. simpl. rewrite Hc. reflexivity.
  - split.
    + cbn [replaceSpaceRuns]. destruct (isSpace x) eqn:E.
      * apply IH2, E.
      * cbn [collapseWhitespace]. rewrite E, IH1. reflexivity.
    + intros c Hc. cbn [replaceSpaceRuns].
      change (collapseWhitespace (c :: x :: r))
        with (if isSpace c
              then if isSpace x then collapseWhitespace (x :: r)
                   else cu "_" :: collapseWhitespace (x :: r)
              else c :: collapseWhitespace (x :: r)).
      rewrite Hc. destruct (isSpace x) eqn:E.
      * apply IH2, E.
      * cbn [collapseWhitespace]. rewrite E, IH1. reflexivity.
Qed.

Lemma truncation_is_firstn (maxLength : Z) (s : jsstr) :
  (if (maxLength <? Z.of_nat (length s))%Z then substring s 0 maxLength else s)
  = truncateTo maxLength s.
Proof.
  unfold truncateTo.
  destruct (maxLength <? Z.of_nat (length s))%Z eqn:L.
  - apply Z.ltb_lt in L. unfold substring, clampIndex.
    change (Z.to_nat 0) with 0. rewrite Nat.min_0_l.
    rewrite Nat.min_0_l, Nat.max_0_l, Nat.sub_0_r. cbn [skipn].
    rewrite Nat.min_l by lia. reflexivity.
  - apply Z.ltb_ge in L. rewrite firstn_all2 by lia. reflexivity.
Qed.

Lemma dropWhile_all (p : codeUnit -> bool) (l : jsstr) :
  forallb p l = true -> dropWhile p l = [].
Proof.
  induction l as [|x l IH]; simpl; [reflexivity|].
  intros H. apply andb_true_iff in H. destruct H as [Hx Hl].
  rewrite Hx. apply IH, Hl.
Qed.

Lemma dropWhile_app_all (p : codeUnit -> bool) (l t : jsstr) :
  forallb p l = true -> dropWhile p (l ++ t) = dropWhile p t.
Proof.
  induction l as [|x l IH]; simpl; [reflexivity|].
  intros H. apply andb_true_iff in H. destruct H as [Hx Hl].
  rewrite Hx. apply IH, Hl.
Qed.

Lemma dropWhile_app_stop (p : codeUnit -> bool) (l : jsstr) (x : codeUnit) (t : jsstr) :
  p x = false -> dropWhile p (l ++ x :: t) = dropWhile p l ++ x :: t.
Proof.
  intros Hx. induction l as [|y l IH]; simpl.
  - rewrite Hx. reflexivity.
  - destruct (p y); [exact IH | reflexivity].
Qed.

Lemma forallb_rev (p : codeUnit -> bool) (l : jsstr) :
  forallb p (rev l) = forallb p l.
Proof.
  destruct (forallb p l) eqn:E.
  - apply forallb_forall. intros x Hx. apply in_rev in Hx.
    rewrite forallb_forall in E. apply E, Hx.
  - destruct (forallb p (rev l)) eqn:E'; [|reflexivity].
    rewrite <- E. symmetry. apply forallb_forall. intros x Hx.
    rewrite forallb_forall in E'. apply E'. apply in_rev in Hx. exact Hx.
Qed.

Lemma dropWhile_split (p : codeUnit -> bool) (s : jsstr) :
  forallb p s = false ->
  exists a x b, s = a ++ x :: b /\ forallb p a = true /\ p x = false.
Proof.
  induction s as [|c s IH]; simpl; [discriminate|].
  destruct (p c) eqn:E; simpl.
  - intros H. destruct (IH H) as (a & x & b & -> & Ha & Hx).
    exists (c :: a), x, b. simpl. rewrite E. auto.
  - intros _. exists [], c, s. auto.
Qed.

Lemma stripTrailingSeparators_rev (s : jsstr) :
  stripTrailingSeparators s = rev (dropWhile isSeparator (rev s)).
Proof.
  induction s as [|c r IH]; [reflexivity|].
  cbn [stripTrailingSeparators rev].
  destruct (forallb isSeparator r) eqn:A.
  - rewrite dropWhile_app_all by (rewrite forallb_rev; exact A).
    cbn [forallb dropWhile]. rewrite A, andb_true_r.
    destruct (isSeparator c) eqn:C; [reflexivity|].
    rewrite IH, dropWhile_all by (rewrite forallb_rev; exact A).
    reflexivity.
  - cbn [forallb]. rewrite A, andb_false_r.
    destruct (dropWhile_split isSeparator (rev r)) as (a & x & b & E & Ha & Hx).
    { rewrite forallb_rev; exact A. }
    rewrite IH, E.
    replace ((a ++ x :: b) ++ [c]) with (a ++ x :: (b ++ [c]))
      by (rewrite <- app_assoc; reflexivity).
    rewrite !dropWhile_app_all by exact Ha.
    cbn [dropWhile]. rewrite Hx.
    cbn [rev]. rewrite rev_app_distr. reflexivity.
Qed.

Lemma trimming_order (p : codeUnit -> bool) (s : jsstr) :
  dropWhile p (rev (dropWhile p (rev s)))
  = rev (dropWhile p (rev (dropWhile p s))).
Proof.
  destruct (forallb p s) eqn:A.
  - rewrite (dropWhile_all p s A).
    rewrite (dropWhile_all p (rev s)) by (rewrite forallb_rev; exact A).
    reflexivity.
  - destruct (dropWhile_split p s A) as (a & x & b & -> & Ha & Hx).
    rewrite (dropWhile_app_all p a (x :: b) Ha).
    cbn [dropWhile]. rewrite Hx.
    rewrite rev_app_distr. cbn [rev]. rewrite <- app_assoc. cbn [app].
    rewrite (dropWhile_app_stop p (rev b) x (rev a) Hx).
    rewrite (dropWhile_app_stop p (rev b) x [] Hx).
    rewrite !rev_app_distr. cbn [rev app]. rewrite rev_involutive.
    rewrite <- app_assoc. cbn [app].
    rewrite (dropWhile_app_all p a _ Ha).
    cbn [dropWhile]. rewrite Hx. reflexivity.
Qed.

Lemma separators_trimmed (s : jsstr) :
  stripLeadingSeparators (stripTrailingSeparators s) = trimSeparators s.
Proof.
  unfold stripLeadingSeparators, trimSeparators.
  rewrite stripTrailingSeparators_rev. apply trimming_order.
Qed.

Lemma sanitizeFilename_by_steps (name fallbackName : jsstr) (maxLength : Z) :
  sanitizeFilename name fallbackName maxLength
  = orElse (sanitizeSteps name maxLength) fallbackName.
Proof.
  unfold sanitizeFilename, sanitizeSteps.
  rewrite truncation_is_firstn, separators_trimmed.
  rewrite (proj1 (replaceSpaceRuns_collapses _)).
  rewrite stripWebpSuffix_drops_suffix. reflexivity.
Qed.

(** C4.  The sanitizer's result is that of the five steps taken in order
    (drop a trailing [.webp] in any letter case, replace every code unit
    outside [[A-Za-z0-9_.-]] by an underscore, turn each run of whitespace
    into one underscore, keep at most [maxLength] code units, trim the
    separators [_], [.], [-] at both ends) when that is not empty, and the
    fallback when it is. *)
Theorem sanitizeFilename_follows_the_steps :
  forall (name fallbackName : jsstr) (maxLength : Z),
    (sanitizeSteps name maxLength = [] ->
       sanitizeFilename name fallbackName maxLength = fallbackName)
    /\ (sanitizeSteps name maxLength <> [] ->
          sanitizeFilename name fallbackName maxLength
          = sanitizeSteps name maxLength)
    /\ sanitizeSteps name maxLength
       = trimSeparators
           (truncateTo maxLength
              (collapseWhitespace
                 (replaceOutsideSafeSet (dropImageSuffix name)))).
Proof.
  intros name fallbackName maxLength.
  rewrite sanitizeFilename_by_steps. unfold orElse.
  split; [|split].
  - intros ->. reflexivity.
  - intros H. apply nonEmpty_true in H. rewrite H. reflexivity.
  - reflexivity.
Qed.

(** ** Items under the updates of the program *)

Lemma truthy_Some (x : jsstr) : truthy (Some x) = nonEmpty x.
Proof. destruct x; reflexivity. Qed.

Lemma truthy_inv (o : option jsstr) :
  truthy o = true -> exists x, o = Some x /\ x <> [].
Proof.
  destruct o as [[|c x]|]; simpl; try discriminate.
  intros _. exists (c :: x). split; [reflexivity | discriminate].
Qed.

Lemma orElse_nonEmpty (a b : jsstr) :
  nonEmpty b = true -> nonEmpty (orElse a b) = true.
Proof. unfold orElse. destruct (nonEmpty a) eqn:E; auto. Qed.

Lemma app_nonEmpty (a b : jsstr) : nonEmpty b = true -> nonEmpty (a ++ b) = true.
Proof. destruct a; simpl; auto. Qed.

Lemma suggestedNameFor_nonEmpty (m : FilenameMappingEntry) :
  truthy (Some (suggestedNameFor m)) = true.
Proof. rewrite truthy_Some. apply app_nonEmpty. reflexivity. Qed.

Ltac item_ok_tac :=
  let H1 := fresh "H1" in
  let H2 := fresh "H2" in
  let H3 := fresh "H3" in
  intros (H1 & H2 & H3); unfold itemOk, isErrorFamily in *;
  cbn [status suggestedName errorMessage imageType width height
       withStatus withOcrText withSuggestedName withErrorMessage withGameProvider] in *;
  repeat split; auto; try discriminate.

Lemma itemOk_markApiKeyMissing img : itemOk img -> itemOk (markApiKeyMissing img).
Proof. unfold markApiKeyMissing. item_ok_tac. Qed.

Lemma itemOk_markMappingError img : itemOk img -> itemOk (markMappingError img).
Proof. unfold markMappingError. item_ok_tac. Qed.

Lemma itemOk_markExtracting img : itemOk img -> itemOk (markExtracting img).
Proof. unfold markExtracting. item_ok_tac. Qed.

Lemma itemOk_markMatching ocr img : itemOk img -> itemOk (markMatching ocr img).
Proof. unfold markMatching. item_ok_tac. Qed.

Lemma itemOk_markOcrFailed message img : itemOk img -> itemOk (markOcrFailed message img).
Proof.
  unfold markOcrFailed. item_ok_tac.
  intros _. rewrite truthy_Some. apply orElse_nonEmpty. reflexivity.
Qed.

Lemma itemOk_markCompleted m img : itemOk img -> itemOk (markCompleted m img).
Proof.
  unfold markCompleted. item_ok_tac.
  intros _. apply suggestedNameFor_nonEmpty.
Qed.

Lemma itemOk_markNotFound img : itemOk img -> itemOk (markNotFound img).
Proof. unfold markNotFound. item_ok_tac. Qed.

Lemma itemOk_markMatchFailed message img :
  itemOk img -> itemOk (markMatchFailed message img).
Proof.
  unfold markMatchFailed. item_ok_tac.
  intros _. rewrite truthy_Some. apply orElse_nonEmpty. reflexivity.
Qed.

Lemma itemOk_requeue img : itemOk img -> itemOk (requeue img).
Proof. unfold requeue. item_ok_tac. Qed.

Lemma itemOk_requeueAfterKey img : itemOk img -> itemOk (requeueAfterKey img).
Proof.
  unfold requeueAfterKey. destruct (status_eqb (status img) api_key_missing); auto.
  item_ok_tac.
Qed.

Lemma itemOk_newImage k index c : itemOk (newImage k index c).
Proof.
  unfold newImage, itemOk, isErrorFamily.
  destruct (chosenMetadata c) as [[w h]|]; destruct (truthy k);
    cbn [status suggestedName errorMessage imageType width height geometryClass];
    repeat split; auto; try discriminate.
Qed.

Lemma itemOk_newImagesFrom k files index :
  Forall itemOk (newImagesFrom k index files).
Proof.
  revert index; induction files as [|c r IH]; intros index; simpl; constructor.
  - apply itemOk_newImage.
  - apply IH.
Qed.

Lemma newImage_not_active k index c : isActive (newImage k index c) = false.
Proof.
  unfold newImage, isActive.
  destruct (chosenMetadata c) as [[w h]|]; destruct (truthy k); reflexivity.
Qed.

Lemma newImagesFrom_not_active k files index img :
  In img (newImagesFrom k index files) -> isActive img = false.
Proof.
  revert index; induction files as [|c r IH]; intros index; simpl; [intros []|].
  intros [<- | H]; [apply newImage_not_active | eapply IH; eauto].
Qed.

Lemma isActive_requeueAfterKey img :
  isActive (requeueAfterKey img) = true -> isActive img = true.
Proof.
  unfold requeueAfterKey.
  destruct (status_eqb (status img) api_key_missing); auto. discriminate.
Qed.

Lemma id_requeueAfterKey img : id (requeueAfterKey img) = id img.
Proof.
  unfold requeueAfterKey.
  destruct (status_eqb (status img) api_key_missing); reflexivity.
Qed.

(** ** Lists of items *)

Lemma Forall_itemOk_map (g : ProcessedImage -> ProcessedImage) l :
  (forall img, itemOk img -> itemOk (g img)) ->
  Forall itemOk l -> Forall itemOk (map g l).
Proof.
  intros Hg H. induction H; simpl; constructor; auto.
Qed.

Lemma map_id_map (g : ProcessedImage -> ProcessedImage) l :
  (forall img, id (g img) = id img) -> map id (map g l) = map id l.
Proof.
  intros Hg. rewrite map_map. apply map_ext. exact Hg.
Qed.

Lemma existsb_str_eqb (x : jsstr) (l : list jsstr) :
  existsb (str_eqb x) l = true <-> In x l.
Proof.
  rewrite existsb_exists. split.
  - intros (y & Hy & E). apply str_eqb_eq in E. subst. exact Hy.
  - intros H. exists x. split; [exact H | apply str_eqb_refl].
Qed.

Lemma distinctIds_NoDup (l : list jsstr) : distinctIds l = true <-> NoDup l.
Proof.
  induction l as [|x l IH]; simpl.
  - split; [constructor | reflexivity].
  - rewrite andb_true_iff, negb_true_iff, IH. split.
    + intros [H1 H2]. constructor; [|exact H2].
      intros Hin. apply existsb_str_eqb in Hin. congruence.
    + intros H. inversion H; subst. split; [|assumption].
      destruct (existsb (str_eqb x) l) eqn:E; [|reflexivity].
      apply existsb_str_eqb in E. contradiction.
Qed.

Lemma distinct_ids_inj (l : list ProcessedImage) (a b : ProcessedImage) :
  distinctIds (map id l) = true -> In a l -> In b l -> id a = id b -> a = b.
Proof.
  rewrite distinctIds_NoDup.
  induction l as [|x l IH]; simpl; [intros _ []|].
  intros H Ha Hb E. inversion H; subst.
  destruct Ha as [<- | Ha]; destruct Hb as [<- | Hb]; auto.
  - exfalso. apply H2. rewrite E. apply in_map, Hb.
  - exfalso. apply H2. rewrite <- E. apply in_map, Ha.
Qed.

Lemma at_most_one_with_id (p : ProcessedImage -> bool) (theId : jsstr) l :
  distinctIds (map id l) = true ->
  (forall img, In img l -> p img = true -> id img = theId) ->
  length (filter p l) <= 1.
Proof.
  rewrite distinctIds_NoDup.
  induction l as [|x l IH]; simpl; intros H Hp; [lia|].
  inversion H; subst.
  destruct (p x) eqn:E.
  - assert (F : filter p l = []).
    { destruct (filter p l) as [|y r] eqn:Fy; [reflexivity|].
      assert (Hy : In y (filter p l)) by (rewrite Fy; left; reflexivity).
      apply filter_In in Hy. destruct Hy as [Hy Py].
      exfalso. apply H2.
      rewrite (Hp x (or_introl eq_refl) E), <- (Hp y (or_intror Hy) Py).
      apply in_map, Hy. }
    simpl. rewrite F. simpl. lia.
  - apply IH; [assumption|]. intros img Hi. apply Hp. right; exact Hi.
Qed.

Lemma mapById_In theId f l img' :
  In img' (mapById theId f l) ->
  exists img, In img l
    /\ ((id img = theId /\ img' = f img) \/ (id img <> theId /\ img' = img)).
Proof.
  unfold mapById. rewrite in_map_iff. intros (img & E & Hin).
  exists img. split; [exact Hin|].
  destruct (str_eqb (id img) theId) eqn:B.
  - apply str_eqb_eq in B. left. auto.
  - right. split; [|auto]. intros K. apply str_eqb_eq in K. congruence.
Qed.

Lemma mapById_ids theId f l :
  (forall img, id (f img) = id img) ->
  map id (mapById theId f l) = map id l.
Proof.
  intros Hf. unfold mapById. apply map_id_map.
  intros img. destruct (str_eqb (id img) theId); auto.
Qed.

Lemma mapById_itemOk theId f l :
  (forall img, itemOk img -> itemOk (f img)) ->
  Forall itemOk l -> Forall itemOk (mapById theId f l).
Proof.
  intros Hf. unfold mapById. apply Forall_itemOk_map.
  intros img. destruct (str_eqb (id img) theId); auto.
Qed.

(** Updating the pending call's item while the call goes on. *)
Lemma activeOk_advance l (t t' : Task) f :
  (forall img, In img l -> isActive img = true -> id img = id (imageToProcess t)) ->
  imageToProcess t' = imageToProcess t ->
  phase t' <> Settled ->
  (forall img, id (f img) = id img) ->
  activeOk (mapById (id (imageToProcess t)) f l) (Some t').
Proof.
  intros Hl Ht Hp Hf img' Hin Hact.
  exists t'. split; [reflexivity|]. split; [exact Hp|]. rewrite Ht.
  destruct (mapById_In _ _ _ _ Hin) as (img & Hi & [[E ->] | [E ->]]).
  - rewrite Hf. exact E.
  - apply Hl; assumption.
Qed.

(** Updating the pending call's item to a status outside the window. *)
Lemma no_active_after_settling l (theId : jsstr) f :
  (forall img, In img l -> isActive img = true -> id img = theId) ->
  (forall img, isActive (f img) = false) ->
  forall img', In img' (mapById theId f l) -> isActive img' = false.
Proof.
  intros Hl Hf img' Hin.
  destruct (mapById_In _ _ _ _ Hin) as (img & Hi & [[E ->] | [E ->]]).
  - apply Hf.
  - destruct (isActive img) eqn:A; [|reflexivity].
    exfalso. apply E. apply Hl; assumption.
Qed.

Lemma activeOk_none_active l pending :
  (forall img, In img l -> isActive img = false) -> activeOk l pending.
Proof. intros H img Hin Hact. rewrite (H img Hin) in Hact. discriminate. Qed.

Lemma activeOk_map (g : ProcessedImage -> ProcessedImage) l pending :
  (forall img, id (g img) = id img) ->
  (forall img, isActive (g img) = true -> isActive img = true) ->
  activeOk l pending -> activeOk (map g l) pending.
Proof.
  intros Hid Hact H img' Hin A.
  apply in_map_iff in Hin. destruct Hin as (img & <- & Hin).
  destruct (H img Hin (Hact _ A)) as (t & E & P & I).
  exists t. rewrite Hid. auto.
Qed.

Lemma activeOk_ids l pending t :
  activeOk l pending -> pending = Some t ->
  forall img, In img l -> isActive img = true -> id img = id (imageToProcess t).
Proof.
  intros H E img Hin A. destruct (H img Hin A) as (t' & E' & _ & I).
  congruence.
Qed.

Lemma activeOk_idle l :
  activeOk l None -> forall img, In img l -> isActive img = false.
Proof.
  intros H img Hin. destruct (isActive img) eqn:A; [|reflexivity].
  destruct (H img Hin A) as (t & E & _). discriminate.
Qed.

Lemma activeOk_settled l t :
  activeOk l (Some t) -> phase t = Settled ->
  forall img, In img l -> isActive img = false.
Proof.
  intros H P img Hin. destruct (isActive img) eqn:A; [|reflexivity].
  destruct (H img Hin A) as (t' & E & P' & _). inversion E; subst. contradiction.
Qed.

(** ** Start all *)

Ltac state_fields :=
  cbn [processedImages isCurrentlyProcessingImage startProcessingFlag isZipping
       apiKey apiKeyInput pastedCustomMappings manualFilenameMappings
       mappingParseMessage unusedMappingsMessage startAttemptErrorMessage
       pendingTask
       setProcessedImages setIsCurrentlyProcessingImage setStartProcessingFlag
       setIsZipping setApiKey setApiKeyInput setPastedCustomMappings
       setManualFilenameMappings setMappingParseMessage setUnusedMappingsMessage
       setStartAttemptErrorMessage setPendingTask] in *.

Lemma handleStartAllProcessing_frame (s : AppState) :
  let s' := handleStartAllProcessing s in
  isCurrentlyProcessingImage s' = isCurrentlyProcessingImage s
  /\ isZipping s' = isZipping s
  /\ apiKey s' = apiKey s
  /\ apiKeyInput s' = apiKeyInput s
  /\ pastedCustomMappings s' = pastedCustomMappings s
  /\ pendingTask s' = pendingTask s
  /\ manualFilenameMappings s' = fst (parseCustomMappings (pastedCustomMappings s))
  /\ mappingParseMessage s'
     = Some (snd (parseCustomMappings (pastedCustomMappings s))).
Proof.
  unfold handleStartAllProcessing. state_fields.
  destruct (parseCustomMappings (pastedCustomMappings s)) as [parsed msg].
  repeat match goal with
         | |- context [if ?c then _ else _] => destruct c
         end; state_fields; repeat split; reflexivity.
Qed.

(** The outcome of the handler on the item list, the run flag and the
    reported message, by the order of its checks. *)
Lemma handleStartAllProcessing_outcome (s : AppState) :
  let s' := handleStartAllProcessing s in
  let parsed := fst (parseCustomMappings (pastedCustomMappings s)) in
  if negb (truthy (apiKey s)) then
    processedImages s' = processedImages s
    /\ startProcessingFlag s' = startProcessingFlag s
    /\ startAttemptErrorMessage s' = Some msgKeyMissing
  else if negb (nonEmpty (trim (pastedCustomMappings s))) then
    processedImages s' = processedImages s
    /\ startProcessingFlag s' = startProcessingFlag s
    /\ startAttemptErrorMessage s' = Some msgMappingEmpty
  else if length parsed =? 0 then
    processedImages s' = processedImages s
    /\ startProcessingFlag s' = startProcessingFlag s
    /\ exists specific,
         startAttemptErrorMessage s' = Some (msgNoEntriesBase ++ specific)
  else if length (filter isEligible (processedImages s)) =? 0 then
    processedImages s' = processedImages s
    /\ startProcessingFlag s' = startProcessingFlag s
    /\ startAttemptErrorMessage s'
       = Some (if length (processedImages s) =? 0 then msgNoUploads
               else msgNothingPending)
  else
    processedImages s' = requeueEligible (processedImages s)
    /\ startProcessingFlag s' = true
    /\ startAttemptErrorMessage s' = None.
Proof.
  unfold handleStartAllProcessing, requeueEligible. state_fields.
  destruct (parseCustomMappings (pastedCustomMappings s)) as [parsed msg].
  cbn [fst].
  destruct ((0 <? length parsed) && (0 <? length (processedImages s)));
    [destruct (0 <? length (trulyUnusedMappingNames parsed (processedImages s)))|];
    state_fields;
    (destruct (negb (truthy (apiKey s))); [state_fields; auto|]);
    (destruct (negb (nonEmpty (trim (pastedCustomMappings s)))); [state_fields; auto|]);
    (destruct (length parsed =? 0); [state_fields; eauto|]);
    (destruct (length (filter isEligible (processedImages s)) =? 0);
       state_fields; auto).
Qed.

Lemma eligible_by_id (l : list ProcessedImage) (img : ProcessedImage) :
  distinctIds (map id l) = true -> In img l ->
  existsb (fun procImg => str_eqb (id procImg) (id img)) (filter isEligible l)
  = isEligible img.
Proof.
  intros D Hin. destruct (isEligible img) eqn:E.
  - apply existsb_exists. exists img. split.
    + apply filter_In. auto.
    + apply str_eqb_refl.
  - destruct (existsb _ _) eqn:X; [|reflexivity].
    apply existsb_exists in X. destruct X as (p & Hp & Ep).
    apply filter_In in Hp. destruct Hp as [Hp Pe].
    apply str_eqb_eq in Ep.
    rewrite (distinct_ids_inj l p img D Hp Hin Ep) in Pe. congruence.
Qed.

Lemma requeueEligible_by_status (l : list ProcessedImage) :
  distinctIds (map id l) = true ->
  requeueEligible l = map (fun img => if isEligible img then requeue img else img) l.
Proof.
  intros D. unfold requeueEligible. apply map_ext_in.
  intros img Hin. rewrite (eligible_by_id l img D Hin). reflexivity.
Qed.

(** ** The invariant holds along every run *)

Lemma invariant_initial : invariant initialState.
Proof.
  unfold invariant, schedulerOk, initialState. state_fields.
  repeat split; try constructor; try discriminate; try congruence.
  intros img [].
Qed.

Lemma invariant_map_items (g : ProcessedImage -> ProcessedImage) (s s' : AppState) :
  invariant s ->
  (forall img, id (g img) = id img) ->
  (forall img, itemOk img -> itemOk (g img)) ->
  (forall img, isActive (g img) = true -> isActive img = true) ->
  processedImages s' = map g (processedImages s) ->
  isCurrentlyProcessingImage s' = isCurrentlyProcessingImage s ->
  pendingTask s' = pendingTask s ->
  (startProcessingFlag s' = true ->
   startProcessingFlag s = true \/ processedImages s <> []) ->
  invariant s'.
Proof.
  intros (Hok & Hid & Hbusy & Hact & Hflag) Gid Gok Gact Ei Eb Ep Ef.
  unfold invariant, schedulerOk. rewrite Ei, Eb, Ep.
  split; [apply Forall_itemOk_map; assumption|].
  split; [rewrite map_id_map; assumption|].
  split; [exact Hbusy|].
  split; [apply activeOk_map; assumption|].
  intros F. assert (N : processedImages s <> []).
  { destruct (Ef F) as [K | K]; auto. }
  destruct (processedImages s); [congruence | discriminate].
Qed.

Lemma invariant_frame (s s' : AppState) :
  invariant s ->
  processedImages s' = processedImages s ->
  isCurrentlyProcessingImage s' = isCurrentlyProcessingImage s ->
  startProcessingFlag s' = startProcessingFlag s ->
  pendingTask s' = pendingTask s ->
  invariant s'.
Proof.
  intros H Ei Eb Ef Ep.
  apply invariant_map_items with (g := fun img => img) (s := s); auto.
  - rewrite map_id. exact Ei.
  - rewrite Ef. auto.
Qed.

Lemma invariant_handleFilesSelected k files s :
  invariant s -> idsAreFresh s (newImagesFrom k 0 files) = true ->
  invariant (handleFilesSelected k files s).
Proof.
  intros (Hok & Hid & Hbusy & Hact & Hflag) Hfresh.
  unfold invariant, schedulerOk, handleFilesSelected. state_fields.
  split; [apply Forall_app; split; [exact Hok | apply itemOk_newImagesFrom]|].
  split; [exact Hfresh|].
  split; [exact Hbusy|].
  split.
  - intros img Hin A. apply in_app_or in Hin. destruct Hin as [Hin | Hin].
    + apply Hact; assumption.
    + rewrite (newImagesFrom_not_active _ _ _ _ Hin) in A. discriminate.
  - intros F. specialize (Hflag F).
    destruct (processedImages s); [congruence | discriminate].
Qed.

Lemma invariant_handleStartAllProcessing s :
  invariant s -> invariant (handleStartAllProcessing s).
Proof.
  intros H.
  pose proof (handleStartAllProcessing_frame s) as (Eb & _ & _ & _ & _ & Ep & _).
  pose proof (handleStartAllProcessing_outcome s) as O. cbv zeta in O.
  destruct (negb (truthy (apiKey s)));
    [destruct O as (Ei & Ef & _); apply invariant_frame with (s := s); assumption|].
  destruct (negb (nonEmpty (trim (pastedCustomMappings s))));
    [destruct O as (Ei & Ef & _); apply invariant_frame with (s := s); assumption|].
  destruct (length (fst (parseCustomMappings (pastedCustomMappings s))) =? 0);
    [destruct O as (Ei & Ef & _); apply invariant_frame with (s := s); assumption|].
  destruct (length (filter isEligible (processedImages s)) =? 0) eqn:L;
    [destruct O as (Ei & Ef & _); apply invariant_frame with (s := s); assumption|].
  destruct O as (Ei & Ef & _).
  apply invariant_map_items
    with (g := fun img =>
                 if existsb (fun procImg => str_eqb (id procImg) (id img))
                            (filter isEligible (processedImages s))
                 then requeue img else img) (s := s); auto.
  - intros img. destruct (existsb _ _); reflexivity.
  - intros img Hi. destruct (existsb _ _); [apply itemOk_requeue|]; exact Hi.
  - intros img. destruct (existsb _ _); [discriminate | auto].
  - intros _. right. apply Nat.eqb_neq in L.
    destruct (processedImages s); [simpl in L; congruence | discriminate].
Qed.

Lemma invariant_handleRetry theId s :
  invariant s -> hasItem theId s = true -> invariant (handleRetry theId s).
Proof.
  intros H Hhas.
  apply invariant_map_items
    with (g := fun img => if str_eqb (id img) theId then requeue img else img)
         (s := s); [exact H | | | | | | |].
  - intros img. destruct (str_eqb _ _); reflexivity.
  - intros img Hi. destruct (str_eqb _ _); [apply itemOk_requeue|]; exact Hi.
  - intros img. destruct (str_eqb _ _); [discriminate | auto].
  - unfold handleRetry.
    destruct (negb (startProcessingFlag s) && negb (isCurrentlyProcessingImage s));
      reflexivity.
  - unfold handleRetry.
    destruct (negb (startProcessingFlag s) && negb (isCurrentlyProcessingImage s));
      reflexivity.
  - unfold handleRetry.
    destruct (negb (startProcessingFlag s) && negb (isCurrentlyProcessingImage s));
      reflexivity.
  - intros _. right. unfold hasItem in Hhas.
    destruct (processedImages s); [discriminate | discriminate].
Qed.

Lemma invariant_clickSetKey s : invariant s -> invariant (clickSetKey s).
Proof.
  intros H. unfold clickSetKey.
  destruct (nonEmpty (trim (apiKeyInput s))).
  - apply invariant_map_items with (g := requeueAfterKey) (s := s); auto.
    + apply id_requeueAfterKey.
    + apply itemOk_requeueAfterKey.
    + apply isActive_requeueAfterKey.
  - apply invariant_frame with (s := s); [exact H | reflexivity ..].
Qed.

Lemma invariant_handleClearAll s :
  invariant s -> clearAllDisabled s = false -> invariant (handleClearAll s).
Proof.
  intros (Hok & Hid & Hbusy & Hact & Hflag) G.
  unfold clearAllDisabled in G.
  apply orb_false_iff in G. destruct G as [G _].
  apply orb_false_iff in G. destruct G as [G _].
  apply orb_false_iff in G. destruct G as [_ G].
  assert (P : pendingTask s = None).
  { destruct (pendingTask s) eqn:E; [|reflexivity].
    assert (B : isCurrentlyProcessingImage s = true) by (apply Hbusy; discriminate).
    congruence. }
  unfold invariant, schedulerOk, handleClearAll. state_fields.
  rewrite P. repeat split; try constructor; try discriminate; try congruence.
  intros img [].
Qed.

Lemma invariant_busy s :
  invariant s -> isCurrentlyProcessingImage s = false -> pendingTask s = None.
Proof.
  intros (_ & _ & Hbusy & _) B.
  destruct (pendingTask s) eqn:E; [|reflexivity].
  assert (isCurrentlyProcessingImage s = true) by (apply Hbusy; discriminate).
  congruence.
Qed.

Lemma invariant_processSingleImage_begin s img :
  invariant s -> pendingTask s = None ->
  invariant (processSingleImage_begin (setIsCurrentlyProcessingImage true s) img).
Proof.
  intros (Hok & Hid & Hbusy & Hact & Hflag) P.
  pose proof (activeOk_idle (l := processedImages s)) as Idle.
  rewrite P in Hact. specialize (Idle Hact).
  assert (Hex : forall theId x, In x (processedImages s) -> isActive x = true ->
                                id x = theId).
  { intros theId x Hx A. rewrite (Idle x Hx) in A. discriminate. }
  unfold processSingleImage_begin. state_fields.
  destruct (negb (truthy (apiKey s)));
    [|destruct (length (manualFilenameMappings s) =? 0)];
    unfold invariant, schedulerOk; state_fields.
  - split; [apply mapById_itemOk; [apply itemOk_markApiKeyMissing | exact Hok]|].
    split; [rewrite mapById_ids; [exact Hid | reflexivity]|].
    split; [split; [discriminate | reflexivity]|].
    split.
    + apply activeOk_none_active.
      apply no_active_after_settling with (theId := id img);
        [exact (Hex (id img)) | reflexivity].
    + intros F. specialize (Hflag F). unfold mapById.
      destruct (processedImages s); [congruence | discriminate].
  - split; [apply mapById_itemOk; [apply itemOk_markMappingError | exact Hok]|].
    split; [rewrite mapById_ids; [exact Hid | reflexivity]|].
    split; [split; [discriminate | reflexivity]|].
    split.
    + apply activeOk_none_active.
      apply no_active_after_settling with (theId := id img);
        [exact (Hex (id img)) | reflexivity].
    + intros F. specialize (Hflag F). unfold mapById.
      destruct (processedImages s); [congruence | discriminate].
  - split; [apply mapById_itemOk; [apply itemOk_markExtracting | exact Hok]|].
    split; [rewrite mapById_ids; [exact Hid | reflexivity]|].
    split; [split; [discriminate | reflexivity]|].
    split.
    + apply activeOk_advance
        with (t := mkTask img (manualFilenameMappings s) AwaitingOcr)
             (t' := mkTask img (manualFilenameMappings s) AwaitingOcr).
      * exact (Hex (id img)).
      * reflexivity.
      * discriminate.
      * reflexivity.
    + intros F. specialize (Hflag F). unfold mapById.
      destruct (processedImages s); [congruence | discriminate].
Qed.

Lemma invariant_processingEffect s : invariant s -> invariant (processingEffect s).
Proof.
  intros H. unfold processingEffect.
  destruct (isCurrentlyProcessingImage s) eqn:B; [exact H|].
  cbn [orb].
  destruct (negb (startProcessingFlag s) || isZipping s); [exact H|].
  destruct (find isQueued (processedImages s)) as [img|].
  - apply invariant_processSingleImage_begin; [exact H|].
    apply invariant_busy; assumption.
  - destruct (startProcessingFlag s && (0 <? length (processedImages s)));
      [|exact H].
    destruct H as (Hok & Hid & Hbusy & Hact & Hflag).
    unfold invariant, schedulerOk. state_fields.
    repeat split; auto; try apply Hbusy. discriminate.
Qed.

Lemma invariant_advanceTask s t f ph :
  invariant s -> pendingTask s = Some t ->
  (forall img, id (f img) = id img) ->
  (forall img, itemOk img -> itemOk (f img)) ->
  (ph <> Settled \/ forall img, isActive (f img) = false) ->
  invariant (advanceTask t f ph s).
Proof.
  intros (Hok & Hid & Hbusy & Hact & Hflag) P Fid Fok Fph.
  pose proof (activeOk_ids Hact P) as Hex.
  unfold invariant, schedulerOk, advanceTask. state_fields.
  split; [apply mapById_itemOk; assumption|].
  split; [rewrite mapById_ids; assumption|].
  split.
  { split; [discriminate|]. intros _. apply Hbusy. rewrite P. discriminate. }
  split.
  - destruct Fph as [Fph | Fph].
    + apply activeOk_advance with (t := t); auto.
    + apply activeOk_none_active.
      apply no_active_after_settling with (theId := id (imageToProcess t)); auto.
  - intros F. specialize (Hflag F). unfold mapById.
    destruct (processedImages s); [congruence | discriminate].
Qed.

Lemma invariant_taskFinally s s' :
  invariant s -> taskFinally s = Some s' -> invariant s'.
Proof.
  intros (Hok & Hid & Hbusy & Hact & Hflag). unfold taskFinally.
  destruct (pendingTask s) as [t|] eqn:P; [|discriminate].
  destruct (phase t) eqn:Ph; try discriminate.
  intros E. inversion E; subst s'. clear E.
  unfold invariant, schedulerOk. state_fields.
  split; [exact Hok|]. split; [exact Hid|].
  split; [split; [discriminate | congruence]|].
  split; [|exact Hflag].
  apply activeOk_none_active. apply (activeOk_settled Hact Ph).
Qed.

Lemma applyEvent_invariant (e : Event) (s s' : AppState) :
  invariant s -> applyEvent e s = Some s' -> invariant s'.
Proof.
  intros H. destruct e; cbn [applyEvent].
  - (* MountWithEnvKey *)
    intros E; inversion E; subst s'. unfold mountWithEnvKey.
    destruct (truthy keyFromEnv); [|exact H].
    apply invariant_frame with (s := s); [exact H | reflexivity ..].
  - intros E; inversion E; subst s'.
    apply invariant_frame with (s := s); [exact H | reflexivity ..].
  - intros E; inversion E; subst s'.
    apply invariant_frame with (s := s); [exact H | reflexivity ..].
  - intros E; inversion E; subst s'. apply invariant_clickSetKey, H.
  - intros E; inversion E; subst s'.
    apply invariant_frame with (s := s); [exact H | reflexivity ..].
  - (* FilesSelected *)
    destruct (idsAreFresh s (newImagesFrom capturedKey 0 files)) eqn:F;
      [|discriminate].
    intros E; inversion E; subst s'.
    apply invariant_handleFilesSelected; assumption.
  - intros E; inversion E; subst s'. apply invariant_handleStartAllProcessing, H.
  - destruct (hasItem theId s) eqn:F; [|discriminate].
    intros E; inversion E; subst s'. apply invariant_handleRetry; assumption.
  - destruct (clearAllDisabled s) eqn:F; [discriminate|].
    intros E; inversion E; subst s'. apply invariant_handleClearAll; assumption.
  - (* ClickDownloadZip *)
    destruct (isZipping s); [discriminate|].
    intros E; inversion E; subst s'. unfold clickDownloadZip. state_fields.
    destruct (length (filter isCompletedWithName (processedImages s)) =? 0);
      apply invariant_frame with (s := s); try exact H; reflexivity.
  - destruct (isZipping s); [|discriminate].
    intros E; inversion E; subst s'. unfold zipGenerated.
    destruct ok; apply invariant_frame with (s := s); try exact H; reflexivity.
  - intros E; inversion E; subst s'. apply invariant_processingEffect, H.
  - (* OcrResolved *)
    unfold ocrResolved. destruct (pendingTask s) as [t|] eqn:P; [|discriminate].
    destruct (phase t); try discriminate.
    intros E; inversion E; subst s'.
    apply invariant_advanceTask; auto.
    + apply itemOk_markMatching.
    + left. discriminate.
  - unfold ocrRejected. destruct (pendingTask s) as [t|] eqn:P; [|discriminate].
    destruct (phase t); try discriminate.
    intros E; inversion E; subst s'.
    apply invariant_advanceTask; auto.
    apply itemOk_markOcrFailed.
  - unfold matchSettled. destruct (pendingTask s) as [t|] eqn:P; [|discriminate].
    destruct (phase t); try discriminate.
    destruct (findMatchingGame _ _ _) as [m|];
      intros E; inversion E; subst s'; apply invariant_advanceTask; auto.
    + apply itemOk_markCompleted.
    + apply itemOk_markNotFound.
  - unfold matchThrew. destruct (pendingTask s) as [t|] eqn:P; [|discriminate].
    destruct (phase t); try discriminate.
    intros E; inversion E; subst s'.
    apply invariant_advanceTask; auto.
    apply itemOk_markMatchFailed.
  - apply invariant_taskFinally, H.
Qed.

Lemma run_invariant (events : list Event) (s s' : AppState) :
  invariant s -> run events s = Some s' -> invariant s'.
Proof.
  revert s; induction events as [|e rest IH]; intros s H; simpl.
  - intros E; inversion E; subst; exact H.
  - destruct (applyEvent e s) as [s1|] eqn:A; [|discriminate].
    apply IH. apply (applyEvent_invariant e H A).
Qed.

Lemma reachable_invariant (s : AppState) : reachable s -> invariant s.
Proof. intros [events E]. apply (run_invariant events invariant_initial E). Qed.

Lemma run_app (a b : list Event) (s : AppState) :
  run (a ++ b) s = match run a s with Some s1 => run b s1 | None => None end.
Proof.
  revert s; induction a as [|e a IH]; intros s; simpl; [reflexivity|].
  destruct (applyEvent e s); [apply IH | reflexivity].
Qed.

Lemma reachable_step (e : Event) (s s' : AppState) :
  reachable s -> applyEvent e s = Some s' -> reachable s'.
Proof.
  intros [events E] A. exists (events ++ [e]).
  rewrite run_app, E. simpl. rewrite A. reflexivity.
Qed.

(** ** Item states *)

(** C5.  In every state reached from the initial one by uploads, the
    scheduler and the per-item processing, retries, start-all and the
    setting of the credential (and the other actions of the application), a
    completed item has a non-empty suggested name, and an item in one of
    the statuses error, api_key_missing, mapping_parse_error has a
    non-empty error message. *)
Theorem completed_has_name_failed_has_message :
  forall (s : AppState),
    reachable s ->
    forall img, In img (processedImages s) ->
      (status img = completed ->
         exists name, suggestedName img = Some name /\ name <> [])
      /\ (status img = error \/ status img = api_key_missing
          \/ status img = mapping_parse_error ->
            exists message, errorMessage img = Some message /\ message <> []).
Proof.
  intros s R img Hin.
  destruct (reachable_invariant R) as (Hok & _).
  rewrite Forall_forall in Hok. destruct (Hok img Hin) as (H1 & H2 & _).
  split.
  - intros E. apply truthy_inv, H1, E.
  - intros E. apply truthy_inv, H2. unfold isErrorFamily.
    destruct E as [-> | [-> | ->]]; reflexivity.
Qed.

Lemma sampleSession_reachable : reachable (stateAfter sampleSession).
Proof. exists sampleSession. vm_compute. reflexivity. Qed.

Lemma sampleCompletedItem_in_session :
  In sampleCompletedItem (processedImages (stateAfter sampleSession)).
Proof. vm_compute. left. reflexivity. Qed.

Lemma completed_has_name_failed_has_message_witness :
  reachable (stateAfter sampleSession)
  /\ In sampleCompletedItem (processedImages (stateAfter sampleSession))
  /\ status sampleCompletedItem = completed
  /\ exists name, suggestedName sampleCompletedItem = Some name /\ name <> [].
Proof.
  split; [exact sampleSession_reachable|].
  split; [exact sampleCompletedItem_in_session|].
  assert (E : status sampleCompletedItem = completed) by (vm_compute; reflexivity).
  split; [exact E|].
  exact (proj1 (completed_has_name_failed_has_message
                  sampleSession_reachable sampleCompletedItem
                  sampleCompletedItem_in_session) E).
Defined.

(** ** The scheduler *)

Lemma keepsTask_same_items (s s' : AppState) :
  pendingTask s' = pendingTask s ->
  processedImages s' = processedImages s ->
  Transition s s'.
Proof.
  intros Ep Ei. apply KeepsTask; [exact Ep|].
  intros img Hin A. rewrite Ei in Hin. exists img. auto.
Qed.

Lemma keepsTask_map (g : ProcessedImage -> ProcessedImage) (s s' : AppState) :
  pendingTask s' = pendingTask s ->
  processedImages s' = map g (processedImages s) ->
  (forall img, id (g img) = id img) ->
  (forall img, isActive (g img) = true -> isActive img = true) ->
  Transition s s'.
Proof.
  intros Ep Ei Gid Gact. apply KeepsTask; [exact Ep|].
  intros img Hin A. rewrite Ei in Hin. apply in_map_iff in Hin.
  destruct Hin as (old & <- & Hin). exists old. auto.
Qed.

Lemma applyEvent_transition (e : Event) (s s' : AppState) :
  applyEvent e s = Some s' -> Transition s s'.
Proof.
  destruct e; cbn [applyEvent].
  - intros E; inversion E; subst s'. unfold mountWithEnvKey.
    destruct (truthy keyFromEnv); apply keepsTask_same_items; reflexivity.
  - intros E; inversion E; subst s'. apply keepsTask_same_items; reflexivity.
  - intros E; inversion E; subst s'. apply keepsTask_same_items; reflexivity.
  - intros E; inversion E; subst s'. unfold clickSetKey.
    destruct (nonEmpty (trim (apiKeyInput s))).
    + apply keepsTask_map with (g := requeueAfterKey); try reflexivity.
      * apply id_requeueAfterKey.
      * apply isActive_requeueAfterKey.
    + apply keepsTask_same_items; reflexivity.
  - intros E; inversion E; subst s'. apply keepsTask_same_items; reflexivity.
  - (* FilesSelected *)
    destruct (idsAreFresh s (newImagesFrom capturedKey 0 files)); [|discriminate].
    intros E; inversion E; subst s'. apply KeepsTask; [reflexivity|].
    unfold handleFilesSelected. state_fields.
    intros img Hin A. apply in_app_or in Hin. destruct Hin as [Hin | Hin].
    + exists img. auto.
    + rewrite (newImagesFrom_not_active _ _ _ _ Hin) in A. discriminate.
  - (* ClickStartAll *)
    intros E; inversion E; subst s'.
    pose proof (handleStartAllProcessing_frame s) as (_ & _ & _ & _ & _ & Ep & _).
    pose proof (handleStartAllProcessing_outcome s) as O. cbv zeta in O.
    destruct (negb (truthy (apiKey s)));
      [destruct O as (Ei & _); apply keepsTask_same_items; assumption|].
    destruct (negb (nonEmpty (trim (pastedCustomMappings s))));
      [destruct O as (Ei & _); apply keepsTask_same_items; assumption|].
    destruct (length (fst (parseCustomMappings (pastedCustomMappings s))) =? 0);
      [destruct O as (Ei & _); apply keepsTask_same_items; assumption|].
    destruct (length (filter isEligible (processedImages s)) =? 0);
      [destruct O as (Ei & _); apply keepsTask_same_items; assumption|].
    destruct O as (Ei & _).
    apply keepsTask_map
      with (g := fun img =>
                   if existsb (fun procImg => str_eqb (id procImg) (id img))
                              (filter isEligible (processedImages s))
                   then requeue img else img); auto.
    + intros img. destruct (existsb _ _); reflexivity.
    + intros img. destruct (existsb _ _); [discriminate | auto].
  - (* ClickRetry *)
    destruct (hasItem theId s); [|discriminate].
    intros E; inversion E; subst s'.
    apply keepsTask_map
      with (g := fun img => if str_eqb (id img) theId then requeue img else img).
    + unfold handleRetry.
      destruct (negb (startProcessingFlag s) && negb (isCurrentlyProcessingImage s));
        reflexivity.
    + unfold handleRetry.
      destruct (negb (startProcessingFlag s) && negb (isCurrentlyProcessingImage s));
        reflexivity.
    + intros img. destruct (str_eqb _ _); reflexivity.
    + intros img. destruct (str_eqb _ _); [discriminate | auto].
  - (* ClickClearAll *)
    destruct (clearAllDisabled s); [discriminate|].
    intros E; inversion E; subst s'. apply KeepsTask; [reflexivity|].
    intros img [].
  - destruct (isZipping s); [discriminate|].
    intros E; inversion E; subst s'. unfold clickDownloadZip. state_fields.
    destruct (length (filter isCompletedWithName (processedImages s)) =? 0);
      apply keepsTask_same_items; reflexivity.
  - destruct (isZipping s); [|discriminate].
    intros E; inversion E; subst s'. unfold zipGenerated.
    destruct ok; apply keepsTask_same_items; reflexivity.
  - (* RunEffect *)
    intros E; inversion E; subst s'. unfold processingEffect.
    destruct (isCurrentlyProcessingImage s) eqn:B;
      [apply keepsTask_same_items; reflexivity|].
    cbn [orb].
    destruct (negb (startProcessingFlag s) || isZipping s);
      [apply keepsTask_same_items; reflexivity|].
    destruct (find isQueued (processedImages s)) as [img|] eqn:F.
    + unfold processSingleImage_begin. state_fields.
      destruct (negb (truthy (apiKey s)));
        [|destruct (length (manualFilenameMappings s) =? 0)].
      * apply StartsTask with (img := img) (f := markApiKeyMissing) (ph := Settled);
          auto.
      * apply StartsTask with (img := img) (f := markMappingError) (ph := Settled);
          auto.
      * apply StartsTask with (img := img) (f := markExtracting) (ph := AwaitingOcr);
          auto. discriminate.
    + destruct (startProcessingFlag s && (0 <? length (processedImages s)));
        apply keepsTask_same_items; reflexivity.
  - (* OcrResolved *)
    unfold ocrResolved. destruct (pendingTask s) as [t|] eqn:P; [|discriminate].
    destruct (phase t) eqn:Ph; try discriminate.
    intros E; inversion E; subst s'.
    apply AdvancesTask with (t := t) (f := markMatching text) (ph := Matching text);
      auto; congruence.
  - unfold ocrRejected. destruct (pendingTask s) as [t|] eqn:P; [|discriminate].
    destruct (phase t) eqn:Ph; try discriminate.
    intros E; inversion E; subst s'.
    apply AdvancesTask with (t := t) (f := markOcrFailed message) (ph := Settled);
      auto; congruence.
  - unfold matchSettled. destruct (pendingTask s) as [t|] eqn:P; [|discriminate].
    destruct (phase t) eqn:Ph; try discriminate.
    destruct (findMatchingGame _ _ _) as [m|]; intros E; inversion E; subst s'.
    + apply AdvancesTask with (t := t) (f := markCompleted m) (ph := Settled);
        auto; congruence.
    + apply AdvancesTask with (t := t) (f := markNotFound) (ph := Settled);
        auto; congruence.
  - unfold matchThrew. destruct (pendingTask s) as [t|] eqn:P; [|discriminate].
    destruct (phase t) eqn:Ph; try discriminate.
    intros E; inversion E; subst s'.
    apply AdvancesTask with (t := t) (f := markMatchFailed message) (ph := Settled);
      auto; congruence.
  - unfold taskFinally. destruct (pendingTask s) as [t|] eqn:P; [|discriminate].
    destruct (phase t) eqn:Ph; try discriminate.
    intros E; inversion E; subst s'.
    apply ReleasesTask with (t := t); auto.
Qed.

Lemma mapById_updated (theId : jsstr) f l img' :
  (forall x, id (f x) = id x) ->
  In img' (mapById theId f l) -> id img' = theId ->
  exists old, In old l /\ img' = f old.
Proof.
  intros Fid Hin E.
  destruct (mapById_In _ _ _ _ Hin) as (old & Ho & [[Eo ->] | [Eo ->]]).
  - exists old. auto.
  - contradiction.
Qed.

(** C6.  In every reachable state at most one item has the status
    ocr_extracting or name_matching, and such an item is the one of the
    pending [processSingleImage] call, with the busy flag set.  While a call
    is pending, after any event the only item that can be in these statuses
    is the item of that call, and the call is either still the pending one
    or it had settled and was released, with no item left in these
    statuses.  A call settles only with its item in a terminal status
    (completed, error, api_key_missing or mapping_parse_error). *)
Theorem at_most_one_item_in_flight :
  forall (s : AppState),
    reachable s ->
    length (filter isActive (processedImages s)) <= 1
    /\ (forall img, In img (processedImages s) -> isActive img = true ->
          isCurrentlyProcessingImage s = true
          /\ exists t, pendingTask s = Some t /\ phase t <> Settled
                       /\ id img = id (imageToProcess t))
    /\ (forall e s' t,
          applyEvent e s = Some s' -> pendingTask s = Some t ->
          (forall img, In img (processedImages s') -> isActive img = true ->
             id img = id (imageToProcess t))
          /\ ((exists t', pendingTask s' = Some t'
                          /\ imageToProcess t' = imageToProcess t)
              \/ (pendingTask s' = None /\ phase t = Settled
                  /\ forall img, In img (processedImages s') ->
                                 isActive img = false)))
    /\ (forall e s' t',
          applyEvent e s = Some s' ->
          pendingTask s' = Some t' -> phase t' = Settled ->
          (forall t, pendingTask s = Some t -> phase t <> Settled) ->
          forall img, In img (processedImages s') ->
                      id img = id (imageToProcess t') -> isTerminal img = true).
Proof.
  intros s R.
  destruct (reachable_invariant R) as (Hok & Hid & Hbusy & Hact & Hflag).
  split; [|split; [|split]].
  - apply at_most_one_with_id
      with (theId := match pendingTask s with
                     | Some t => id (imageToProcess t)
                     | None => []
                     end); [exact Hid|].
    intros img Hin A. destruct (Hact img Hin A) as (t & E & _ & I).
    rewrite E. exact I.
  - intros img Hin A. destruct (Hact img Hin A) as (t & E & P & I).
    split; [apply Hbusy; rewrite E; discriminate|].
    exists t. auto.
  - intros e s' t A P.
    destruct (applyEvent_transition e s A)
      as [Ep Ha | img f ph B _ _ _ _ _ | t0 f ph P0 Ph Ep Ei Fid _ | t0 P0 Ph Ep Ei].
    + split.
      * intros img Hin Act. destruct (Ha img Hin Act) as (old & Ho & Ao & <-).
        apply (activeOk_ids Hact P old Ho Ao).
      * left. exists t. rewrite Ep. auto.
    + assert (isCurrentlyProcessingImage s = true)
        by (apply Hbusy; rewrite P; discriminate).
      congruence.
    + assert (t0 = t) by congruence. subst t0. split.
      * intros img Hin Act. rewrite Ei in Hin.
        destruct (mapById_In _ _ _ _ Hin) as (old & Ho & [[Eo ->] | [Eo ->]]).
        -- rewrite Fid. exact Eo.
        -- apply (activeOk_ids Hact P old Ho Act).
      * left. eexists. split; [exact Ep | reflexivity].
    + assert (t0 = t) by congruence. subst t0.
      rewrite P in Hact.
      assert (Idle : forall img, In img (processedImages s') -> isActive img = false).
      { intros img Hin. rewrite Ei in Hin. apply (activeOk_settled Hact Ph img Hin). }
      split.
      * intros img Hin Act. rewrite (Idle img Hin) in Act. discriminate.
      * right. auto.
  - intros e s' t' A P' Ph' Hs img Hin Eid.
    destruct (applyEvent_transition e s A)
      as [Ep Ha | img0 f ph B _ Ep Ei Fid Ft | t0 f ph P0 Ph Ep Ei Fid Ft | t0 P0 Ph Ep Ei].
    + exfalso. apply (Hs t'); [congruence | exact Ph'].
    + rewrite P' in Ep. inversion Ep; subst t'. cbn [phase imageToProcess] in *.
      rewrite Ei in Hin.
      destruct (mapById_updated _ _ _ Fid Hin Eid) as (old & _ & ->).
      apply (Ft Ph').
    + rewrite P' in Ep. inversion Ep; subst t'. cbn [phase imageToProcess] in *.
      rewrite Ei in Hin.
      destruct (mapById_updated _ _ _ Fid Hin Eid) as (old & _ & ->).
      apply (Ft Ph').
    + congruence.
Qed.

Lemma sampleExtracting_reachable : reachable (stateAfter sampleExtracting).
Proof. exists sampleExtracting. vm_compute. reflexivity. Qed.

Lemma at_most_one_item_in_flight_witness :
  reachable (stateAfter sampleExtracting)
  /\ length (filter isActive (processedImages (stateAfter sampleExtracting))) = 1
  /\ length (filter isActive (processedImages (stateAfter sampleExtracting))) <= 1.
Proof.
  split; [exact sampleExtracting_reachable|].
  split; [vm_compute; reflexivity|].
  exact (proj1 (at_most_one_item_in_flight sampleExtracting_reachable)).
Defined.

Lemma isQueued_status (img : ProcessedImage) :
  isQueued img = true <-> status img = queued.
Proof.
  unfold isQueued. destruct (status img); simpl; split; congruence.
Qed.

Lemma find_first (p : ProcessedImage -> bool) pre img post :
  p img = true -> (forall x, In x pre -> p x = false) ->
  find p (pre ++ img :: post) = Some img.
Proof.
  intros Hp Hpre. induction pre as [|a pre IH]; simpl.
  - rewrite Hp. reflexivity.
  - rewrite (Hpre a (or_introl eq_refl)). apply IH.
    intros x Hx. apply Hpre. right; exact Hx.
Qed.

Lemma find_none_iff (p : ProcessedImage -> bool) l :
  (forall x, In x l -> p x = false) -> find p l = None.
Proof.
  induction l as [|a l IH]; simpl; [reflexivity|].
  intros H. rewrite (H a (or_introl eq_refl)). apply IH.
  intros x Hx. apply H. right; exact Hx.
Qed.

Lemma not_queued (x : ProcessedImage) : status x <> queued -> isQueued x = false.
Proof.
  intros H. destruct (isQueued x) eqn:E; [|reflexivity].
  apply isQueued_status in E. contradiction.
Qed.

(** C7.  In a reachable state with the run flag set, no call pending and no
    archive being built, the scheduler's effect starts
    [processSingleImage] for the first item of the list whose status is
    queued, whatever follows it in the list, with the current mapping set,
    and sets the busy flag; when no item is queued it clears the run flag
    and changes nothing else of the items or the pending call. *)
Theorem scheduler_picks_first_queued :
  forall (s : AppState),
    reachable s ->
    startProcessingFlag s = true ->
    isCurrentlyProcessingImage s = false ->
    isZipping s = false ->
    (forall pre img post,
       processedImages s = pre ++ img :: post ->
       status img = queued ->
       (forall x, In x pre -> status x <> queued) ->
       isCurrentlyProcessingImage (processingEffect s) = true
       /\ startProcessingFlag (processingEffect s) = true
       /\ (exists ph,
             pendingTask (processingEffect s)
             = Some (mkTask img (manualFilenameMappings s) ph))
       /\ processedImages (processingEffect s)
          = mapById (id img)
              (if negb (truthy (apiKey s)) then markApiKeyMissing
               else if length (manualFilenameMappings s) =? 0 then markMappingError
               else markExtracting)
              (processedImages s))
    /\ ((forall x, In x (processedImages s) -> status x <> queued) ->
        startProcessingFlag (processingEffect s) = false
        /\ isCurrentlyProcessingImage (processingEffect s) = false
        /\ pendingTask (processingEffect s) = None
        /\ processedImages (processingEffect s) = processedImages s).
Proof.
  intros s R F B Z.
  pose proof (reachable_invariant R) as Inv.
  pose proof (invariant_busy Inv B) as P.
  destruct Inv as (_ & _ & _ & _ & Hflag).
  unfold processingEffect. rewrite F, B, Z. cbn [negb orb andb].
  split.
  - intros pre img post E Q Hpre.
    assert (Hfind : find isQueued (processedImages s) = Some img).
    { rewrite E. apply find_first;
        [apply isQueued_status, Q | intros x Hx; apply not_queued, Hpre, Hx]. }
    rewrite Hfind. unfold processSingleImage_begin. state_fields.
    destruct (negb (truthy (apiKey s)));
      [|destruct (length (manualFilenameMappings s) =? 0)];
      state_fields; repeat split; eauto.
  - intros Hall.
    rewrite find_none_iff by (intros x Hx; apply not_queued, Hall, Hx).
    assert (L : (0 <? length (processedImages s)) = true).
    { apply Nat.ltb_lt. specialize (Hflag F).
      destruct (processedImages s); [congruence | simpl; lia]. }
    rewrite L. state_fields. auto.
Qed.

Lemma sampleStart_reachable : reachable (stateAfter sampleStart).
Proof. exists sampleStart. vm_compute. reflexivity. Qed.

Lemma scheduler_picks_first_queued_witness :
  (reachable (stateAfter sampleStart)
   /\ startProcessingFlag (stateAfter sampleStart) = true
   /\ isCurrentlyProcessingImage (stateAfter sampleStart) = false
   /\ isZipping (stateAfter sampleStart) = false
   /\ processedImages (stateAfter sampleStart) = [] ++ sampleQueuedItem :: []
   /\ status sampleQueuedItem = queued
   /\ isCurrentlyProcessingImage (processingEffect (stateAfter sampleStart)) = true)
  /\ (reachable (stateAfter sampleSession)
      /\ startProcessingFlag (stateAfter sampleSession) = true
      /\ isCurrentlyProcessingImage (stateAfter sampleSession) = false
      /\ isZipping (stateAfter sampleSession) = false
      /\ startProcessingFlag (processingEffect (stateAfter sampleSession)) = false).
Proof.
  split.
  - assert (F : startProcessingFlag (stateAfter sampleStart) = true)
      by (vm_compute; reflexivity).
    assert (B : isCurrentlyProcessingImage (stateAfter sampleStart) = false)
      by (vm_compute; reflexivity).
    assert (Z : isZipping (stateAfter sampleStart) = false)
      by (vm_compute; reflexivity).
    assert (E : processedImages (stateAfter sampleStart)
                = [] ++ sampleQueuedItem :: []) by (vm_compute; reflexivity).
    assert (Q : status sampleQueuedItem = queued) by (vm_compute; reflexivity).
    repeat (split; [assumption || exact sampleStart_reachable|]).
    apply (proj1 (scheduler_picks_first_queued sampleStart_reachable F B Z)
             [] sampleQueuedItem [] E Q).
    intros x [].
  - assert (F : startProcessingFlag (stateAfter sampleSession) = true)
      by (vm_compute; reflexivity).
    assert (B : isCurrentlyProcessingImage (stateAfter sampleSession) = false)
      by (vm_compute; reflexivity).
    assert (Z : isZipping (stateAfter sampleSession) = false)
      by (vm_compute; reflexivity).
    repeat (split; [assumption || exact sampleSession_reachable|]).
    apply (proj2 (scheduler_picks_first_queued sampleSession_reachable F B Z)).
    assert (S : map status (processedImages (stateAfter sampleSession))
                = [completed]) by (vm_compute; reflexivity).
    intros x Hx. apply (in_map status) in Hx. rewrite S in Hx.
    destruct Hx as [<- | []]. discriminate.
Defined.

(** ** Archive layout *)

Lemma str_eqb_nil (x : jsstr) : str_eqb x [] = negb (nonEmpty x).
Proof. destruct x; reflexivity. Qed.

Lemma provider_guard (p : option jsstr) :
  truthy p && negb (str_eqb (trim (optStr p)) []) = negb (providerIsBlank p).
Proof.
  destruct p as [[|c t]|]; try reflexivity.
  cbn [truthy optStr providerIsBlank andb].
  rewrite str_eqb_nil. reflexivity.
Qed.

Lemma classifyGeometry_cases (w h : N) :
  (w = 500%N /\ h = 693%N /\ classifyGeometry w h = portrait)
  \/ (w = 500%N /\ h = 333%N /\ classifyGeometry w h = landscape)
  \/ (~ (w = 500%N /\ h = 693%N) /\ ~ (w = 500%N /\ h = 333%N)
      /\ classifyGeometry w h = standard).
Proof.
  unfold classifyGeometry.
  destruct (N.eqb_spec w 500) as [Ew | Ew]; cbn [andb].
  - destruct (N.eqb_spec h 693) as [Eh | Eh]; [left; auto|].
    destruct (N.eqb_spec h 333) as [Eh' | Eh']; [right; left; auto|].
    right; right. repeat split; tauto.
  - right; right. repeat split; tauto.
Qed.

Lemma zipEntries_In (l : list ProcessedImage) (img : ProcessedImage) (p : jsstr) :
  In img l -> status img = completed -> filePathInZip img = Some p ->
  In (p, file img) (zipEntries l).
Proof.
  intros Hin St Hp. unfold zipEntries. apply in_flat_map.
  exists img. split.
  - apply filter_In. split; [exact Hin|].
    unfold isCompletedWithName. rewrite St. cbn [status_eqb andb].
    unfold filePathInZip in Hp. destruct (truthy (suggestedName img));
      [reflexivity | discriminate].
  - rewrite Hp. left. reflexivity.
Qed.

(** C3, as the program has it.  For every completed item of a reachable
    state the archive holds an entry for it whose path is the suggested
    name when the provider is absent or blank, and otherwise the sanitized
    provider (with the fallback [default_provider]), a slash, the subfolder
    and the suggested name; the subfolder is [portrait/] exactly for the
    geometry 500x693, [landscape/] exactly for 500x333 and empty for
    anything else.  The sanitizer keeps the letter case: provider
    [Playtech] with geometry 500x693 gives [Playtech/portrait/<name>]. *)
Theorem archive_path_of_completed_item :
  forall (s : AppState),
    reachable s ->
    forall img, In img (processedImages s) -> status img = completed ->
      exists name path,
        suggestedName img = Some name /\ name <> []
        /\ filePathInZip img = Some path
        /\ In (path, file img) (zipEntries (processedImages s))
        /\ (providerIsBlank (gameProvider img) = true -> path = name)
        /\ (providerIsBlank (gameProvider img) = false ->
              (width img = Some 500%N /\ height img = Some 693%N ->
                 path = providerFolder (gameProvider img) ++ js "/"
                          ++ js "portrait/" ++ name)
              /\ (width img = Some 500%N /\ height img = Some 333%N ->
                    path = providerFolder (gameProvider img) ++ js "/"
                             ++ js "landscape/" ++ name)
              /\ (~ (width img = Some 500%N /\ height img = Some 693%N) ->
                  ~ (width img = Some 500%N /\ height img = Some 333%N) ->
                    path = providerFolder (gameProvider img) ++ js "/" ++ name))
        /\ (gameProvider img = Some (js "Playtech") ->
            width img = Some 500%N -> height img = Some 693%N ->
              path = js "Playtech/portrait/" ++ name).
Proof.
  intros s R img Hin St.
  destruct (reachable_invariant R) as (Hok & _).
  rewrite Forall_forall in Hok. destruct (Hok img Hin) as (H1 & _ & H3).
  specialize (H1 St).
  destruct (truthy_inv _ H1) as (name & En & Nn).
  assert (Hp : filePathInZip img
               = Some (if providerIsBlank (gameProvider img) then name
                       else providerFolder (gameProvider img) ++ js "/"
                              ++ match geometryClass (width img) (height img) with
                                 | portrait => js "portrait/"
                                 | landscape => js "landscape/"
                                 | standard => []
                                 end ++ name)).
  { unfold filePathInZip. rewrite H1, provider_guard, H3, En. cbn [optStr].
    destruct (providerIsBlank (gameProvider img)); cbn [negb]; [reflexivity|].
    unfold providerFolder.
    destruct (geometryClass (width img) (height img)); reflexivity. }
  eexists name, _. split; [exact En|]. split; [exact Nn|].
  split; [exact Hp|].
  split; [apply zipEntries_In; assumption|].
  assert (G : forall w h, width img = Some w -> height img = Some h ->
                          geometryClass (width img) (height img)
                          = classifyGeometry w h).
  { intros w h -> ->. reflexivity. }
  split; [|split].
  - intros ->. reflexivity.
  - intros ->. split; [|split].
    + intros [Ew Eh]. rewrite (G _ _ Ew Eh). reflexivity.
    + intros [Ew Eh]. rewrite (G _ _ Ew Eh). reflexivity.
    + intros N1 N2.
      destruct (width img) as [w|]; destruct (height img) as [h|];
        try reflexivity.
      cbn [geometryClass].
      destruct (classifyGeometry_cases w h)
        as [(-> & -> & _) | [(-> & -> & _) | (_ & _ & ->)]].
      * exfalso. apply N1. auto.
      * exfalso. apply N2. auto.
      * reflexivity.
  - intros Ep Ew Eh. rewrite Ep, (G _ _ Ew Eh). reflexivity.
Qed.

Lemma archive_path_of_completed_item_witness :
  reachable (stateAfter sampleSession)
  /\ In sampleCompletedItem (processedImages (stateAfter sampleSession))
  /\ status sampleCompletedItem = completed
  /\ exists name path,
       suggestedName sampleCompletedItem = Some name
       /\ filePathInZip sampleCompletedItem = Some path
       /\ In (path, file sampleCompletedItem)
             (zipEntries (processedImages (stateAfter sampleSession))).
Proof.
  assert (E : status sampleCompletedItem = completed) by (vm_compute; reflexivity).
  split; [exact sampleSession_reachable|].
  split; [exact sampleCompletedItem_in_session|].
  split; [exact E|].
  destruct (archive_path_of_completed_item sampleSession_reachable
              sampleCompletedItem sampleCompletedItem_in_session E)
    as (name & path & En & _ & Hp & Hz & _).
  exists name, path. split; [exact En|]. split; [exact Hp | exact Hz].
Defined.

(** C3, the instance stated in the design document, fails: the completed
    item of the sample session has provider [Playtech] and geometry
    500x693, and its path in the archive starts with a capital letter. *)
Lemma playtech_folder_keeps_its_capital :
  reachable (stateAfter sampleSession)
  /\ In sampleCompletedItem (processedImages (stateAfter sampleSession))
  /\ status sampleCompletedItem = completed
  /\ gameProvider sampleCompletedItem = Some (js "Playtech")
  /\ width sampleCompletedItem = Some 500%N
  /\ height sampleCompletedItem = Some 693%N
  /\ suggestedName sampleCompletedItem = Some (js "code1.webp")
  /\ filePathInZip sampleCompletedItem = Some (js "Playtech/portrait/code1.webp")
  /\ filePathInZip sampleCompletedItem <> Some (js "playtech/portrait/code1.webp").
Proof.
  split; [exact sampleSession_reachable|].
  split; [exact sampleCompletedItem_in_session|].
  repeat (split; [vm_compute; reflexivity|]).
  vm_compute. discriminate.
Qed.

(** ** Start all: refusals *)

Lemma length_zero_iff {A} (l : list A) : (length l =? 0) = true <-> l = [].
Proof. destruct l; simpl; split; congruence. Qed.

Lemma filter_none (p : ProcessedImage -> bool) l :
  (forall x, In x l -> p x = false) -> filter p l = [].
Proof.
  induction l as [|a l IH]; simpl; [reflexivity|].
  intros H. rewrite (H a (or_introl eq_refl)). apply IH.
  intros x Hx. apply H. right; exact Hx.
Qed.

Lemma refused_start_keeps_items (s : AppState) :
  truthy (apiKey s) = false
  \/ trim (pastedCustomMappings s) = []
  \/ fst (parseCustomMappings (pastedCustomMappings s)) = []
  \/ (forall img, In img (processedImages s) -> isEligible img = false) ->
  processedImages (handleStartAllProcessing s) = processedImages s
  /\ startProcessingFlag (handleStartAllProcessing s) = startProcessingFlag s
  /\ exists msg, startAttemptErrorMessage (handleStartAllProcessing s) = Some msg.
Proof.
  intros H.
  pose proof (handleStartAllProcessing_outcome s) as O. cbv zeta in O.
  destruct (negb (truthy (apiKey s))) eqn:K;
    [destruct O as (Ei & Ef & Em); eauto|].
  destruct (negb (nonEmpty (trim (pastedCustomMappings s)))) eqn:T;
    [destruct O as (Ei & Ef & Em); eauto|].
  destruct (length (fst (parseCustomMappings (pastedCustomMappings s))) =? 0) eqn:L;
    [destruct O as (Ei & Ef & sp & Em); eauto|].
  destruct (length (filter isEligible (processedImages s)) =? 0) eqn:G;
    [destruct O as (Ei & Ef & Em); eauto|].
  exfalso. destruct H as [H | [H | [H | H]]].
  - rewrite H in K. discriminate.
  - rewrite H in T. discriminate.
  - rewrite H in L. discriminate.
  - rewrite (filter_none _ _ H) in G. discriminate.
Qed.

Lemma empty_table_start_is_stable (s : AppState) :
  truthy (apiKey s) = true -> trim (pastedCustomMappings s) = [] ->
  forall n,
    processedImages (startAllTimes (S n) s) = processedImages s
    /\ startProcessingFlag (startAllTimes (S n) s) = startProcessingFlag s
    /\ startAttemptErrorMessage (startAllTimes (S n) s) = Some msgMappingEmpty.
Proof.
  intros K T n. revert s K T. induction n as [|n IH]; intros s K T.
  - cbn [startAllTimes].
    pose proof (handleStartAllProcessing_outcome s) as O. cbv zeta in O.
    rewrite K, T in O. exact O.
  - change (startAllTimes (S (S n)) s)
      with (startAllTimes (S n) (handleStartAllProcessing s)).
    pose proof (handleStartAllProcessing_frame s) as (_ & _ & Ek & _ & Ep & _).
    pose proof (handleStartAllProcessing_outcome s) as O. cbv zeta in O.
    rewrite K, T in O. destruct O as (Ei & Ef & _).
    destruct (IH (handleStartAllProcessing s)) as (Ei' & Ef' & Em').
    + rewrite Ek. exact K.
    + rewrite Ep. exact T.
    + rewrite Ei', Ef', Ei, Ef. auto.
Qed.

(** C8.  When the credential is absent, or the pasted mapping text is empty,
    or the parse yields no entry, or no item is eligible, start-all leaves
    the item list and the run flag as they were and reports a message.  The
    message tells the case: the first of the four checks, in this order,
    that fails decides it, and the four kinds of message stand for four
    different reasons.  With a credential set and an empty mapping text, any
    number of starts in a row leaves the items as they were and reports the
    same missing-mapping message. *)
Theorem start_all_refusals :
  forall (s : AppState),
    (truthy (apiKey s) = false
     \/ trim (pastedCustomMappings s) = []
     \/ fst (parseCustomMappings (pastedCustomMappings s)) = []
     \/ (forall img, In img (processedImages s) -> isEligible img = false) ->
     processedImages (handleStartAllProcessing s) = processedImages s
     /\ startProcessingFlag (handleStartAllProcessing s) = startProcessingFlag s
     /\ exists msg reason,
          startAttemptErrorMessage (handleStartAllProcessing s) = Some msg
          /\ refusalOfMessage msg = Some reason)
    /\ (truthy (apiKey s) = false ->
        exists msg,
          startAttemptErrorMessage (handleStartAllProcessing s) = Some msg
          /\ refusalOfMessage msg = Some CredentialAbsent)
    /\ (truthy (apiKey s) = true ->
        trim (pastedCustomMappings s) = [] ->
        exists msg,
          startAttemptErrorMessage (handleStartAllProcessing s) = Some msg
          /\ refusalOfMessage msg = Some MappingTextEmpty)
    /\ (truthy (apiKey s) = true ->
        trim (pastedCustomMappings s) <> [] ->
        fst (parseCustomMappings (pastedCustomMappings s)) = [] ->
        exists msg,
          startAttemptErrorMessage (handleStartAllProcessing s) = Some msg
          /\ refusalOfMessage msg = Some NoMappingEntries)
    /\ (truthy (apiKey s) = true ->
        trim (pastedCustomMappings s) <> [] ->
        fst (parseCustomMappings (pastedCustomMappings s)) <> [] ->
        (forall img, In img (processedImages s) -> isEligible img = false) ->
        exists msg,
          startAttemptErrorMessage (handleStartAllProcessing s) = Some msg
          /\ refusalOfMessage msg = Some NoEligibleItems)
    /\ (truthy (apiKey s) = true ->
        trim (pastedCustomMappings s) = [] ->
        forall n,
          processedImages (startAllTimes (S n) s) = processedImages s
          /\ startProcessingFlag (startAllTimes (S n) s) = startProcessingFlag s
          /\ startAttemptErrorMessage (startAllTimes (S n) s)
             = Some msgMappingEmpty).
Proof.
  intros s.
  pose proof (handleStartAllProcessing_outcome s) as O. cbv zeta in O.
  assert (C1 : truthy (apiKey s) = false ->
               exists msg,
                 startAttemptErrorMessage (handleStartAllProcessing s) = Some msg
                 /\ refusalOfMessage msg = Some CredentialAbsent).
  { intros K. rewrite K in O. cbn [negb] in O. destruct O as (_ & _ & Em).
    exists msgKeyMissing. split; [exact Em | reflexivity]. }
  assert (C2 : truthy (apiKey s) = true ->
               trim (pastedCustomMappings s) = [] ->
               exists msg,
                 startAttemptErrorMessage (handleStartAllProcessing s) = Some msg
                 /\ refusalOfMessage msg = Some MappingTextEmpty).
  { intros K T. rewrite K, T in O. cbn [negb nonEmpty] in O.
    destruct O as (_ & _ & Em).
    exists msgMappingEmpty. split; [exact Em | reflexivity]. }
  assert (C3 : truthy (apiKey s) = true ->
               trim (pastedCustomMappings s) <> [] ->
               fst (parseCustomMappings (pastedCustomMappings s)) = [] ->
               exists msg,
                 startAttemptErrorMessage (handleStartAllProcessing s) = Some msg
                 /\ refusalOfMessage msg = Some NoMappingEntries).
  { intros K T L. apply nonEmpty_true in T. rewrite K, T, L in O.
    cbn [negb length Nat.eqb] in O. destruct O as (_ & _ & sp & Em).
    exists (msgNoEntriesBase ++ sp). split; [exact Em | reflexivity]. }
  assert (C4 : truthy (apiKey s) = true ->
               trim (pastedCustomMappings s) <> [] ->
               fst (parseCustomMappings (pastedCustomMappings s)) <> [] ->
               (forall img, In img (processedImages s) -> isEligible img = false) ->
               exists msg,
                 startAttemptErrorMessage (handleStartAllProcessing s) = Some msg
                 /\ refusalOfMessage msg = Some NoEligibleItems).
  { intros K T L G. apply nonEmpty_true in T. rewrite K, T in O.
    cbn [negb] in O.
    destruct (length (fst (parseCustomMappings (pastedCustomMappings s))) =? 0) eqn:Z;
      [apply length_zero_iff in Z; contradiction|].
    rewrite (filter_none _ _ G) in O. cbn [length Nat.eqb] in O.
    destruct O as (_ & _ & Em). eexists. split; [exact Em|].
    destruct (length (processedImages s) =? 0); reflexivity. }
  split; [|split; [exact C1 | split; [exact C2 | split; [exact C3 | split; [exact C4|]]]]].
  - intros H. destruct (refused_start_keeps_items s H) as (Ei & Ef & _).
    split; [exact Ei|]. split; [exact Ef|].
    destruct (truthy (apiKey s)) eqn:K;
      [|destruct (C1 eq_refl) as (m & Em & Er); eauto].
    destruct (trim (pastedCustomMappings s)) as [|c t] eqn:T;
      [destruct (C2 eq_refl eq_refl) as (m & Em & Er); eauto|].
    destruct (fst (parseCustomMappings (pastedCustomMappings s))) as [|e l] eqn:L.
    { destruct C3 as (m & Em & Er); eauto; discriminate. }
    destruct H as [H | [H | [H | H]]]; try discriminate.
    destruct C4 as (m & Em & Er); eauto; discriminate.
  - apply empty_table_start_is_stable.
Qed.

Lemma start_all_refusals_witness :
  truthy (apiKey (stateAfter sampleNoTable)) = true
  /\ trim (pastedCustomMappings (stateAfter sampleNoTable)) = []
  /\ processedImages (startAllTimes 3 (stateAfter sampleNoTable))
     = processedImages (stateAfter sampleNoTable)
  /\ startAttemptErrorMessage (startAllTimes 3 (stateAfter sampleNoTable))
     = Some msgMappingEmpty.
Proof.
  assert (K : truthy (apiKey (stateAfter sampleNoTable)) = true)
    by (vm_compute; reflexivity).
  assert (T : trim (pastedCustomMappings (stateAfter sampleNoTable)) = [])
    by (vm_compute; reflexivity).
  split; [exact K|]. split; [exact T|].
  destruct (proj2 (proj2 (proj2 (proj2 (proj2
              (start_all_refusals (stateAfter sampleNoTable)))))) K T 2)
    as (Ei & _ & Em).
  auto.
Defined.

(** ** Start all: success *)

Lemma isEligible_statuses (img : ProcessedImage) :
  isEligible img = true
  <-> status img = queued \/ status img = error
      \/ status img = api_key_missing \/ status img = mapping_parse_error.
Proof.
  unfold isEligible. destruct (status img); split; intros H;
    try discriminate; try reflexivity; auto;
    destruct H as [H | [H | [H | H]]]; discriminate.
Qed.

(** C9.  In a reachable state in which the credential is set, the mapping
    text is not empty, its parse yields an entry and some item is eligible,
    start-all raises the run flag and replaces each item whose status is
    queued, error, api_key_missing or mapping_parse_error by the same item
    with status queued and with its OCR text, suggested name, provider and
    error message cleared; every other item, a completed one in
    particular, stays in the list as it was. *)
Theorem start_all_requeues_exactly_the_eligible :
  forall (s : AppState),
    reachable s ->
    truthy (apiKey s) = true ->
    trim (pastedCustomMappings s) <> [] ->
    fst (parseCustomMappings (pastedCustomMappings s)) <> [] ->
    (exists img, In img (processedImages s) /\ isEligible img = true) ->
    startProcessingFlag (handleStartAllProcessing s) = true
    /\ processedImages (handleStartAllProcessing s)
       = map (fun img => if isEligible img then requeue img else img)
             (processedImages s)
    /\ (forall img,
          isEligible img = true
          <-> status img = queued \/ status img = error
              \/ status img = api_key_missing
              \/ status img = mapping_parse_error)
    /\ (forall img,
          status (requeue img) = queued
          /\ ocrText (requeue img) = None
          /\ suggestedName (requeue img) = None
          /\ gameProvider (requeue img) = None
          /\ errorMessage (requeue img) = None
          /\ id (requeue img) = id img
          /\ file (requeue img) = file img
          /\ originalName (requeue img) = originalName img
          /\ previewUrl (requeue img) = previewUrl img
          /\ imageType (requeue img) = imageType img
          /\ width (requeue img) = width img
          /\ height (requeue img) = height img)
    /\ (forall img, status img = completed -> isEligible img = false).
Proof.
  intros s R K T L (e & He & Ee).
  destruct (reachable_invariant R) as (_ & Hid & _).
  pose proof (handleStartAllProcessing_outcome s) as O. cbv zeta in O.
  apply nonEmpty_true in T. rewrite K, T in O. cbn [negb] in O.
  destruct (length (fst (parseCustomMappings (pastedCustomMappings s))) =? 0) eqn:Z;
    [apply length_zero_iff in Z; contradiction|].
  destruct (length (filter isEligible (processedImages s)) =? 0) eqn:G.
  { apply length_zero_iff in G.
    assert (In e (filter isEligible (processedImages s)))
      by (apply filter_In; auto).
    rewrite G in H. contradiction. }
  destruct O as (Ei & Ef & _).
  split; [exact Ef|].
  split; [rewrite Ei; apply requeueEligible_by_status, Hid|].
  split; [apply isEligible_statuses|].
  split.
  - intros img. repeat split.
  - intros img E. unfold isEligible. rewrite E. reflexivity.
Qed.

Lemma sampleMixed_reachable : reachable (stateAfter sampleMixed).
Proof. exists sampleMixed. vm_compute. reflexivity. Qed.

Lemma start_all_requeues_exactly_the_eligible_witness :
  reachable (stateAfter sampleMixed)
  /\ map status (processedImages (stateAfter sampleMixed)) = [completed; error]
  /\ startProcessingFlag (stateAfter sampleMixed) = false
  /\ startProcessingFlag (handleStartAllProcessing (stateAfter sampleMixed)) = true
  /\ processedImages (handleStartAllProcessing (stateAfter sampleMixed))
     = map (fun img => if isEligible img then requeue img else img)
           (processedImages (stateAfter sampleMixed)).
Proof.
  split; [exact sampleMixed_reachable|].
  split; [vm_compute; reflexivity|].
  split; [vm_compute; reflexivity|].
  assert (K : truthy (apiKey (stateAfter sampleMixed)) = true)
    by (vm_compute; reflexivity).
  assert (T : trim (pastedCustomMappings (stateAfter sampleMixed)) <> [])
    by (vm_compute; discriminate).
  assert (L : fst (parseCustomMappings (pastedCustomMappings (stateAfter sampleMixed)))
              <> []) by (vm_compute; discriminate).
  assert (E : exists img, In img (processedImages (stateAfter sampleMixed))
                          /\ isEligible img = true).
  { exists (nth 1 (processedImages (stateAfter sampleMixed)) sampleCompletedItem).
    split; [vm_compute; right; left; reflexivity | vm_compute; reflexivity]. }
  destruct (start_all_requeues_exactly_the_eligible sampleMixed_reachable K T L E)
    as (Ef & Ei & _).
  split; [exact Ef | exact Ei].
Defined.

(** ** Further facts about the program *)

(** After the replacement of the unsafe characters no whitespace is left,
    so the whitespace step of the sanitizer finds nothing to collapse: two
    blanks in a row come out as two underscores. *)
Remark whitespace_step_after_replacement (s : jsstr) :
  collapseWhitespace (replaceOutsideSafeSet s) = replaceOutsideSafeSet s.
Proof.
  assert (Safe : forall c, isSafeChar c = true -> isSpace c = false).
  { intros c. unfold isSafeChar, isAlnum, isDigit, isUpper, isLower, isSpace,
      inRange, cu. cbn [N_of_ascii N_of_digits N.add N.mul].
    intros H. repeat rewrite orb_true_iff in H. repeat rewrite andb_true_iff in H.
    repeat rewrite N.leb_le in H. repeat rewrite N.eqb_eq in H.
    repeat (apply orb_false_iff; split);
      try (apply N.eqb_neq; lia);
      try (apply andb_false_iff;
           destruct (N.leb_spec 9 c); [right; apply N.leb_gt; lia | left; reflexivity]);
      try (apply andb_false_iff;
           destruct (N.leb_spec 8192 c); [right; apply N.leb_gt; lia | left; reflexivity]). }
  induction s as [|c r IH]; [reflexivity|].
  cbn [replaceOutsideSafeSet map collapseWhitespace] in *.
  assert (E : isSpace (if isSafeChar c then c else cu "_") = false).
  { destruct (isSafeChar c) eqn:S; [apply Safe, S | reflexivity]. }
  rewrite E. f_equal. exact IH.
Qed.

Example two_blanks_give_two_underscores :
  sanitizeFilename (js "My  Game") defaultFallbackName defaultMaxLength
  = js "My__Game".
Proof. vm_compute. reflexivity. Qed.

(** With a table that lacks the required headers, the message of a refused
    start quotes the parser's message of the previous start: the first
    refusal and the second differ. *)
Example headerless_table_message_changes :
  let s := stateAfter [TypeApiKey (js "key"); ClickSetKey; PasteMappings (js "foo")] in
  startAttemptErrorMessage (startAllTimes 1 s)
  = Some (msgNoEntriesBase ++ msgNoEntriesGeneric)
  /\ startAttemptErrorMessage (startAllTimes 2 s)
     = Some (msgNoEntriesBase
               ++ js "Error: Required columns missing. Ensure 'Name' and 'IMS Game Code' headers are present. Data should be tab-separated.")
  /\ processedImages (startAllTimes 2 s) = processedImages s.
Proof. vm_compute. repeat split. Qed.

(** The effect clears the run flag only when the item list is not empty.
    No run reaches a state with the flag set and no item, so the guard
    never shows in the scheduler's behaviour; on such a state the effect
    would change nothing. *)
Remark effect_keeps_flag_without_items :
  processingEffect (setStartProcessingFlag true initialState)
  = setStartProcessingFlag true initialState.
Proof. reflexivity. Qed.

Remark run_flag_implies_items (s : AppState) :
  reachable s -> startProcessingFlag s = true -> processedImages s <> [].
Proof.
  intros R. destruct (reachable_invariant R) as (_ & _ & _ & _ & H). exact H.
Qed.

(** ** Worked examples *)

Example normalize_kings_mystery :
  normalizeText (Some (js "King's Mystery!")) = js "kingsmystery"
  /\ normalizeText None = [].
Proof. split; vm_compute; reflexivity. Qed.

Example sanitize_deluxe_edition :
  sanitizeFilename (js "My Game: Deluxe Edition!!") defaultFallbackName
                   defaultMaxLength
  = js "My_Game__Deluxe_Edition".
Proof. vm_compute. reflexivity. Qed.

Example sanitize_only_separators :
  sanitizeFilename (js "__.webp") defaultFallbackName defaultMaxLength
  = js "renamed_image".
Proof. vm_compute. reflexivity. Qed.

(** Mapping [Game], [GameV2] and OCR text [Game Deluxe]: the OCR text
    contains only the first name, which scores 20 + 4; the second scores
    0. *)
Example match_game_deluxe :
  let game := mkEntry (js "Game") (js "c1") None in
  let gameV2 := mkEntry (js "GameV2") (js "c2") None in
  let o := normalizeText (Some (js "Game Deluxe")) in
  let f := normalizeText (Some (filenameGamePart (js "tile.webp"))) in
  entryScore o f game = 24
  /\ entryScore o f gameV2 = 0
  /\ findMatchingGame (Some (js "Game Deluxe")) (js "tile.webp") [game; gameV2]
     = Some game.
Proof. vm_compute. repeat split. Qed.

(** Two entries with the same score: the first one in the list is kept. *)
Example match_tie_keeps_first :
  let a := mkEntry (js "Kings") (js "c1") None in
  let b := mkEntry (js "KINGS!") (js "c2") None in
  findMatchingGame (Some (js "kings")) (js "tile.webp") [a; b] = Some a
  /\ findMatchingGame (Some (js "kings")) (js "tile.webp") [b; a] = Some b.
Proof. vm_compute. repeat split. Qed.

(** A filename whose only ['.'] is its first character keeps its whole
    text as the core; otherwise the extension and the dimension prefix go. *)
Example core_of_dotfile :
  filenameGamePart (js ".webp") = js ".webp"
  /\ filenameGamePart (js "540x540-kings-mystery.webp") = js "kings-mystery".
Proof. split; vm_compute; reflexivity. Qed.

(* ================================================================== *)
(** * Part III: further properties of the program *)
(* ================================================================== *)

(** ** Text normalizer *)

Ltac chars_to_arith :=
  unfold isSafeChar, isSeparator, isAlnum, isDigit, isUpper, isLower, inRange, cu in *;
  cbn [N_of_ascii N_of_digits N.add N.mul] in *;
  repeat match goal with
         | H : _ || _ = true |- _ => apply orb_true_iff in H; destruct H as [H | H]
         | H : _ && _ = true |- _ => apply andb_true_iff in H; destruct H as [? H]
         | H : _ || _ = false |- _ => apply orb_false_iff in H; destruct H as [? H]
         | H : N.leb _ _ = true |- _ => apply N.leb_le in H
         | H : N.leb _ _ = false |- _ => apply N.leb_gt in H
         | H : N.eqb _ _ = true |- _ => apply N.eqb_eq in H
         | H : N.eqb _ _ = false |- _ => apply N.eqb_neq in H
         end.

Lemma range_false (lo hi c : N) :
  (c < lo \/ hi < c)%N -> (N.leb lo c && N.leb c hi) = false.
Proof.
  intros [H | H].
  - apply andb_false_iff. left. apply N.leb_gt. exact H.
  - apply andb_false_iff. right. apply N.leb_gt. exact H.
Qed.

Lemma range_true (lo hi c : N) :
  (lo <= c /\ c <= hi)%N -> (N.leb lo c && N.leb c hi) = true.
Proof.
  intros [H1 H2]. apply andb_true_iff. split; apply N.leb_le; assumption.
Qed.

Lemma lowerUnit_never_upper (c x : codeUnit) :
  In x (lowerUnit c) -> isUpper x = false.
Proof.
  unfold lowerUnit. destruct (isUpper c) eqn:U.
  - intros [<- | []]. unfold isUpper, inRange in *.
    apply andb_true_iff in U. destruct U as [U1 U2].
    apply N.leb_le in U1. apply N.leb_le in U2.
    apply range_false. right. lia.
  - destruct (N.eqb c 304); [|destruct (N.eqb c 8490)].
    + intros [<- | [<- | []]]; reflexivity.
    + intros [<- | []]; reflexivity.
    + intros [<- | []]. exact U.
Qed.

Lemma lowerUnit_fixes_lower_and_digits (c : codeUnit) :
  isLowerOrDigit c = true -> lowerUnit c = [c].
Proof.
  intros H. unfold lowerUnit, isLowerOrDigit in *.
  assert (B : (48 <= c <= 122)%N /\ ~ (65 <= c <= 90)%N).
  { chars_to_arith; lia. }
  destruct B as [B1 B2].
  replace (isUpper c) with false.
  2:{ symmetry. unfold isUpper, inRange. apply range_false. lia. }
  replace (N.eqb c 304) with false by (symmetry; apply N.eqb_neq; lia).
  replace (N.eqb c 8490) with false by (symmetry; apply N.eqb_neq; lia).
  reflexivity.
Qed.

Lemma alnum_not_upper (c : codeUnit) :
  isAlnum c = true -> isUpper c = false -> isLowerOrDigit c = true.
Proof.
  unfold isAlnum, isLowerOrDigit. intros H U. rewrite U in H.
  rewrite orb_false_r in H. rewrite orb_comm. exact H.
Qed.

Lemma lowerOrDigit_alnum (c : codeUnit) :
  isLowerOrDigit c = true -> isAlnum c = true.
Proof.
  unfold isAlnum, isLowerOrDigit. intros H.
  apply orb_true_iff in H. destruct H as [H | H]; rewrite H;
    rewrite ?orb_true_r; reflexivity.
Qed.

Lemma normalizeText_filter (t : jsstr) :
  normalizeText (Some t) = filter isAlnum (toLowerCase t).
Proof. destruct t; reflexivity. Qed.

Lemma normalizeText_app (a b : jsstr) :
  normalizeText (Some (a ++ b)) = normalizeText (Some a) ++ normalizeText (Some b).
Proof.
  rewrite !normalizeText_filter. unfold toLowerCase.
  rewrite flat_map_app, filter_app. reflexivity.
Qed.

Lemma normalizeText_alphabet (text : option jsstr) :
  Forall (fun c => isLowerOrDigit c = true) (normalizeText text).
Proof.
  destruct text as [t|]; [|constructor].
  rewrite normalizeText_filter. apply Forall_forall. intros x Hx.
  apply filter_In in Hx. destruct Hx as [Hx A].
  unfold toLowerCase in Hx. apply in_flat_map in Hx.
  destruct Hx as (c & _ & Hc).
  apply alnum_not_upper; [exact A | apply (lowerUnit_never_upper c x Hc)].
Qed.

Lemma normalized_is_fixed (s : jsstr) :
  Forall (fun c => isLowerOrDigit c = true) s -> normalizeText (Some s) = s.
Proof.
  rewrite normalizeText_filter.
  induction 1 as [|c r Hc _ IH]; [reflexivity|].
  unfold toLowerCase in *. cbn [flat_map].
  rewrite (lowerUnit_fixes_lower_and_digits c Hc). cbn [app filter].
  rewrite (lowerOrDigit_alnum c Hc), IH. reflexivity.
Qed.

(** X1.  The normalizer yields only small ASCII letters and digits, and
    normalizing a normalized text changes nothing. *)
Theorem normalizeText_canonical :
  forall (text : option jsstr),
    Forall (fun c => isLower c || isDigit c = true) (normalizeText text)
    /\ normalizeText (Some (normalizeText text)) = normalizeText text.
Proof.
  intros text. split.
  - apply normalizeText_alphabet.
  - apply normalized_is_fixed, normalizeText_alphabet.
Qed.

(** ** Sanitizer *)

Lemma dropWhile_head (p : codeUnit -> bool) (s : jsstr) c r :
  dropWhile p s = c :: r -> p c = false.
Proof.
  induction s as [|x s IH]; simpl; [discriminate|].
  destruct (p x) eqn:E; [exact IH|].
  intros H. inversion H; subst. exact E.
Qed.

Lemma dropWhile_Forall (P : codeUnit -> Prop) (p : codeUnit -> bool) (s : jsstr) :
  Forall P s -> Forall P (dropWhile p s).
Proof.
  induction 1 as [|x s Hx Hs IH]; simpl; [constructor|].
  destruct (p x); [exact IH | constructor; assumption].
Qed.

Lemma dropWhile_length (p : codeUnit -> bool) (s : jsstr) :
  length (dropWhile p s) <= length s.
Proof.
  induction s as [|x s IH]; simpl; [lia|].
  destruct (p x); simpl; lia.
Qed.

Lemma dropWhile_idempotent (p : codeUnit -> bool) (s : jsstr) :
  dropWhile p (dropWhile p s) = dropWhile p s.
Proof.
  induction s as [|x s IH]; simpl; [reflexivity|].
  destruct (p x) eqn:E; [exact IH|]. simpl. rewrite E. reflexivity.
Qed.

Section TrimBothEnds.
(** Dropping the code units of a class [p] at both ends, as [trim] and the
    sanitizer's last step do. *)
Variable p : codeUnit -> bool.

Lemma trimmed_first (s : jsstr) c r :
  rev (dropWhile p (rev (dropWhile p s))) = c :: r -> p c = false.
Proof.
  rewrite <- trimming_order. apply dropWhile_head.
Qed.

Lemma trimmed_last (s : jsstr) r c :
  rev (dropWhile p (rev (dropWhile p s))) = r ++ [c] -> p c = false.
Proof.
  intros H. apply (f_equal (@rev codeUnit)) in H.
  rewrite rev_involutive, rev_app_distr in H. simpl in H.
  apply dropWhile_head in H. exact H.
Qed.

Lemma trimmed_Forall (P : codeUnit -> Prop) (s : jsstr) :
  Forall P s -> Forall P (rev (dropWhile p (rev (dropWhile p s)))).
Proof.
  intros H. apply Forall_rev, dropWhile_Forall, Forall_rev, dropWhile_Forall, H.
Qed.

Lemma trimmed_length (s : jsstr) :
  length (rev (dropWhile p (rev (dropWhile p s)))) <= length s.
Proof.
  rewrite length_rev.
  pose proof (dropWhile_length p (rev (dropWhile p s))) as H1.
  rewrite length_rev in H1.
  pose proof (dropWhile_length p s). lia.
Qed.

Lemma trimmed_again (s : jsstr) :
  let t := rev (dropWhile p (rev (dropWhile p s))) in
  rev (dropWhile p (rev (dropWhile p t))) = t.
Proof.
  intros t.
  assert (E : dropWhile p t = t).
  { unfold t. rewrite <- trimming_order. apply dropWhile_idempotent. }
  rewrite E. unfold t.
  rewrite rev_involutive, dropWhile_idempotent. reflexivity.
Qed.
End TrimBothEnds.

Lemma safe_not_separator_is_alnum (c : codeUnit) :
  isSafeChar c = true -> isSeparator c = false -> isAlnum c = true.
Proof.
  unfold isSafeChar, isSeparator. intros H S.
  destruct (isAlnum c); [reflexivity|]. cbn [orb] in H. congruence.
Qed.

Lemma replaceOutsideSafeSet_safe (s : jsstr) :
  Forall (fun c => isSafeChar c = true) (replaceOutsideSafeSet s).
Proof.
  unfold replaceOutsideSafeSet. apply Forall_forall. intros x Hx.
  apply in_map_iff in Hx. destruct Hx as (c & <- & _).
  destruct (isSafeChar c) eqn:E; [exact E | reflexivity].
Qed.

Lemma firstn_Forall (P : codeUnit -> Prop) (n : nat) (s : jsstr) :
  Forall P s -> Forall P (firstn n s).
Proof.
  intros H. revert n. induction H as [|x s Hx Hs IH]; intros [|n]; simpl;
    constructor; auto.
Qed.

Lemma sanitizeSteps_safe (name : jsstr) (maxLength : Z) :
  Forall (fun c => isSafeChar c = true) (sanitizeSteps name maxLength).
Proof.
  unfold sanitizeSteps, trimSeparators. apply trimmed_Forall.
  unfold truncateTo. apply firstn_Forall.
  rewrite whitespace_step_after_replacement. apply replaceOutsideSafeSet_safe.
Qed.

Lemma sanitizeSteps_length (name : jsstr) (maxLength : Z) :
  (Z.of_nat (length (sanitizeSteps name maxLength)) <= Z.max 0 maxLength)%Z.
Proof.
  unfold sanitizeSteps, trimSeparators.
  pose proof (trimmed_length isSeparator
                (truncateTo maxLength
                   (collapseWhitespace
                      (replaceOutsideSafeSet (dropImageSuffix name))))) as H.
  pose proof (firstn_le_length (Z.to_nat maxLength)
                (collapseWhitespace
                   (replaceOutsideSafeSet (dropImageSuffix name)))) as H1.
  unfold truncateTo in *.
  rewrite length_firstn in H. lia.
Qed.

(** X2.  The sanitizer returns either the fallback as it is, or a name made
    of the characters [[A-Za-z0-9_.-]] only, at most [maxLength] long, that
    begins and ends with a letter or a digit.  With a non-empty fallback the
    result is never empty. *)
Theorem sanitizeFilename_result :
  forall (name fallbackName : jsstr) (maxLength : Z),
    let r := sanitizeFilename name fallbackName maxLength in
    (r = fallbackName
     \/ (r <> []
         /\ Forall (fun c => isSafeChar c = true) r
         /\ (Z.of_nat (length r) <= Z.max 0 maxLength)%Z
         /\ (forall c rest, r = c :: rest -> isAlnum c = true)
         /\ (forall pre c, r = pre ++ [c] -> isAlnum c = true)))
    /\ (fallbackName <> [] -> r <> []).
Proof.
  intros name fallbackName maxLength. cbv zeta.
  rewrite sanitizeFilename_by_steps. unfold orElse.
  destruct (nonEmpty (sanitizeSteps name maxLength)) eqn:E.
  - apply nonEmpty_true in E. split; [|intros _; exact E].
    right. pose proof (sanitizeSteps_safe name maxLength) as S.
    split; [exact E|]. split; [exact S|].
    split; [apply sanitizeSteps_length|].
    rewrite Forall_forall in S. split.
    + intros c rest H. apply safe_not_separator_is_alnum.
      * apply S. rewrite H. left; reflexivity.
      * unfold sanitizeSteps, trimSeparators in H.
        eapply trimmed_first; exact H.
    + intros pre c H. apply safe_not_separator_is_alnum.
      * apply S. rewrite H. apply in_or_app. right. left; reflexivity.
      * unfold sanitizeSteps, trimSeparators in H.
        eapply trimmed_last; exact H.
  - split; [left; reflexivity | auto].
Qed.

(** ** Mapping table parser *)

Lemma trim_isTrimmed (s : jsstr) : isTrimmed (trim s).
Proof.
  unfold isTrimmed, trim. split.
  - intros c r H. eapply trimmed_first; exact H.
  - intros r c H. eapply trimmed_last; exact H.
Qed.

Lemma trim_idempotent (s : jsstr) : trim (trim s) = trim s.
Proof. unfold trim. apply (trimmed_again isSpace s). Qed.

Lemma nil_isTrimmed : isTrimmed [].
Proof.
  split.
  - intros c r H. discriminate.
  - intros r c H. destruct r; discriminate.
Qed.

Lemma cell_isTrimmed (cells : list jsstr) (i : nat) :
  isTrimmed (nth i (map trim cells) []).
Proof.
  destruct (nth_in_or_default i (map trim cells) []) as [H | H].
  - apply in_map_iff in H. destruct H as (x & <- & _). apply trim_isTrimmed.
  - rewrite H. apply nil_isTrimmed.
Qed.

Lemma parseRow_wellFormed gi ci pidx line e :
  parseRow gi ci pidx line = Some e -> entryWellFormed e.
Proof.
  unfold parseRow.
  destruct (Nat.max gi ci <? length (map trim (split line tab))); [|discriminate].
  destruct (nonEmpty (nth gi (map trim (split line tab)) [])) eqn:G;
    [|discriminate].
  destruct (nonEmpty (nth ci (map trim (split line tab)) [])) eqn:C;
    [|discriminate].
  cbn [andb]. intros H. inversion H; subst e. clear H.
  unfold entryWellFormed. cbn [gameName imsGameCode provider].
  split; [apply nonEmpty_true, G|]. split; [apply cell_isTrimmed|].
  split; [apply nonEmpty_true, C|]. split; [apply cell_isTrimmed|].
  destruct pidx as [pi|]; [|exact I].
  destruct (pi <? length (map trim (split line tab))); [|exact I].
  unfold orUndefined.
  destruct (truthy (Some (nth pi (map trim (split line tab)) []))) eqn:T;
    [|exact I].
  rewrite truthy_Some in T.
  split; [apply nonEmpty_true, T | apply cell_isTrimmed].
Qed.

Lemma parsedRows_length gi ci pidx (rows : list jsstr) :
  length (flat_map (fun l => optToList (parseRow gi ci pidx l)) rows)
  <= length rows.
Proof.
  induction rows as [|l rows IH]; simpl; [lia|].
  rewrite length_app. destruct (parseRow gi ci pidx l); simpl; lia.
Qed.

(** X3.  Every entry the parser returns has a non-empty game name and a
    non-empty code, both without whitespace at their ends, and a provider
    that is either absent or non-empty and trimmed; there are never more
    entries than lines after the header. *)
Theorem parseCustomMappings_entries :
  forall (mappingsString : jsstr),
    Forall entryWellFormed (fst (parseCustomMappings mappingsString))
    /\ length (fst (parseCustomMappings mappingsString))
       <= length (split (trim mappingsString) lineFeed) - 1.
Proof.
  intros text. unfold parseCustomMappings.
  destruct (negb (nonEmpty (trim text))); [split; [constructor | simpl; lia]|].
  destruct (split (trim text) lineFeed) as [|header rows] eqn:S;
    [split; [constructor | simpl; lia]|].
  destruct (indexOf _ (toLowerCase MAPPING_COL_GAME_NAME)) as [gi|];
    [|split; [constructor | simpl; lia]].
  destruct (indexOf _ (toLowerCase MAPPING_COL_IMS_CODE)) as [ci|];
    [|split; [constructor | simpl; lia]].
  set (pidx := indexOf _ (toLowerCase MAPPING_COL_PROVIDER)).
  set (entries := flat_map (fun l => optToList (parseRow gi ci pidx l)) rows).
  assert (W : Forall entryWellFormed entries).
  { apply Forall_forall. intros e He. unfold entries in He.
    apply in_flat_map in He. destruct He as (l & _ & Hl).
    destruct (parseRow gi ci pidx l) as [e'|] eqn:P; [|contradiction].
    destruct Hl as [<- | []]. apply (parseRow_wellFormed _ _ _ _ P). }
  assert (L : length entries <= length (header :: rows) - 1).
  { pose proof (parsedRows_length gi ci pidx rows). unfold entries. simpl. lia. }
  destruct ((length entries =? 0) && (1 <? length (header :: rows)));
    [|destruct (0 <? length entries)]; cbn [fst]; auto.
Qed.

Lemma splitAcc_never_empty (sep : codeUnit) (s cur : jsstr) :
  splitAcc sep cur s <> [].
Proof.
  revert cur. induction s as [|c r IH]; intros cur; simpl; [discriminate|].
  destruct (N.eqb c sep); [discriminate | apply IH].
Qed.

Lemma split_never_empty (s : jsstr) (sep : codeUnit) : split s sep <> [].
Proof. apply splitAcc_never_empty. Qed.

Lemma showNat_head_differs (n : nat) (m : jsstr) c r :
  m = c :: r -> c <> 83%N -> m <> msgParsed n.
Proof.
  intros -> Hc H. unfold msgParsed in H.
  change (js "Successfully parsed ") with (83%N :: js "uccessfully parsed ") in H.
  cbn [app] in H. inversion H. contradiction.
Qed.

(** X4.  The parser's message tells its outcome: it announces the number of
    parsed entries exactly when there is at least one; a blank text gives no
    entry and the "empty" message; a non-blank text whose header lacks the
    name or the code column gives no entry and a message that starts with
    [Error:], and no other outcome has such a message. *)
Theorem parseCustomMappings_message :
  forall (mappingsString : jsstr),
    let entries := fst (parseCustomMappings mappingsString) in
    let message := snd (parseCustomMappings mappingsString) in
    (entries <> [] <-> message = msgParsed (length entries))
    /\ (trim mappingsString = [] ->
        entries = []
        /\ message = js "Mapping data is empty. Paste your tab-separated table.")
    /\ (trim mappingsString <> [] ->
        requiredColumnsPresent mappingsString = false ->
        entries = [] /\ startsWith (js "Error:") message = true)
    /\ (startsWith (js "Error:") message = true ->
        trim mappingsString <> []
        /\ requiredColumnsPresent mappingsString = false).
Proof.
  intros text. cbv zeta.
  unfold requiredColumnsPresent, headerCells, parseCustomMappings.
  change (toLowerCase MAPPING_COL_GAME_NAME) with (js "name").
  change (toLowerCase MAPPING_COL_IMS_CODE) with (js "ims game code").
  destruct (trim text) as [|t0 tr] eqn:T; cbn [nonEmpty negb fst snd].
  { repeat split; try congruence; try discriminate.
    all: try (intros H; exfalso; revert H;
           eapply showNat_head_differs; [reflexivity | discriminate]). }
  destruct (split (t0 :: tr) lineFeed) as [|header rows] eqn:S; cbn [fst snd].
  { exfalso. apply (split_never_empty _ _ S). }
  destruct (indexOf (map trim (split (toLowerCase header) tab)) (js "name"))
    as [gi|]; cbn [fst snd].
  2:{ repeat split; try congruence; try discriminate.
      all: try (intros H; exfalso; revert H;
           eapply showNat_head_differs; [reflexivity | discriminate]). }
  destruct (indexOf (map trim (split (toLowerCase header) tab)) (js "ims game code"))
    as [ci|]; cbn [fst snd].
  2:{ repeat split; try congruence; try discriminate.
      all: try (intros H; exfalso; revert H;
           eapply showNat_head_differs; [reflexivity | discriminate]). }
  set (entries := flat_map _ rows).
  destruct (length entries =? 0) eqn:Z; cbn [andb].
  - apply length_zero_iff in Z.
    destruct (1 <? length (header :: rows)); cbn [fst snd].
    + rewrite Z. repeat split; try congruence; try discriminate.
      all: try (intros H; exfalso; revert H;
           eapply showNat_head_differs; [reflexivity | discriminate]).
    + rewrite Z. cbn [length Nat.ltb Nat.leb fst snd].
      repeat split; try congruence; try discriminate.
      all: try (intros H; exfalso; revert H;
           eapply showNat_head_differs; [reflexivity | discriminate]).
  - assert (N : entries <> []).
    { intros E. rewrite E in Z. discriminate. }
    assert (P : (0 <? length entries) = true).
    { apply Nat.ltb_lt. destruct entries; [congruence | simpl; lia]. }
    rewrite P. cbn [fst snd].
    repeat split; try congruence; try discriminate; auto.
Qed.

(** ** How events change the item list *)

Lemma ItemUpdate_identity f img : ItemUpdate f -> identityOf (f img) = identityOf img.
Proof.
  intros U. destruct U; try reflexivity.
  unfold requeueAfterKey.
  destruct (status_eqb (status img) api_key_missing); reflexivity.
Qed.

Lemma newImagesFrom_nil_files k i : newImagesFrom k i [] = [].
Proof. reflexivity. Qed.

Lemma rewritten_same (l : list ProcessedImage) : rewrittenInPlace l l.
Proof.
  exists (fun img => img), None, []. split.
  - rewrite map_id, app_nil_r. reflexivity.
  - intros img. left. reflexivity.
Qed.

Lemma rewritten_mapById theId f (l : list ProcessedImage) :
  ItemUpdate f -> rewrittenInPlace l (mapById theId f l).
Proof.
  intros U.
  exists (fun img => if str_eqb (id img) theId then f img else img), None, [].
  split.
  - rewrite app_nil_r. reflexivity.
  - intros img. destruct (str_eqb (id img) theId); [right; eauto | left; reflexivity].
Qed.

Lemma applyEvent_items (e : Event) (s s' : AppState) :
  applyEvent e s = Some s' ->
  (e = ClickClearAll /\ processedImages s' = [])
  \/ rewrittenInPlace (processedImages s) (processedImages s').
Proof.
  destruct e; cbn [applyEvent].
  - intros E; inversion E; subst s'. right. unfold mountWithEnvKey.
    destruct (truthy keyFromEnv); apply rewritten_same.
  - intros E; inversion E; subst s'. right. apply rewritten_same.
  - intros E; inversion E; subst s'. right. apply rewritten_same.
  - intros E; inversion E; subst s'. right. unfold clickSetKey.
    destruct (nonEmpty (trim (apiKeyInput s))); [|apply rewritten_same].
    state_fields. exists requeueAfterKey, None, []. split.
    + rewrite app_nil_r. reflexivity.
    + intros img. right. exists requeueAfterKey. split; [constructor | reflexivity].
  - intros E; inversion E; subst s'. right. apply rewritten_same.
  - destruct (idsAreFresh s (newImagesFrom capturedKey 0 files)); [|discriminate].
    intros E; inversion E; subst s'. right.
    unfold handleFilesSelected. state_fields.
    exists (fun img => img), capturedKey, files. split.
    + rewrite map_id. reflexivity.
    + intros img. left. reflexivity.
  - intros E; inversion E; subst s'. right.
    pose proof (handleStartAllProcessing_outcome s) as O. cbv zeta in O.
    destruct (negb (truthy (apiKey s)));
      [destruct O as (-> & _); apply rewritten_same|].
    destruct (negb (nonEmpty (trim (pastedCustomMappings s))));
      [destruct O as (-> & _); apply rewritten_same|].
    destruct (length (fst (parseCustomMappings (pastedCustomMappings s))) =? 0);
      [destruct O as (-> & _); apply rewritten_same|].
    destruct (length (filter isEligible (processedImages s)) =? 0);
      [destruct O as (-> & _); apply rewritten_same|].
    destruct O as (-> & _). unfold requeueEligible.
    eexists _, None, []. split.
    + rewrite app_nil_r. reflexivity.
    + intros img. cbv beta. destruct (existsb _ _);
        [right; exists requeue; split; [constructor | reflexivity]
        | left; reflexivity].
  - destruct (hasItem theId s); [|discriminate].
    intros E; inversion E; subst s'. right.
    assert (Ei : processedImages (handleRetry theId s)
                 = mapById theId requeue (processedImages s)).
    { unfold handleRetry.
      destruct (negb (startProcessingFlag s) && negb (isCurrentlyProcessingImage s));
        reflexivity. }
    rewrite Ei. apply rewritten_mapById. constructor.
  - destruct (clearAllDisabled s); [discriminate|].
    intros E; inversion E; subst s'. left. split; reflexivity.
  - destruct (isZipping s); [discriminate|].
    intros E; inversion E; subst s'. right. unfold clickDownloadZip. state_fields.
    destruct (length (filter isCompletedWithName (processedImages s)) =? 0);
      apply rewritten_same.
  - destruct (isZipping s); [|discriminate].
    intros E; inversion E; subst s'. right. unfold zipGenerated.
    destruct ok; apply rewritten_same.
  - intros E; inversion E; subst s'. right. unfold processingEffect.
    destruct (isCurrentlyProcessingImage s || negb (startProcessingFlag s)
              || isZipping s); [apply rewritten_same|].
    destruct (find isQueued (processedImages s)) as [img|].
    + unfold processSingleImage_begin. state_fields.
      destruct (negb (truthy (apiKey s)));
        [|destruct (length (manualFilenameMappings s) =? 0)];
        state_fields; apply rewritten_mapById; constructor.
    + destruct (startProcessingFlag s && (0 <? length (processedImages s)));
        apply rewritten_same.
  - unfold ocrResolved. destruct (pendingTask s) as [t|]; [|discriminate].
    destruct (phase t); try discriminate.
    intros E; inversion E; subst s'. right. apply rewritten_mapById. constructor.
  - unfold ocrRejected. destruct (pendingTask s) as [t|]; [|discriminate].
    destruct (phase t); try discriminate.
    intros E; inversion E; subst s'. right. apply rewritten_mapById. constructor.
  - unfold matchSettled. destruct (pendingTask s) as [t|]; [|discriminate].
    destruct (phase t); try discriminate.
    destruct (findMatchingGame _ _ _) as [m|]; intros E; inversion E; subst s';
      right; apply rewritten_mapById; constructor.
  - unfold matchThrew. destruct (pendingTask s) as [t|]; [|discriminate].
    destruct (phase t); try discriminate.
    intros E; inversion E; subst s'. right. apply rewritten_mapById. constructor.
  - unfold taskFinally. destruct (pendingTask s) as [t|]; [|discriminate].
    destruct (phase t); try discriminate.
    intros E; inversion E; subst s'. right. apply rewritten_same.
Qed.

(** X5.  No event reorders or removes single items or touches what was
    fixed at upload: after any event other than "Clear All" (which empties
    the list) every item stands where it stood, with the same id, file,
    original name, preview URL, geometry and class, and new items only come
    at the end. *)
Theorem events_keep_item_identity :
  forall (e : Event) (s s' : AppState),
    applyEvent e s = Some s' ->
    (e = ClickClearAll /\ processedImages s' = [])
    \/ (exists added,
          map identityOf (processedImages s')
          = map identityOf (processedImages s) ++ map identityOf added
          /\ length (processedImages s')
             = length (processedImages s) + length added
          /\ forall i img,
               nth_error (processedImages s) i = Some img ->
               exists img', nth_error (processedImages s') i = Some img'
                            /\ identityOf img' = identityOf img).
Proof.
  intros e s s' A.
  destruct (applyEvent_items e s A) as [H | (g & k & files & Ei & Hg)];
    [left; exact H | right].
  assert (Gid : forall img, identityOf (g img) = identityOf img).
  { intros img. destruct (Hg img) as [-> | (f & U & ->)];
      [reflexivity | apply ItemUpdate_identity, U]. }
  exists (newImagesFrom k 0 files). rewrite Ei. split; [|split].
  - rewrite map_app, map_map. f_equal. apply map_ext. exact Gid.
  - rewrite length_app, length_map. reflexivity.
  - intros i img Hn. exists (g img). split; [|apply Gid].
    rewrite nth_error_app1.
    + rewrite nth_error_map, Hn. reflexivity.
    + rewrite length_map. apply nth_error_Some. congruence.
Qed.

Section ItemProperty.
(** A property of items that every object literal of the program keeps and
    every new item has holds of all items of every reachable state. *)
Variable P : ProcessedImage -> Prop.
Hypothesis P_update : forall f img, ItemUpdate f -> P img -> P (f img).
Hypothesis P_new : forall k index c, P (newImage k index c).

Lemma P_newImagesFrom k files index : Forall P (newImagesFrom k index files).
Proof.
  revert index; induction files as [|c r IH]; intros index; simpl; constructor;
    auto.
Qed.

Lemma applyEvent_item_property (e : Event) (s s' : AppState) :
  Forall P (processedImages s) -> applyEvent e s = Some s' ->
  Forall P (processedImages s').
Proof.
  intros H A.
  destruct (applyEvent_items e s A) as [[_ ->] | (g & k & files & -> & Hg)];
    [constructor|].
  apply Forall_app. split; [|apply P_newImagesFrom].
  apply Forall_forall. intros x Hx. apply in_map_iff in Hx.
  destruct Hx as (img & <- & Hin).
  rewrite Forall_forall in H. specialize (H img Hin).
  destruct (Hg img) as [-> | (f & U & ->)]; [exact H | apply P_update; assumption].
Qed.

Lemma reachable_item_property (s : AppState) :
  reachable s -> Forall P (processedImages s).
Proof.
  intros [events E].
  assert (G : forall evs a b, Forall P (processedImages a) -> run evs a = Some b ->
                              Forall P (processedImages b)).
  { induction evs as [|e rest IH]; intros a b Ha; simpl.
    - intros K; inversion K; subst; exact Ha.
    - destruct (applyEvent e a) as [a1|] eqn:A; [|discriminate].
      apply IH. apply (applyEvent_item_property e a Ha A). }
  apply (G events initialState s); [constructor | exact E].
Qed.
End ItemProperty.

Lemma completedShape_update f img :
  ItemUpdate f -> completedShape img -> completedShape (f img).
Proof.
  intros U H. destruct U; unfold completedShape in *;
    try (cbn [status markApiKeyMissing markMappingError markExtracting markMatching
              markOcrFailed markNotFound markMatchFailed requeue
              withStatus withOcrText withSuggestedName withErrorMessage
              withGameProvider]; discriminate).
  - intros _. exists m. repeat split.
  - unfold requeueAfterKey.
    destruct (status_eqb (status img) api_key_missing); [|exact H].
    cbn [status withStatus withErrorMessage]. discriminate.
Qed.

Lemma completedShape_new k index c : completedShape (newImage k index c).
Proof.
  unfold completedShape, newImage.
  destruct (chosenMetadata c) as [[w h]|]; destruct (truthy k);
    cbn [status]; discriminate.
Qed.

Lemma reachable_completed_ends (s : AppState) :
  reachable s ->
  forall img, In img (processedImages s) -> status img = completed ->
    endsWithDotWebp (optStr (suggestedName img)).
Proof.
  intros R img Hin St.
  pose proof (reachable_item_property completedShape completedShape_update
                completedShape_new R) as H.
  rewrite Forall_forall in H.
  destruct (H img Hin St) as (m & En & _).
  rewrite En. eexists. reflexivity.
Qed.



Lemma events_keep_item_identity_witness :
  applyEvent RunEffect (stateAfter sampleStart) = Some (stateAfter sampleExtracting)
  /\ map identityOf (processedImages (stateAfter sampleExtracting))
     = map identityOf (processedImages (stateAfter sampleStart)).
Proof.
  assert (A : applyEvent RunEffect (stateAfter sampleStart)
              = Some (stateAfter sampleExtracting)) by (vm_compute; reflexivity).
  split; [exact A|].
  destruct (events_keep_item_identity RunEffect (stateAfter sampleStart) A)
    as [[H _] | (added & _ & _ & _)].
  - discriminate H.
  - vm_compute. reflexivity.
Defined.

(** ** Retry, credential and clearing *)

Lemma mapById_other (theId : jsstr) f (l : list ProcessedImage) :
  (forall x, In x l -> id x <> theId) -> mapById theId f l = l.
Proof.
  intros H. unfold mapById. rewrite <- (map_id l) at 2.
  apply map_ext_in. intros x Hx.
  destruct (str_eqb (id x) theId) eqn:E; [|reflexivity].
  apply str_eqb_eq in E. exfalso. exact (H x Hx E).
Qed.

Lemma mapById_unique f pre img post :
  distinctIds (map id (pre ++ img :: post)) = true ->
  mapById (id img) f (pre ++ img :: post) = pre ++ f img :: post.
Proof.
  intros D. apply distinctIds_NoDup in D.
  rewrite map_app in D. cbn [map] in D.
  pose proof (NoDup_remove_2 _ _ _ D) as Hn.
  unfold mapById. rewrite map_app. cbn [map]. rewrite str_eqb_refl.
  f_equal; [|f_equal].
  - apply mapById_other. intros x Hx E.
    apply Hn. apply in_or_app. left. rewrite <- E. apply in_map, Hx.
  - apply mapById_other. intros x Hx E.
    apply Hn. apply in_or_app. right. rewrite <- E. apply in_map, Hx.
Qed.

(** X7.  Retry rewrites exactly one item: in a reachable state the item
    with the given id is replaced, where it stands, by its requeued copy,
    and every other item is left as it was; an id that no item has changes
    no item.  The run flag is raised unless a call is in progress; the busy
    flag and the pending call are not touched. *)
Theorem handleRetry_requeues_one_item :
  forall (s : AppState) (theId : jsstr),
    reachable s ->
    (forall pre img post,
       processedImages s = pre ++ img :: post -> id img = theId ->
       processedImages (handleRetry theId s) = pre ++ requeue img :: post)
    /\ ((forall img, In img (processedImages s) -> id img <> theId) ->
        processedImages (handleRetry theId s) = processedImages s)
    /\ startProcessingFlag (handleRetry theId s)
       = (startProcessingFlag s || negb (isCurrentlyProcessingImage s))
    /\ isCurrentlyProcessingImage (handleRetry theId s) = isCurrentlyProcessingImage s
    /\ pendingTask (handleRetry theId s) = pendingTask s.
Proof.
  intros s theId R.
  destruct (reachable_invariant R) as (_ & Hid & _).
  assert (Ei : processedImages (handleRetry theId s)
               = mapById theId requeue (processedImages s)).
  { unfold handleRetry.
    destruct (negb (startProcessingFlag s) && negb (isCurrentlyProcessingImage s));
      reflexivity. }
  rewrite Ei. split; [|split; [|split; [|split]]].
  - intros pre img post E <-. rewrite E in *. apply mapById_unique, Hid.
  - apply mapById_other.
  - unfold handleRetry.
    destruct (startProcessingFlag s) eqn:F;
      destruct (isCurrentlyProcessingImage s) eqn:B;
      cbn [negb andb orb]; state_fields; rewrite ?F; reflexivity.
  - unfold handleRetry.
    destruct (negb (startProcessingFlag s) && negb (isCurrentlyProcessingImage s));
      reflexivity.
  - unfold handleRetry.
    destruct (negb (startProcessingFlag s) && negb (isCurrentlyProcessingImage s));
      reflexivity.
Qed.

Lemma handleRetry_requeues_one_item_witness :
  reachable (stateAfter sampleMixed)
  /\ map status (processedImages (stateAfter sampleMixed)) = [completed; error]
  /\ map status
       (processedImages
          (handleRetry (idOfUpload 1700000005000 0 (js "broken.webp"))
                       (stateAfter sampleMixed)))
     = [completed; queued]
  /\ startProcessingFlag
       (handleRetry (idOfUpload 1700000005000 0 (js "broken.webp"))
                    (stateAfter sampleMixed))
     = (startProcessingFlag (stateAfter sampleMixed)
        || negb (isCurrentlyProcessingImage (stateAfter sampleMixed))).
Proof.
  split; [exact sampleMixed_reachable|].
  split; [vm_compute; reflexivity|].
  split; [vm_compute; reflexivity|].
  exact (proj1 (proj2 (proj2
           (handleRetry_requeues_one_item
              (idOfUpload 1700000005000 0 (js "broken.webp"))
              sampleMixed_reachable)))).
Defined.

Lemma requeueAfterKey_status (img : ProcessedImage) :
  status (requeueAfterKey img) <> api_key_missing.
Proof.
  unfold requeueAfterKey.
  destruct (status_eqb (status img) api_key_missing) eqn:E.
  - cbn [status withStatus withErrorMessage]. discriminate.
  - intros H. rewrite H in E. discriminate.
Qed.

Lemma requeueAfterKey_other (img : ProcessedImage) :
  status img <> api_key_missing -> requeueAfterKey img = img.
Proof.
  intros H. unfold requeueAfterKey.
  destruct (status_eqb (status img) api_key_missing) eqn:E; [|reflexivity].
  exfalso. apply H. destruct (status img); try discriminate. reflexivity.
Qed.

(** X8.  The "Set Key" button stores the trimmed input as the credential.
    With a non-blank input it leaves no item in api_key_missing: each such
    item becomes queued with its error message cleared and its other fields
    kept, and every other item is untouched.  With a blank input the items
    stay as they are and the stored credential is the empty string, which
    the program treats as no credential. *)
Theorem clickSetKey_releases_blocked_items :
  forall (s : AppState),
    apiKey (clickSetKey s) = Some (trim (apiKeyInput s))
    /\ (trim (apiKeyInput s) <> [] ->
        truthy (apiKey (clickSetKey s)) = true
        /\ processedImages (clickSetKey s)
           = map requeueAfterKey (processedImages s)
        /\ (forall img, In img (processedImages (clickSetKey s)) ->
                        status img <> api_key_missing)
        /\ (forall img, status img = api_key_missing ->
              requeueAfterKey img = withErrorMessage None (withStatus queued img))
        /\ (forall img, status img <> api_key_missing ->
              requeueAfterKey img = img))
    /\ (trim (apiKeyInput s) = [] ->
        truthy (apiKey (clickSetKey s)) = false
        /\ processedImages (clickSetKey s) = processedImages s).
Proof.
  intros s. unfold clickSetKey.
  destruct (trim (apiKeyInput s)) as [|c t] eqn:T; cbn [nonEmpty]; state_fields.
  - split; [reflexivity|]. split; [congruence|]. intros _. split; reflexivity.
  - split; [reflexivity|]. split; [|discriminate]. intros _.
    split; [reflexivity|]. split; [reflexivity|]. split; [|split].
    + intros img Hin. apply in_map_iff in Hin. destruct Hin as (x & <- & _).
      apply requeueAfterKey_status.
    + intros img E. unfold requeueAfterKey. rewrite E. reflexivity.
    + apply requeueAfterKey_other.
Qed.

(** X9.  Enter in the credential field stores the trimmed input and
    changes no item, so items in api_key_missing stay there.  On a blank
    field it replaces whatever credential was set by the empty string, and
    the next start-all is refused for the missing credential. *)
Theorem pressEnterOnKey_sets_only_the_credential :
  forall (s : AppState),
    apiKey (pressEnterOnKey s) = Some (trim (apiKeyInput s))
    /\ processedImages (pressEnterOnKey s) = processedImages s
    /\ (trim (apiKeyInput s) = [] ->
        truthy (apiKey (pressEnterOnKey s)) = false
        /\ startAttemptErrorMessage
             (handleStartAllProcessing (pressEnterOnKey s))
           = Some msgKeyMissing
        /\ processedImages (handleStartAllProcessing (pressEnterOnKey s))
           = processedImages s
        /\ startProcessingFlag (handleStartAllProcessing (pressEnterOnKey s))
           = startProcessingFlag s).
Proof.
  intros s. split; [reflexivity|]. split; [reflexivity|].
  intros T.
  assert (K : truthy (apiKey (pressEnterOnKey s)) = false).
  { unfold pressEnterOnKey. state_fields. rewrite T. reflexivity. }
  split; [exact K|].
  pose proof (handleStartAllProcessing_outcome (pressEnterOnKey s)) as O.
  cbv zeta in O. rewrite K in O. cbn [negb] in O.
  destruct O as (Ei & Ef & Em). rewrite Ei, Ef, Em. auto.
Qed.

(** X10.  "Clear All", when its button is enabled in a reachable state,
    brings the application back to its initial state except for the
    credential, the credential field, the pasted text and the parsed table,
    which it keeps. *)
Theorem handleClearAll_resets :
  forall (s : AppState),
    reachable s -> clearAllDisabled s = false ->
    handleClearAll s = clearedState s.
Proof.
  intros s R G.
  pose proof (reachable_invariant R) as Inv.
  assert (B : isCurrentlyProcessingImage s = false).
  { unfold clearAllDisabled in G.
    apply orb_false_iff in G. destruct G as [G _].
    apply orb_false_iff in G. destruct G as [G _].
    apply orb_false_iff in G. destruct G as [_ G]. exact G. }
  pose proof (invariant_busy Inv B) as P.
  destruct s. cbn [pendingTask] in P. subst.
  reflexivity.
Qed.

Lemma handleClearAll_resets_witness :
  reachable (stateAfter sampleNoTable)
  /\ clearAllDisabled (stateAfter sampleNoTable) = false
  /\ processedImages (handleClearAll (stateAfter sampleNoTable)) = []
  /\ apiKey (handleClearAll (stateAfter sampleNoTable)) = Some (js "key").
Proof.
  assert (R : reachable (stateAfter sampleNoTable))
    by (exists sampleNoTable; vm_compute; reflexivity).
  assert (G : clearAllDisabled (stateAfter sampleNoTable) = false)
    by (vm_compute; reflexivity).
  split; [exact R|]. split; [exact G|].
  rewrite (handleClearAll_resets R G).
  split; [reflexivity | vm_compute; reflexivity].
Defined.

(** ** Upload *)

Lemma js_injective (a b : string) : js a = js b -> a = b.
Proof.
  unfold js. intros H.
  rewrite <- (string_of_list_ascii_of_string a),
          <- (string_of_list_ascii_of_string b).
  f_equal. revert H.
  generalize (list_ascii_of_string a) (list_ascii_of_string b).
  induction l as [|x l IH]; intros [|y l']; simpl; intros H;
    try discriminate; [reflexivity|].
  inversion H as [[Hx Hl]]. f_equal; [|apply IH, Hl].
  unfold cu in Hx.
  rewrite <- (ascii_N_embedding x), <- (ascii_N_embedding y), Hx. reflexivity.
Qed.

Lemma showN_injective (n m : N) : showN n = showN m -> n = m.
Proof.
  unfold showN. intros H. apply js_injective in H.
  assert (E : N.to_uint n = N.to_uint m).
  { pose proof (NilEmpty.usu (N.to_uint n)) as A.
    pose proof (NilEmpty.usu (N.to_uint m)) as B.
    rewrite H in A. congruence. }
  rewrite <- (DecimalN.Unsigned.of_to n), <- (DecimalN.Unsigned.of_to m), E.
  reflexivity.
Qed.

Lemma digits_of_uint (d : Decimal.uint) :
  Forall (fun c => isDigit c = true) (js (NilEmpty.string_of_uint d)).
Proof.
  induction d; cbn [NilEmpty.string_of_uint js list_ascii_of_string map];
    constructor; try reflexivity; assumption.
Qed.

Lemma showN_digits (n : N) : Forall (fun c => isDigit c = true) (showN n).
Proof. apply digits_of_uint. Qed.

Lemma split_at_first_dash (a b x y : jsstr) :
  Forall (fun c => isDigit c = true) a ->
  Forall (fun c => isDigit c = true) b ->
  a ++ cu "-" :: x = b ++ cu "-" :: y -> a = b /\ x = y.
Proof.
  intros Ha. revert b. induction Ha as [|c a Hc Ha IH]; intros b Hb H.
  - destruct Hb as [|d b Hd Hb]; simpl in H.
    + inversion H. auto.
    + inversion H; subst d. discriminate Hd.
  - destruct Hb as [|d b Hd Hb]; simpl in H.
    + inversion H; subst c. discriminate Hc.
    + inversion H; subst d. destruct (IH b Hb H2) as [-> ->]. auto.
Qed.

Lemma idOfUpload_injective now index name now' index' name' :
  idOfUpload now index name = idOfUpload now' index' name' ->
  now = now' /\ index = index' /\ name = name'.
Proof.
  unfold idOfUpload, showNat. change (js "-") with [cu "-"]. cbn [app].
  intros H.
  destruct (@split_at_first_dash _ _ _ _ (showN_digits now) (showN_digits now') H)
    as [E1 H1].
  destruct (@split_at_first_dash _ _ _ _ (showN_digits (N.of_nat index))
              (showN_digits (N.of_nat index')) H1) as [E2 E3].
  apply showN_injective in E1. apply showN_injective in E2.
  apply Nat2N.inj in E2. auto.
Qed.

Lemma id_newImage k index c :
  id (newImage k index c)
  = idOfUpload (chosenNow c) index (fileName (chosenFile c)).
Proof.
  unfold newImage. destruct (chosenMetadata c) as [[w h]|]; reflexivity.
Qed.

Lemma newImagesFrom_index k files index img :
  In img (newImagesFrom k index files) ->
  exists j c, index <= j /\ In c files /\ img = newImage k j c.
Proof.
  revert index; induction files as [|c r IH]; intros index; simpl; [intros []|].
  intros [<- | H].
  - exists index, c. auto.
  - destruct (IH _ H) as (j & c' & L & Hc & E).
    exists j, c'. split; [lia | auto].
Qed.

Lemma newImagesFrom_nth k files index i c :
  nth_error files i = Some c ->
  nth_error (newImagesFrom k index files) i = Some (newImage k (index + i) c).
Proof.
  revert index i; induction files as [|x r IH]; intros index [|i]; simpl;
    try discriminate.
  - intros H; inversion H; subst. rewrite Nat.add_0_r. reflexivity.
  - intros H. rewrite (IH (S index) i H). f_equal. f_equal. lia.
Qed.

Lemma newImagesFrom_length k files index :
  length (newImagesFrom k index files) = length files.
Proof.
  revert index; induction files as [|x r IH]; intros index; simpl; auto.
Qed.

(** X11.  The ids given within one upload are pairwise distinct, whatever
    the clock shows and whatever the files are called: an id determines the
    clock value, the position in the upload and the file name it was made
    from. *)
Theorem upload_ids_are_distinct :
  forall (k : option jsstr) (files : list ChosenFile),
    distinctIds (map id (newImagesFrom k 0 files)) = true
    /\ forall i j c d,
         nth_error files i = Some c -> nth_error files j = Some d ->
         id (newImage k i c) = id (newImage k j d) ->
         i = j /\ chosenNow c = chosenNow d
         /\ fileName (chosenFile c) = fileName (chosenFile d).
Proof.
  intros k files. split.
  - apply distinctIds_NoDup. generalize 0.
    induction files as [|c r IH]; intros index; simpl; constructor.
    + intros Hin. apply in_map_iff in Hin. destruct Hin as (img & E & Hi).
      destruct (newImagesFrom_index _ _ _ _ Hi) as (j & c' & L & _ & ->).
      rewrite !id_newImage in E.
      apply idOfUpload_injective in E. lia.
    + apply IH.
  - intros i j c d _ _ E. rewrite !id_newImage in E.
    apply idOfUpload_injective in E. destruct E as (E1 & E2 & E3). auto.
Qed.

(** X12.  An upload leaves the existing items in front, as they were, and
    appends one item per chosen file, in the order of the files.  The new
    item is named after its file and has no OCR text, suggested name or
    provider; it starts as error when its image cannot be read, otherwise
    as queued when a credential was set and as api_key_missing when not,
    with the geometry that was read and its class.  Both advisory messages
    are cleared. *)
Theorem handleFilesSelected_appends :
  forall (k : option jsstr) (files : list ChosenFile) (s : AppState),
    let s' := handleFilesSelected k files s in
    processedImages s' = processedImages s ++ newImagesFrom k 0 files
    /\ length (processedImages s') = length (processedImages s) + length files
    /\ startAttemptErrorMessage s' = None
    /\ unusedMappingsMessage s' = None
    /\ (forall i c,
          nth_error files i = Some c ->
          exists img,
            nth_error (processedImages s') (length (processedImages s) + i)
            = Some img
            /\ originalName img = fileName (chosenFile c)
            /\ file img = chosenFile c
            /\ ocrText img = None /\ suggestedName img = None
            /\ gameProvider img = None
            /\ match chosenMetadata c with
               | None =>
                   status img = error /\ truthy (errorMessage img) = true
                   /\ width img = None /\ height img = None
                   /\ imageType img = Some standard
               | Some (w, h) =>
                   width img = Some w /\ height img = Some h
                   /\ imageType img = Some (classifyGeometry w h)
                   /\ (truthy k = true ->
                       status img = queued /\ errorMessage img = None)
                   /\ (truthy k = false ->
                       status img = api_key_missing
                       /\ truthy (errorMessage img) = true)
               end).
Proof.
  intros k files s. cbv zeta. unfold handleFilesSelected. state_fields.
  split; [reflexivity|]. split.
  { rewrite length_app, newImagesFrom_length. reflexivity. }
  split; [reflexivity|]. split; [reflexivity|].
  intros i c Hc. exists (newImage k i c). split.
  - rewrite nth_error_app2 by lia.
    replace (length (processedImages s) + i - length (processedImages s)) with i
      by lia.
    rewrite (newImagesFrom_nth k files 0 i Hc). reflexivity.
  - unfold newImage. destruct (chosenMetadata c) as [[w h]|].
    + cbn [originalName file ocrText suggestedName gameProvider width height
           imageType status errorMessage].
      repeat split; try reflexivity;
        match goal with H : truthy k = _ |- _ => rewrite H end; reflexivity.
    + cbn [originalName file ocrText suggestedName gameProvider width height
           imageType status errorMessage].
      repeat split; reflexivity.
Qed.

(** ** The pipeline for one item *)

Lemma mapById_compose (theId : jsstr) f g (l : list ProcessedImage) :
  (forall x, id (g x) = id x) ->
  mapById theId f (mapById theId g l) = mapById theId (fun x => f (g x)) l.
Proof.
  intros Gid. unfold mapById. rewrite map_map. apply map_ext. intros x.
  destruct (str_eqb (id x) theId) eqn:E.
  - rewrite Gid, E. reflexivity.
  - rewrite E. reflexivity.
Qed.

Lemma readyToPick_effect s pre img post :
  readyToPick s pre img post ->
  processingEffect s
  = processSingleImage_begin (setIsCurrentlyProcessingImage true s) img.
Proof.
  intros (F & B & Z & E & Q & Hpre).
  unfold processingEffect. rewrite F, B, Z. cbn [negb orb].
  rewrite E, find_first;
    [reflexivity | apply isQueued_status, Q
     | intros x Hx; apply not_queued, Hpre, Hx].
Qed.

Lemma readyToPick_facts s pre img post :
  reachable s -> readyToPick s pre img post ->
  pendingTask s = None
  /\ distinctIds (map id (pre ++ img :: post)) = true.
Proof.
  intros R (F & B & Z & E & Q & Hpre).
  pose proof (reachable_invariant R) as Inv.
  split; [apply (invariant_busy Inv B)|].
  destruct Inv as (_ & Hid & _). rewrite E in Hid. exact Hid.
Qed.

(** X13.  When the scheduler may pick a queued item in a reachable state
    with a credential and a non-empty mapping set, the effect, an OCR
    answer, the match and the end of the call together rewrite that one
    item and nothing else: it becomes completed, with the name made from
    the matched entry's code and that entry's provider, when the matcher
    finds an entry for the OCR text and the item's original name, and error
    with "Game not found in mappings." when it finds none.  The stored OCR
    text is the answer, or the marker for "no text" when there was none.
    The busy flag is down again and no call is pending. *)
Theorem pipeline_with_ocr_answer :
  forall (s : AppState) (pre : list ProcessedImage) (img : ProcessedImage)
         (post : list ProcessedImage) (text : option jsstr),
    reachable s ->
    readyToPick s pre img post ->
    truthy (apiKey s) = true ->
    manualFilenameMappings s <> [] ->
    run (sessionCompleted text) s
    = Some (settledWith
              (pre ++ outcomeOfMatch text (manualFilenameMappings s) img :: post) s)
    /\ ocrText (outcomeOfMatch text (manualFilenameMappings s) img)
       = Some (orElse (optStr text) NO_TEXT_DETECTED_MARKER)
    /\ (forall m,
          findMatchingGame text (originalName img) (manualFilenameMappings s)
          = Some m ->
          status (outcomeOfMatch text (manualFilenameMappings s) img) = completed
          /\ suggestedName (outcomeOfMatch text (manualFilenameMappings s) img)
             = Some (suggestedNameFor m)
          /\ gameProvider (outcomeOfMatch text (manualFilenameMappings s) img)
             = provider m
          /\ errorMessage (outcomeOfMatch text (manualFilenameMappings s) img)
             = None)
    /\ (findMatchingGame text (originalName img) (manualFilenameMappings s) = None ->
        status (outcomeOfMatch text (manualFilenameMappings s) img) = error
        /\ errorMessage (outcomeOfMatch text (manualFilenameMappings s) img)
           = Some (js "Game not found in mappings.")
        /\ suggestedName (outcomeOfMatch text (manualFilenameMappings s) img)
           = suggestedName img).
Proof.
  intros s pre img post text R Rd K M.
  destruct (readyToPick_facts R Rd) as (P & D).
  pose proof (readyToPick_effect Rd) as Eff.
  destruct Rd as (F & B & Z & E & Q & Hpre).
  split.
  - unfold sessionCompleted. cbn [run applyEvent]. rewrite Eff.
    unfold processSingleImage_begin. state_fields. rewrite K. cbn [negb].
    destruct (length (manualFilenameMappings s) =? 0) eqn:L;
      [apply length_zero_iff in L; contradiction|].
    unfold ocrResolved. state_fields. cbn [phase].
    unfold advanceTask. state_fields. cbn [imageToProcess currentMappings].
    unfold matchSettled. state_fields. cbn [phase imageToProcess currentMappings].
    unfold outcomeOfMatch.
    destruct (findMatchingGame text (originalName img) (manualFilenameMappings s))
      as [m|];
      unfold advanceTask; state_fields; cbn [imageToProcess currentMappings];
      unfold taskFinally; state_fields; cbn [phase];
      rewrite !mapById_compose by reflexivity;
      rewrite E, mapById_unique by exact D;
      f_equal; rewrite <- E;
      unfold settledWith; destruct s; cbn in P, B; subst; reflexivity.
  - unfold outcomeOfMatch.
    destruct (findMatchingGame text (originalName img) (manualFilenameMappings s))
      as [m|].
    + split; [reflexivity|]. split.
      * intros m' H. inversion H; subst m'. repeat split.
      * discriminate.
    + split; [reflexivity|]. split.
      * discriminate.
      * intros _. repeat split.
Qed.

Lemma sampleStart_ready : readyToPick (stateAfter sampleStart) [] sampleQueuedItem [].
Proof.
  unfold readyToPick.
  repeat (split; [vm_compute; reflexivity|]).
  intros x [].
Qed.

Lemma pipeline_with_ocr_answer_witness :
  reachable (stateAfter sampleStart)
  /\ readyToPick (stateAfter sampleStart) [] sampleQueuedItem []
  /\ truthy (apiKey (stateAfter sampleStart)) = true
  /\ manualFilenameMappings (stateAfter sampleStart) <> []
  /\ run (sessionCompleted (Some (js "King's Mystery"))) (stateAfter sampleStart)
     = Some (settledWith
               ([] ++ outcomeOfMatch (Some (js "King's Mystery"))
                        (manualFilenameMappings (stateAfter sampleStart))
                        sampleQueuedItem :: [])
               (stateAfter sampleStart)).
Proof.
  assert (K : truthy (apiKey (stateAfter sampleStart)) = true)
    by (vm_compute; reflexivity).
  assert (M : manualFilenameMappings (stateAfter sampleStart) <> [])
    by (vm_compute; discriminate).
  split; [exact sampleStart_reachable|].
  split; [exact sampleStart_ready|].
  split; [exact K|]. split; [exact M|].
  exact (proj1 (pipeline_with_ocr_answer (Some (js "King's Mystery"))
                  sampleStart_reachable sampleStart_ready K M)).
Defined.

(** X14.  When the OCR call fails instead, the picked item alone is
    rewritten: it ends as error, its OCR text is the sentinel [OCR_FAILED],
    and its message is the failure's message, or "Failed OCR extraction."
    when the failure has none; no matching takes place. *)
Theorem pipeline_with_ocr_failure :
  forall (s : AppState) (pre : list ProcessedImage) (img : ProcessedImage)
         (post : list ProcessedImage) (message : option jsstr),
    reachable s ->
    readyToPick s pre img post ->
    truthy (apiKey s) = true ->
    manualFilenameMappings s <> [] ->
    run (sessionOcrFailed message) s
    = Some (settledWith
              (pre ++ markOcrFailed message (markExtracting img) :: post) s)
    /\ status (markOcrFailed message (markExtracting img)) = error
    /\ ocrText (markOcrFailed message (markExtracting img)) = Some (js "OCR_FAILED")
    /\ errorMessage (markOcrFailed message (markExtracting img))
       = Some (match message with
               | Some (c :: m) => c :: m
               | _ => js "Failed OCR extraction."
               end)
    /\ suggestedName (markOcrFailed message (markExtracting img))
       = suggestedName img
    /\ applyEvent MatchSettled
         (settledWith (pre ++ markOcrFailed message (markExtracting img) :: post) s)
       = None.
Proof.
  intros s pre img post message R Rd K M.
  destruct (readyToPick_facts R Rd) as (P & D).
  pose proof (readyToPick_effect Rd) as Eff.
  destruct Rd as (F & B & Z & E & Q & Hpre).
  split; [|split; [reflexivity|split; [reflexivity|split; [|split]]]].
  - unfold sessionOcrFailed. cbn [run applyEvent]. rewrite Eff.
    unfold processSingleImage_begin. state_fields. rewrite K. cbn [negb].
    destruct (length (manualFilenameMappings s) =? 0) eqn:L;
      [apply length_zero_iff in L; contradiction|].
    unfold ocrRejected. state_fields. cbn [phase].
    unfold advanceTask. state_fields. cbn [imageToProcess currentMappings].
    unfold taskFinally. state_fields. cbn [phase].
    rewrite !mapById_compose by reflexivity.
    rewrite E, mapById_unique by exact D.
    reflexivity.
  - destruct message as [[|c m]|]; reflexivity.
  - reflexivity.
  - cbn [applyEvent]. unfold matchSettled, settledWith. state_fields. reflexivity.
Qed.

Lemma pipeline_with_ocr_failure_witness :
  reachable (stateAfter sampleStart)
  /\ readyToPick (stateAfter sampleStart) [] sampleQueuedItem []
  /\ truthy (apiKey (stateAfter sampleStart)) = true
  /\ manualFilenameMappings (stateAfter sampleStart) <> []
  /\ run (sessionOcrFailed None) (stateAfter sampleStart)
     = Some (settledWith
               ([] ++ markOcrFailed None (markExtracting sampleQueuedItem) :: [])
               (stateAfter sampleStart)).
Proof.
  assert (K : truthy (apiKey (stateAfter sampleStart)) = true)
    by (vm_compute; reflexivity).
  assert (M : manualFilenameMappings (stateAfter sampleStart) <> [])
    by (vm_compute; discriminate).
  split; [exact sampleStart_reachable|].
  split; [exact sampleStart_ready|].
  split; [exact K|]. split; [exact M|].
  exact (proj1 (pipeline_with_ocr_failure None
                  sampleStart_reachable sampleStart_ready K M)).
Defined.

(** X15.  Without a credential the picked item goes straight to
    api_key_missing, and with a credential but an empty mapping set
    straight to mapping_parse_error, each with its message; the credential
    is checked first.  In both cases the call is over at once: no OCR
    answer or failure can arrive for it, and no other item changes. *)
Theorem pipeline_blocked_before_extraction :
  forall (s : AppState) (pre : list ProcessedImage) (img : ProcessedImage)
         (post : list ProcessedImage),
    reachable s ->
    readyToPick s pre img post ->
    truthy (apiKey s) = false \/ manualFilenameMappings s = [] ->
    let blocked :=
      if truthy (apiKey s) then markMappingError img else markApiKeyMissing img in
    run sessionBlocked s = Some (settledWith (pre ++ blocked :: post) s)
    /\ (forall text, applyEvent (OcrResolved text) (processingEffect s) = None)
    /\ (forall message, applyEvent (OcrRejected message) (processingEffect s) = None)
    /\ status blocked
       = (if truthy (apiKey s) then mapping_parse_error else api_key_missing)
    /\ errorMessage blocked
       = Some (if truthy (apiKey s)
               then js "No valid mappings loaded. Cannot process."
               else js "API Key is missing. OCR skipped.").
Proof.
  intros s pre img post R Rd Hb. cbv zeta.
  destruct (readyToPick_facts R Rd) as (P & D).
  pose proof (readyToPick_effect Rd) as Eff.
  destruct Rd as (F & B & Z & E & Q & Hpre).
  rewrite Eff.
  assert (Beg : processSingleImage_begin (setIsCurrentlyProcessingImage true s) img
                = setPendingTask
                    (Some (mkTask img (manualFilenameMappings s) Settled))
                    (setProcessedImages
                       (mapById (id img)
                          (if truthy (apiKey s) then markMappingError
                           else markApiKeyMissing) (processedImages s))
                       (setIsCurrentlyProcessingImage true s))).
  { unfold processSingleImage_begin. state_fields.
    destruct (truthy (apiKey s)) eqn:K; cbn [negb]; [|reflexivity].
    destruct Hb as [Hb | Hb]; [discriminate|]. rewrite Hb. reflexivity. }
  split; [|split; [|split; [|split]]].
  - unfold sessionBlocked. cbn [run applyEvent]. rewrite Eff, Beg.
    unfold taskFinally. state_fields. cbn [phase].
    rewrite E, mapById_unique by exact D.
    destruct (truthy (apiKey s)); reflexivity.
  - intros text. cbn [applyEvent]. rewrite Beg. reflexivity.
  - intros message. cbn [applyEvent]. rewrite Beg. reflexivity.
  - destruct (truthy (apiKey s)); reflexivity.
  - destruct (truthy (apiKey s)); reflexivity.
Qed.

Lemma sampleNoKey_reachable : reachable (stateAfter sampleNoKey).
Proof. exists sampleNoKey. vm_compute. reflexivity. Qed.

Lemma pipeline_blocked_before_extraction_witness :
  reachable (stateAfter sampleNoKey)
  /\ readyToPick (stateAfter sampleNoKey) []
       (hd sampleQueuedItem (processedImages (stateAfter sampleNoKey))) []
  /\ truthy (apiKey (stateAfter sampleNoKey)) = false
  /\ forall text,
       applyEvent (OcrResolved text) (processingEffect (stateAfter sampleNoKey))
       = None.
Proof.
  assert (Rd : readyToPick (stateAfter sampleNoKey) []
                 (hd sampleQueuedItem (processedImages (stateAfter sampleNoKey))) []).
  { unfold readyToPick. repeat (split; [vm_compute; reflexivity|]). intros x []. }
  assert (K : truthy (apiKey (stateAfter sampleNoKey)) = false)
    by (vm_compute; reflexivity).
  split; [exact sampleNoKey_reachable|]. split; [exact Rd|]. split; [exact K|].
  exact (proj1 (proj2 (pipeline_blocked_before_extraction
                         sampleNoKey_reachable Rd (or_introl K)))).
Defined.

Lemma filter_queued_update f pre img post :
  isQueued img = true -> isQueued (f img) = false ->
  length (filter isQueued (pre ++ img :: post))
  = S (length (filter isQueued (pre ++ f img :: post))).
Proof.
  intros Q Q'. rewrite !filter_app, !length_app. cbn [filter].
  rewrite Q, Q'. cbn [length]. lia.
Qed.

(** X16.  One run of the scheduler's effect that picks an item rewrites
    that item alone, where it stands, and takes it out of the queue: the
    number of queued items goes down by exactly one, so a run over [n]
    queued items takes [n] picks. *)
Theorem scheduler_pick_shrinks_queue :
  forall (s : AppState) (pre : list ProcessedImage) (img : ProcessedImage)
         (post : list ProcessedImage),
    reachable s ->
    readyToPick s pre img post ->
    exists img',
      processedImages (processingEffect s) = pre ++ img' :: post
      /\ identityOf img' = identityOf img
      /\ status img' <> queued
      /\ length (filter isQueued (processedImages s))
         = S (length (filter isQueued (processedImages (processingEffect s)))).
Proof.
  intros s pre img post R Rd.
  destruct (readyToPick_facts R Rd) as (P & D).
  pose proof (readyToPick_effect Rd) as Eff.
  destruct Rd as (F & B & Z & E & Q & Hpre).
  rewrite Eff. unfold processSingleImage_begin. state_fields.
  apply isQueued_status in Q.
  destruct (negb (truthy (apiKey s)));
    [|destruct (length (manualFilenameMappings s) =? 0)];
    state_fields; rewrite E, mapById_unique by exact D;
    eexists; (split; [reflexivity|]); (split; [reflexivity|]);
    (split; [cbn; discriminate|]);
    apply filter_queued_update; [exact Q | reflexivity | exact Q | reflexivity
                                | exact Q | reflexivity].
Qed.

Lemma scheduler_pick_shrinks_queue_witness :
  reachable (stateAfter sampleStart)
  /\ readyToPick (stateAfter sampleStart) [] sampleQueuedItem []
  /\ length (filter isQueued (processedImages (stateAfter sampleStart))) = 1
  /\ length (filter isQueued
               (processedImages (processingEffect (stateAfter sampleStart)))) = 0.
Proof.
  split; [exact sampleStart_reachable|].
  split; [exact sampleStart_ready|].
  split; [vm_compute; reflexivity|].
  destruct (scheduler_pick_shrinks_queue sampleStart_reachable sampleStart_ready)
    as (img' & _ & _ & _ & H).
  assert (L : length (filter isQueued (processedImages (stateAfter sampleStart))) = 1)
    by (vm_compute; reflexivity).
  rewrite L in H. inversion H. reflexivity.
Defined.

(** ** The advisory check of start-all *)

Lemma contains_app_left (pre s sub : jsstr) :
  includes s sub = true -> includes (pre ++ s) sub = true.
Proof.
  rewrite !includes_spec. intros (a & b & ->).
  exists (pre ++ a), b. rewrite <- app_assoc. reflexivity.
Qed.

Lemma core_is_end_of_name (name : jsstr) :
  exists front,
    normalizeText (Some (withoutExtension name))
    = front ++ normalizeText (Some (filenameGamePart name)).
Proof.
  change (filenameGamePart name)
    with (stripDimensionPrefix (withoutExtension name)).
  destruct (stripDimensionPrefix_cases (withoutExtension name))
    as [E | (d1 & d2 & _ & _ & _ & _ & E)].
  - exists []. rewrite E. reflexivity.
  - exists (normalizeText (Some (d1 ++ cu "x" :: d2 ++ [cu "-"]))).
    rewrite <- normalizeText_app. rewrite E at 1.
    f_equal. f_equal. rewrite <- app_assoc. cbn [app].
    rewrite <- app_assoc. reflexivity.
Qed.

Lemma trulyUnused_In (parsed : list FilenameMappingEntry)
    (images : list ProcessedImage) (name : jsstr) :
  In name (trulyUnusedMappingNames parsed images)
  <-> exists e, In e parsed /\ gameName e = name
        /\ normalizeText (Some name) <> []
        /\ forall img, In img images ->
             includes (normalizeText (Some (withoutExtension (originalName img))))
                      (normalizeText (Some name)) = false.
Proof.
  unfold trulyUnusedMappingNames. rewrite in_flat_map. split.
  - intros (e & He & H).
    destruct (nonEmpty (normalizeText (Some (gameName e)))) eqn:N;
      cbn [negb] in H; [|contradiction].
    destruct (existsb _ _) eqn:X; [contradiction|].
    destruct H as [<- | []].
    exists e. split; [exact He|]. split; [reflexivity|].
    split; [apply nonEmpty_true, N|].
    intros img Hin.
    destruct (includes _ _) eqn:I; [|reflexivity].
    assert (existsb
              (fun imgName => includes imgName (normalizeText (Some (gameName e))))
              (map (fun img =>
                      normalizeText
                        (Some (orElse (substring (originalName img) 0
                                         (lastIndexOf (originalName img) (cu ".")))
                                      (originalName img)))) images) = true).
    { apply existsb_exists. eexists. split; [apply in_map, Hin | exact I]. }
    congruence.
  - intros (e & He & <- & N & H). exists e. split; [exact He|].
    apply nonEmpty_true in N. rewrite N. cbn [negb].
    destruct (existsb _ _) eqn:X; [|left; reflexivity].
    apply existsb_exists in X. destruct X as (n & Hn & I).
    apply in_map_iff in Hn. destruct Hn as (img & <- & Hin).
    specialize (H img Hin). unfold withoutExtension in H. congruence.
Qed.

(** X17.  A mapping name is listed by the advisory check of start-all
    exactly when it is the name of a parsed entry, normalizes to a non-empty
    text, and that text occurs in the normalized extension-less name of no
    uploaded item.  For such a name the matcher's check "filename core
    contains the name" fires for none of the items, since the core is an end
    piece of the extension-less name: only the OCR text, or a core contained
    in the name, can still match it. *)
Theorem unused_names_never_match_by_filename :
  forall (parsed : list FilenameMappingEntry) (images : list ProcessedImage)
         (name : jsstr),
    (In name (trulyUnusedMappingNames parsed images)
     <-> exists e, In e parsed /\ gameName e = name
           /\ normalizeText (Some name) <> []
           /\ forall img, In img images ->
                includes
                  (normalizeText (Some (withoutExtension (originalName img))))
                  (normalizeText (Some name)) = false)
    /\ (In name (trulyUnusedMappingNames parsed images) ->
        forall img, In img images ->
          checkFileHoldsName
            (normalizeText (Some (filenameGamePart (originalName img))))
            (normalizeText (Some name)) = 0).
Proof.
  intros parsed images name. split; [apply trulyUnused_In|].
  intros H img Hin.
  apply trulyUnused_In in H. destruct H as (e & _ & _ & _ & H).
  specialize (H img Hin). unfold checkFileHoldsName.
  destruct (includes (normalizeText (Some (filenameGamePart (originalName img))))
                     (normalizeText (Some name))) eqn:I; [|reflexivity].
  destruct (core_is_end_of_name (originalName img)) as (front & E).
  rewrite E in H. rewrite (contains_app_left front _ _ I) in H. discriminate.
Qed.

(** X18.  Start-all leaves its advisory note whether or not it then
    refuses to start: the note is set exactly when the table has entries,
    items are uploaded and some name is listed by the advisory check, and it
    is cleared otherwise. *)
Theorem handleStartAllProcessing_advisory :
  forall (s : AppState),
    unusedMappingsMessage (handleStartAllProcessing s)
    = advisoryNote (fst (parseCustomMappings (pastedCustomMappings s)))
                   (processedImages s).
Proof.
  intros s. unfold handleStartAllProcessing, advisoryNote. state_fields.
  destruct (parseCustomMappings (pastedCustomMappings s)) as [parsed msg].
  cbn [fst].
  destruct ((0 <? length parsed) && (0 <? length (processedImages s)));
    [destruct (0 <? length (trulyUnusedMappingNames parsed (processedImages s)))|];
    cbn [andb]; state_fields;
    (destruct (negb (truthy (apiKey s))); [reflexivity|]);
    (destruct (negb (nonEmpty (trim (pastedCustomMappings s)))); [reflexivity|]);
    (destruct (length parsed =? 0); [reflexivity|]);
    (destruct (length (filter isEligible (processedImages s)) =? 0);
       reflexivity).
Qed.

(** ** The start button *)

Lemma existsb_eligible (l : list ProcessedImage) :
  existsb isEligible l = true -> (length (filter isEligible l) =? 0) = false.
Proof.
  intros H. apply existsb_exists in H. destruct H as (x & Hx & E).
  assert (In x (filter isEligible l)) by (apply filter_In; auto).
  destruct (filter isEligible l); [contradiction | reflexivity].
Qed.

(** X19.  While the start button is enabled, start-all is never refused for
    an empty mapping text or for want of eligible items.  It either starts
    (the flag is raised and the eligible items are requeued), or is refused
    because the table yields no entry, or, when the stored credential is the
    empty string, which the button's condition [apiKey != null] lets
    through, because the credential is missing. *)
Theorem start_button_enabled :
  forall (s : AppState),
    canStartProcessing s = true ->
    (apiKey s = Some []
     /\ startAttemptErrorMessage (handleStartAllProcessing s) = Some msgKeyMissing
     /\ processedImages (handleStartAllProcessing s) = processedImages s
     /\ startProcessingFlag (handleStartAllProcessing s) = false)
    \/ (truthy (apiKey s) = true
        /\ fst (parseCustomMappings (pastedCustomMappings s)) = []
        /\ (exists specific,
              startAttemptErrorMessage (handleStartAllProcessing s)
              = Some (msgNoEntriesBase ++ specific))
        /\ processedImages (handleStartAllProcessing s) = processedImages s
        /\ startProcessingFlag (handleStartAllProcessing s) = false)
    \/ (truthy (apiKey s) = true
        /\ fst (parseCustomMappings (pastedCustomMappings s)) <> []
        /\ startAttemptErrorMessage (handleStartAllProcessing s) = None
        /\ processedImages (handleStartAllProcessing s)
           = requeueEligible (processedImages s)
        /\ startProcessingFlag (handleStartAllProcessing s) = true).
Proof.
  intros s C. unfold canStartProcessing in C.
  repeat (apply andb_true_iff in C; destruct C as [C ?]).
  match goal with H : negb (str_eqb _ _) = true |- _ => rename H into T end.
  match goal with H : negb (startProcessingFlag s) = true |- _ => rename H into F end.
  match goal with H : existsb _ _ = true |- _ => rename H into El end.
  apply negb_true_iff in F. rewrite str_eqb_nil, negb_involutive in T.
  pose proof (handleStartAllProcessing_outcome s) as O. cbv zeta in O.
  rewrite T, (existsb_eligible _ El) in O. cbn [negb] in O.
  destruct (apiKey s) as [[|c k]|] eqn:K; cbn [truthy negb] in O;
    [| |discriminate C].
  - left. destruct O as (Ei & Ef & Em). rewrite Ef. auto.
  - right.
    destruct (length (fst (parseCustomMappings (pastedCustomMappings s))) =? 0) eqn:L.
    + left. apply length_zero_iff in L. destruct O as (Ei & Ef & Em).
      rewrite Ef. auto.
    + right. assert (fst (parseCustomMappings (pastedCustomMappings s)) <> []).
      { intros E. rewrite E in L. discriminate. }
      destruct O as (Ei & Ef & Em). auto.
Qed.

Lemma start_button_enabled_witness :
  canStartProcessing (stateAfter sampleReady) = true
  /\ startProcessingFlag (handleStartAllProcessing (stateAfter sampleReady)) = true
  /\ canStartProcessing (stateAfter sampleKeyErased) = true
  /\ startAttemptErrorMessage (handleStartAllProcessing (stateAfter sampleKeyErased))
     = Some msgKeyMissing.
Proof.
  assert (C1 : canStartProcessing (stateAfter sampleReady) = true)
    by (vm_compute; reflexivity).
  assert (C2 : canStartProcessing (stateAfter sampleKeyErased) = true)
    by (vm_compute; reflexivity).
  assert (K1 : apiKey (stateAfter sampleReady) <> Some [])
    by (vm_compute; discriminate).
  assert (P1 : fst (parseCustomMappings (pastedCustomMappings (stateAfter sampleReady)))
               <> []) by (vm_compute; discriminate).
  assert (K2 : truthy (apiKey (stateAfter sampleKeyErased)) = false)
    by (vm_compute; reflexivity).
  split; [exact C1|]. split.
  - destruct (start_button_enabled (stateAfter sampleReady) C1)
      as [(K & _) | [(_ & P & _) | (_ & _ & _ & _ & F)]].
    + contradiction.
    + contradiction.
    + exact F.
  - split; [exact C2|].
    destruct (start_button_enabled (stateAfter sampleKeyErased) C2)
      as [(_ & M & _) | [(K & _) | (K & _)]].
    + exact M.
    + rewrite K in K2. discriminate.
    + rewrite K in K2. discriminate.
Defined.

(** ** The archive *)





(** ** The OCR service *)

Lemma dropWhile_is_end (p : codeUnit -> bool) (s : jsstr) :
  exists front, s = front ++ dropWhile p s.
Proof.
  induction s as [|c r (front & IH)]; [exists []; reflexivity|].
  cbn [dropWhile]. destruct (p c).
  - exists (c :: front). cbn [app]. f_equal. exact IH.
  - exists []. reflexivity.
Qed.

Lemma trim_is_inside (s : jsstr) : exists front back, s = front ++ trim s ++ back.
Proof.
  unfold trim.
  destruct (dropWhile_is_end isSpace s) as (front & E1).
  destruct (dropWhile_is_end isSpace (rev (dropWhile isSpace s))) as (b & E2).
  exists front, (rev b).
  rewrite <- rev_app_distr, <- E2, rev_involutive. exact E1.
Qed.

Lemma includes_trim (s m : jsstr) :
  includes (trim s) m = true -> includes s m = true.
Proof.
  rewrite !includes_spec. intros (a & b & E).
  destruct (trim_is_inside s) as (front & back & Es).
  exists (front ++ a), (b ++ back). rewrite Es at 1. rewrite E.
  repeat rewrite <- app_assoc. reflexivity.
Qed.

Lemma nonEmpty_false_nil (s : jsstr) : nonEmpty s = false -> s = [].
Proof. destruct s; [reflexivity | discriminate]. Qed.

Lemma includes_self (m : jsstr) : includes m m = true.
Proof. apply includes_spec. exists [], []. rewrite app_nil_r. reflexivity. Qed.

(** X21.  The service hands back a text only when the model's answer is
    not blank and does not contain the marker [NO_TEXT_DETECTED]; the text
    is then the trimmed answer: not empty, without whitespace at its ends,
    and free of the marker.  So the OCR text the pipeline stores for an
    item, the answer or else the marker, is never empty, and it is the
    marker exactly when the service found no text. *)
Theorem textOfResponse_result :
  forall (text : option jsstr),
    (forall r, textOfResponse text = Some r ->
       r = trim (optStr text) /\ r <> [] /\ isTrimmed r
       /\ includes r NO_TEXT_DETECTED_MARKER = false)
    /\ (textOfResponse text = None <->
        truthy text = false \/ trim (optStr text) = []
        \/ includes (optStr text) NO_TEXT_DETECTED_MARKER = true)
    /\ orElse (optStr (textOfResponse text)) NO_TEXT_DETECTED_MARKER <> []
    /\ (orElse (optStr (textOfResponse text)) NO_TEXT_DETECTED_MARKER
        = NO_TEXT_DETECTED_MARKER <-> textOfResponse text = None).
Proof.
  intros text. unfold textOfResponse.
  change (js "NO_TEXT_DETECTED") with NO_TEXT_DETECTED_MARKER.
  destruct (truthy text) eqn:T; cbn [andb].
  2:{ repeat split; try discriminate; auto. }
  rewrite str_eqb_nil, negb_involutive.
  destruct (nonEmpty (trim (optStr text))) eqn:N; cbn [andb].
  2:{ apply nonEmpty_false_nil in N.
      repeat split; try discriminate; auto. }
  destruct (includes (optStr text) NO_TEXT_DETECTED_MARKER) eqn:I; cbn [negb].
  { repeat split; try discriminate; auto. }
  assert (Ne : trim (optStr text) <> []) by (apply nonEmpty_true, N).
  assert (Im : includes (trim (optStr text)) NO_TEXT_DETECTED_MARKER = false).
  { destruct (includes (trim (optStr text)) NO_TEXT_DETECTED_MARKER) eqn:X;
      [|reflexivity].
    apply includes_trim in X. congruence. }
  split; [|split; [|split]].
  - intros r H. inversion H; subst r.
    split; [reflexivity|]. split; [exact Ne|]. split; [apply trim_isTrimmed|exact Im].
  - split; [discriminate|]. intros [H | [H | H]]; congruence.
  - cbn [optStr]. unfold orElse. rewrite N. exact Ne.
  - cbn [optStr]. unfold orElse. rewrite N. split; [|discriminate].
    intros E. rewrite E, includes_self in Im. discriminate.
Qed.

Lemma indexOfFromZ_found (c : codeUnit) (front back : jsstr) (i : Z) :
  ~ In c front ->
  indexOfFromZ c (front ++ c :: back) i = (i + Z.of_nat (length front))%Z.
Proof.
  revert i; induction front as [|x front IH]; intros i H; cbn [app indexOfFromZ].
  - rewrite N.eqb_refl. cbn [length]. lia.
  - destruct (N.eqb x c) eqn:E.
    + apply N.eqb_eq in E. exfalso. apply H. left. exact E.
    + rewrite IH by (intros K; apply H; right; exact K).
      cbn [length]. lia.
Qed.

Lemma indexOfFromZ_absent (c : codeUnit) (s : jsstr) (i : Z) :
  ~ In c s -> indexOfFromZ c s i = (-1)%Z.
Proof.
  revert i; induction s as [|x s IH]; intros i H; cbn [indexOfFromZ]; [reflexivity|].
  destruct (N.eqb x c) eqn:E.
  - apply N.eqb_eq in E. exfalso. apply H. left. exact E.
  - apply IH. intros K. apply H. right. exact K.
Qed.

Lemma substring_from (s : jsstr) (n : nat) :
  n <= length s ->
  substring s (Z.of_nat n) (Z.of_nat (length s)) = skipn n s.
Proof.
  intros L. unfold substring, clampIndex. rewrite !Nat2Z.id.
  rewrite Nat.min_id, (Nat.min_l n (length s)) by lia.
  rewrite Nat.min_l, Nat.max_r by lia.
  rewrite firstn_all2; [reflexivity|]. rewrite length_skipn. lia.
Qed.

(** X22.  [fileToBase64] cuts a data URL after its first comma: for a
    header without comma followed by a comma and a payload the result is
    the payload, whatever it contains; a text without any comma comes back
    whole. *)
Theorem base64OfDataUrl_payload :
  forall (header payload : jsstr),
    ~ In (cu ",") header ->
    base64OfDataUrl (header ++ cu "," :: payload) = payload
    /\ base64OfDataUrl header = header.
Proof.
  intros header payload H. unfold base64OfDataUrl, indexOfChar. split.
  - rewrite indexOfFromZ_found by exact H.
    replace (0 + Z.of_nat (length header) + 1)%Z
      with (Z.of_nat (length (header ++ [cu ","])))
      by (rewrite length_app; cbn [length]; lia).
    rewrite substring_from by (rewrite !length_app; cbn [length]; lia).
    replace (header ++ cu "," :: payload)
      with ((header ++ [cu ","]) ++ payload)
      by (rewrite <- app_assoc; reflexivity).
    rewrite skipn_app, skipn_all, Nat.sub_diag. reflexivity.
  - rewrite indexOfFromZ_absent by exact H.
    change (-1 + 1)%Z with (Z.of_nat 0).
    rewrite substring_from by lia. reflexivity.
Qed.

Lemma base64OfDataUrl_payload_witness :
  ~ In (cu ",") (js "data:image/webp;base64")
  /\ base64OfDataUrl (js "data:image/webp;base64" ++ cu "," :: js "UklGR,x==")
     = js "UklGR,x==".
Proof.
  assert (H : ~ In (cu ",") (js "data:image/webp;base64")).
  { vm_compute. intros K.
    repeat (destruct K as [K | K]; [discriminate K|]). exact K. }
  split; [exact H|].
  exact (proj1 (@base64OfDataUrl_payload _ (js "UklGR,x==") H)).
Defined.

(** X23.  A failure of the OCR service reaches the item with the service's
    own message: the invalid-credential message exactly when the caught
    error's message contains "API key not valid", the general extraction
    message otherwise; the pipeline's fallback text "Failed OCR
    extraction." is never used for it. *)
Theorem service_failure_message :
  forall (message : option jsstr) (img : ProcessedImage),
    errorMessage (markOcrFailed (Some (messageOfFailure message)) img)
    = Some (messageOfFailure message)
    /\ status (markOcrFailed (Some (messageOfFailure message)) img) = error
    /\ (messageOfFailure message
        = js "Invalid API Key for Gemini. Please check the provided key."
        <-> exists m, message = Some m
                      /\ includes m (js "API key not valid") = true)
    /\ (messageOfFailure message = js "Failed to extract text using Gemini API."
        <-> ~ exists m, message = Some m
                        /\ includes m (js "API key not valid") = true).
Proof.
  intros message img. unfold messageOfFailure.
  destruct message as [m|]; [destruct (includes m (js "API key not valid")) eqn:I|].
  - split; [reflexivity|]. split; [reflexivity|]. split; split.
    + intros _. exists m. auto.
    + reflexivity.
    + intros H. vm_compute in H. discriminate H.
    + intros H. exfalso. apply H. exists m. auto.
  - split; [reflexivity|]. split; [reflexivity|]. split; split.
    + intros H. vm_compute in H. discriminate H.
    + intros (m' & E & I'). inversion E; subst. congruence.
    + intros _ (m' & E & I'). inversion E; subst. congruence.
    + reflexivity.
  - split; [reflexivity|]. split; [reflexivity|]. split; split.
    + intros H. vm_compute in H. discriminate H.
    + intros (m' & E & _). discriminate.
    + intros _ (m' & E & _). discriminate.
    + reflexivity.
Qed.

(** ** File input *)

(** X24.  The file picker and the drop zone pass on exactly the files of
    type [image/webp], in their order, and only when there is at least one;
    when files were given but none is of that type they show an alert
    instead, and a disabled drop zone does nothing. *)
Theorem upload_passes_on_webp_only :
  forall (fs : list File),
    (forall l, handleFileChange (Some fs) = FilesPassedOn l ->
       l = filter isWebp fs /\ l <> []
       /\ Forall (fun f => fileType f = js "image/webp") l)
    /\ (forall l, handleDrop false (Some fs) = FilesPassedOn l ->
          l = filter isWebp fs /\ l <> []
          /\ Forall (fun f => fileType f = js "image/webp") l)
    /\ ((exists f, In f fs /\ fileType f = js "image/webp") ->
        handleFileChange (Some fs) = FilesPassedOn (filter isWebp fs)
        /\ handleDrop false (Some fs) = FilesPassedOn (filter isWebp fs))
    /\ (fs <> [] -> (forall f, In f fs -> fileType f <> js "image/webp") ->
        handleFileChange (Some fs)
        = AlertShown (js "Please select .webp files only.")
        /\ handleDrop false (Some fs)
           = AlertShown (js "Please drop .webp files only."))
    /\ handleDrop true (Some fs) = NothingDone
    /\ handleFileChange (Some []) = NothingDone.
Proof.
  intros fs.
  assert (W : Forall (fun f => fileType f = js "image/webp") (filter isWebp fs)).
  { apply Forall_forall. intros f Hf. apply filter_In in Hf.
    destruct Hf as [_ Hf]. apply str_eqb_eq, Hf. }
  assert (P : forall l,
            (if 0 <? length (filter isWebp fs) then FilesPassedOn (filter isWebp fs)
             else if 0 <? length fs
                  then AlertShown (js "Please select .webp files only.")
                  else NothingDone) = FilesPassedOn l ->
            l = filter isWebp fs /\ l <> []).
  { intros l. destruct (0 <? length (filter isWebp fs)) eqn:L.
    - intros H. inversion H; subst l. split; [reflexivity|].
      apply Nat.ltb_lt in L. destruct (filter isWebp fs); [simpl in L; lia | discriminate].
    - destruct (0 <? length fs); discriminate. }
  split; [|split; [|split; [|split; [|split]]]].
  - intros l H. destruct (P l H) as [-> N]. auto.
  - intros l. unfold handleDrop.
    destruct (0 <? length fs) eqn:L; [|discriminate].
    destruct (0 <? length (filter isWebp fs)) eqn:L'.
    + intros H. inversion H; subst l. split; [reflexivity|]. split; [|exact W].
      apply Nat.ltb_lt in L'.
      destruct (filter isWebp fs); [simpl in L'; lia | discriminate].
    + discriminate.
  - intros (f & Hf & Tf).
    assert (Hin : In f (filter isWebp fs)).
    { apply filter_In. split; [exact Hf|]. apply str_eqb_eq, Tf. }
    assert (L : (0 <? length (filter isWebp fs)) = true).
    { apply Nat.ltb_lt. destruct (filter isWebp fs); [contradiction | simpl; lia]. }
    assert (L' : (0 <? length fs) = true).
    { apply Nat.ltb_lt. destruct fs; [contradiction | simpl; lia]. }
    unfold handleFileChange, handleDrop. rewrite L, L'. auto.
  - intros N H.
    assert (E : filter isWebp fs = []).
    { destruct (filter isWebp fs) as [|f r] eqn:F; [reflexivity|].
      assert (Hin : In f (filter isWebp fs)) by (rewrite F; left; reflexivity).
      apply filter_In in Hin. destruct Hin as [Hin Tf].
      apply str_eqb_eq in Tf. exfalso. exact (H f Hin Tf). }
    assert (L' : (0 <? length fs) = true).
    { apply Nat.ltb_lt. destruct fs; [congruence | simpl; lia]. }
    unfold handleFileChange, handleDrop. rewrite E, L'. auto.
  - reflexivity.
  - reflexivity.
Qed.

(** ** The item card *)

Lemma find_by_id (l : list ProcessedImage) (img : ProcessedImage) :
  distinctIds (map id l) = true -> In img l ->
  find (fun x => str_eqb (id x) (id img)) l = Some img.
Proof.
  intros D Hin.
  destruct (find (fun x => str_eqb (id x) (id img)) l) as [y|] eqn:F.
  - apply find_some in F. destruct F as [Hy E]. apply str_eqb_eq in E.
    rewrite (distinct_ids_inj l y img D Hy Hin E). reflexivity.
  - pose proof (find_none _ _ F img Hin) as N. cbv beta in N.
    rewrite str_eqb_refl in N. discriminate.
Qed.

(** X25.  A card shows exactly one of the download button, the retry
    button and the placeholder, and every item that can be retried is also
    eligible for start-all.  In a reachable state a completed item always
    has its download button, and the download offers the item's preview
    under its suggested name, which ends with [.webp]; an item that can be
    retried always shows its error message. *)
Theorem card_buttons :
  forall (s : AppState),
    reachable s ->
    forall img, In img (processedImages s) ->
      (showsDownloadButton img = true /\ showsRetryButton img = false
         /\ showsPlaceholder img = false
       \/ showsDownloadButton img = false /\ showsRetryButton img = true
            /\ showsPlaceholder img = false
       \/ showsDownloadButton img = false /\ showsRetryButton img = false
            /\ showsPlaceholder img = true)
      /\ (canRetry img = true -> isEligible img = true /\ showsError img = true)
      /\ (status img = completed ->
          showsDownloadButton img = true
          /\ showsError img = false
          /\ exists name,
               handleDownload (id img) s = Some (previewUrl img, name)
               /\ suggestedName img = Some name
               /\ endsWithDotWebp name).
Proof.
  intros s R img Hin.
  pose proof (reachable_invariant R) as (Hok & Hid & _).
  rewrite Forall_forall in Hok. destruct (Hok img Hin) as (H1 & H2 & _).
  split; [|split].
  - unfold showsPlaceholder, showsRetryButton, showsDownloadButton, canRetry.
    destruct (status img); cbn [status_eqb andb negb];
      try (right; right; repeat split; reflexivity);
      try (right; left; repeat split; reflexivity).
    destruct (truthy (suggestedName img));
      [left | right; right]; repeat split; reflexivity.
  - intros C. split.
    + unfold canRetry in C. unfold isEligible.
      destruct (status img); try discriminate; reflexivity.
    + unfold showsError. rewrite C, andb_true_r. apply H2.
      unfold canRetry in C. unfold isErrorFamily.
      destruct (status img); try discriminate; reflexivity.
  - intros St. specialize (H1 St).
    split; [unfold showsDownloadButton; rewrite St, H1; reflexivity|].
    split; [unfold showsError, canRetry; rewrite St; apply andb_false_r|].
    pose proof (reachable_completed_ends R img Hin St) as Hw.
    exists (optStr (suggestedName img)).
    unfold handleDownload. rewrite (find_by_id _ img Hid Hin), H1.
    split; [reflexivity|]. split; [|exact Hw].
    destruct (suggestedName img); [reflexivity | discriminate H1].
Qed.

Lemma card_buttons_witness :
  reachable (stateAfter sampleSession)
  /\ In sampleCompletedItem (processedImages (stateAfter sampleSession))
  /\ status sampleCompletedItem = completed
  /\ showsDownloadButton sampleCompletedItem = true.
Proof.
  assert (E : status sampleCompletedItem = completed) by (vm_compute; reflexivity).
  split; [exact sampleSession_reachable|].
  split; [exact sampleCompletedItem_in_session|].
  split; [exact E|].
  exact (proj1 (proj2 (proj2 (card_buttons sampleSession_reachable
                                sampleCompletedItem
                                sampleCompletedItem_in_session)) E)).
Defined.

(** ** What an item carries before its OCR result *)

Lemma Forall_mapById (P : ProcessedImage -> Prop) theId f (l : list ProcessedImage) :
  Forall P l -> (forall img, In img l -> id img = theId -> P (f img)) ->
  Forall P (mapById theId f l).
Proof.
  intros H Hf. apply Forall_forall. intros x Hx.
  apply mapById_In in Hx. destruct Hx as (img & Hin & [[E ->] | [_ ->]]).
  - apply Hf; assumption.
  - rewrite Forall_forall in H. apply H, Hin.
Qed.

Ltac fresh_tac :=
  unfold freshShape, carriesNoResult, awaitsResult,
         markApiKeyMissing, markMappingError, markExtracting, markMatching,
         markOcrFailed, markCompleted, markNotFound, markMatchFailed, requeue in *;
  cbn [status ocrText suggestedName gameProvider errorMessage
       withStatus withOcrText withSuggestedName withErrorMessage withGameProvider]
    in *.

Lemma freshShape_requeue img : freshShape (requeue img).
Proof. fresh_tac. repeat split; reflexivity. Qed.

Lemma freshShape_requeueAfterKey img :
  freshShape img -> freshShape (requeueAfterKey img).
Proof.
  intros H. unfold requeueAfterKey.
  destruct (status_eqb (status img) api_key_missing) eqn:E; [|exact H].
  assert (St : status img = api_key_missing)
    by (destruct (status img); try discriminate; reflexivity).
  fresh_tac. rewrite St in H. destruct H as [H _].
  split; [intros _; apply H; reflexivity | reflexivity].
Qed.

Lemma freshShape_settled (f : ProcessedImage -> ProcessedImage) img :
  (forall x, awaitsResult (f x) = false) -> freshShape (f img).
Proof.
  intros H. unfold freshShape. specialize (H img). split.
  - rewrite H. discriminate.
  - unfold awaitsResult in H. intros [E | E]; rewrite E in H; discriminate.
Qed.

Lemma freshShape_picked f img :
  f = markApiKeyMissing \/ f = markMappingError \/ f = markExtracting ->
  freshShape img -> status img = queued -> freshShape (f img).
Proof.
  intros F H St. fresh_tac. rewrite St in H. destruct H as [H He].
  specialize (H eq_refl). specialize (He (or_introl eq_refl)).
  destruct F as [-> | [-> | ->]]; fresh_tac;
    (split; [intros _; exact H | intros [E | E]; try discriminate E; exact He]).
Qed.

Lemma freshShape_new k index c : freshShape (newImage k index c).
Proof.
  unfold newImage. destruct (chosenMetadata c) as [[w h]|]; destruct (truthy k);
    fresh_tac; repeat split; try reflexivity;
    intros [E | E]; discriminate E.
Qed.

Lemma freshShape_newImagesFrom k files index :
  Forall freshShape (newImagesFrom k index files).
Proof.
  revert index. induction files as [|c r IH]; intros index; simpl; constructor;
    [apply freshShape_new | apply IH].
Qed.

Lemma freshShape_advanceTask t f ph s :
  (forall x, awaitsResult (f x) = false) ->
  Forall freshShape (processedImages s) ->
  Forall freshShape (processedImages (advanceTask t f ph s)).
Proof.
  intros Hf H. unfold advanceTask. state_fields.
  apply Forall_mapById; [exact H|]. intros img _ _.
  apply freshShape_settled. exact Hf.
Qed.

Lemma applyEvent_freshShape (e : Event) (s s' : AppState) :
  distinctIds (map id (processedImages s)) = true ->
  Forall freshShape (processedImages s) ->
  applyEvent e s = Some s' ->
  Forall freshShape (processedImages s').
Proof.
  intros D H. destruct e; cbn [applyEvent].
  - intros E; inversion E; subst s'. unfold mountWithEnvKey.
    destruct (truthy keyFromEnv); exact H.
  - intros E; inversion E; subst s'. exact H.
  - intros E; inversion E; subst s'. exact H.
  - intros E; inversion E; subst s'. unfold clickSetKey.
    destruct (nonEmpty (trim (apiKeyInput s))); [|exact H].
    state_fields. apply Forall_forall. intros x Hx. apply in_map_iff in Hx.
    destruct Hx as (img & <- & Hin). apply freshShape_requeueAfterKey.
    rewrite Forall_forall in H. apply H, Hin.
  - intros E; inversion E; subst s'. exact H.
  - destruct (idsAreFresh s (newImagesFrom capturedKey 0 files)); [|discriminate].
    intros E; inversion E; subst s'. unfold handleFilesSelected. state_fields.
    apply Forall_app. split; [exact H | apply freshShape_newImagesFrom].
  - intros E; inversion E; subst s'.
    pose proof (handleStartAllProcessing_outcome s) as O. cbv zeta in O.
    destruct (negb (truthy (apiKey s))); [destruct O as (-> & _); exact H|].
    destruct (negb (nonEmpty (trim (pastedCustomMappings s))));
      [destruct O as (-> & _); exact H|].
    destruct (length (fst (parseCustomMappings (pastedCustomMappings s))) =? 0);
      [destruct O as (-> & _); exact H|].
    destruct (length (filter isEligible (processedImages s)) =? 0);
      [destruct O as (-> & _); exact H|].
    destruct O as (-> & _). unfold requeueEligible.
    apply Forall_forall. intros x Hx. apply in_map_iff in Hx.
    destruct Hx as (img & <- & Hin).
    destruct (existsb _ _); [apply freshShape_requeue|].
    rewrite Forall_forall in H. apply H, Hin.
  - destruct (hasItem theId s); [|discriminate].
    intros E; inversion E; subst s'.
    assert (Ei : processedImages (handleRetry theId s)
                 = mapById theId requeue (processedImages s)).
    { unfold handleRetry.
      destruct (negb (startProcessingFlag s) && negb (isCurrentlyProcessingImage s));
        reflexivity. }
    rewrite Ei. apply Forall_mapById; [exact H|].
    intros img _ _. apply freshShape_requeue.
  - destruct (clearAllDisabled s); [discriminate|].
    intros E; inversion E; subst s'. constructor.
  - destruct (isZipping s); [discriminate|].
    intros E; inversion E; subst s'. unfold clickDownloadZip. state_fields.
    destruct (length (filter isCompletedWithName (processedImages s)) =? 0);
      exact H.
  - destruct (isZipping s); [|discriminate].
    intros E; inversion E; subst s'. unfold zipGenerated.
    destruct ok; exact H.
  - intros E; inversion E; subst s'. unfold processingEffect.
    destruct (isCurrentlyProcessingImage s || negb (startProcessingFlag s)
              || isZipping s); [exact H|].
    destruct (find isQueued (processedImages s)) as [picked|] eqn:F.
    + apply find_some in F. destruct F as [Hp Q]. apply isQueued_status in Q.
      assert (G : forall f,
                f = markApiKeyMissing \/ f = markMappingError \/ f = markExtracting ->
                Forall freshShape (mapById (id picked) f (processedImages s))).
      { intros f Hf. apply Forall_mapById; [exact H|].
        intros img Hin Eid.
        assert (img = picked) by (apply (distinct_ids_inj _ img picked D Hin Hp Eid)).
        subst img. rewrite Forall_forall in H.
        apply freshShape_picked; [exact Hf | apply H, Hp | exact Q]. }
      unfold processSingleImage_begin. state_fields.
      destruct (negb (truthy (apiKey s)));
        [|destruct (length (manualFilenameMappings s) =? 0)];
        state_fields; apply G; auto.
    + destruct (startProcessingFlag s && (0 <? length (processedImages s)));
        exact H.
  - unfold ocrResolved. destruct (pendingTask s) as [t|]; [|discriminate].
    destruct (phase t); try discriminate.
    intros E; inversion E; subst s'.
    apply freshShape_advanceTask; [reflexivity | exact H].
  - unfold ocrRejected. destruct (pendingTask s) as [t|]; [|discriminate].
    destruct (phase t); try discriminate.
    intros E; inversion E; subst s'.
    apply freshShape_advanceTask; [reflexivity | exact H].
  - unfold matchSettled. destruct (pendingTask s) as [t|]; [|discriminate].
    destruct (phase t); try discriminate.
    destruct (findMatchingGame _ _ _) as [m|]; intros E; inversion E; subst s';
      (apply freshShape_advanceTask; [reflexivity | exact H]).
  - unfold matchThrew. destruct (pendingTask s) as [t|]; [|discriminate].
    destruct (phase t); try discriminate.
    intros E; inversion E; subst s'.
    apply freshShape_advanceTask; [reflexivity | exact H].
  - unfold taskFinally. destruct (pendingTask s) as [t|]; [|discriminate].
    destruct (phase t); try discriminate.
    intros E; inversion E; subst s'. exact H.
Qed.

Lemma reachable_freshShape (s : AppState) :
  reachable s -> Forall freshShape (processedImages s).
Proof.
  intros [events E].
  assert (G : forall evs a b,
            reachable a -> Forall freshShape (processedImages a) ->
            run evs a = Some b -> Forall freshShape (processedImages b)).
  { induction evs as [|e rest IH]; intros a b Ra Ha; simpl.
    - intros K; inversion K; subst; exact Ha.
    - destruct (applyEvent e a) as [a1|] eqn:A; [|discriminate].
      apply IH; [eapply reachable_step; eassumption|].
      pose proof (reachable_invariant Ra) as (_ & D & _).
      eapply applyEvent_freshShape; eassumption. }
  apply (G events initialState s); [exists []; reflexivity | constructor | exact E].
Qed.

Lemma reachable_never_processing (s : AppState) :
  reachable s ->
  forall img, In img (processedImages s) -> status img <> processing.
Proof.
  intros R.
  assert (H : Forall (fun img => status img <> processing) (processedImages s)).
  { apply reachable_item_property; [| |exact R].
    - intros f img U. destruct U; try (intros _; discriminate).
      unfold requeueAfterKey.
      destruct (status_eqb (status img) api_key_missing);
        [intros _; discriminate | auto].
    - intros k index c. unfold newImage.
      destruct (chosenMetadata c) as [[w h]|]; destruct (truthy k); discriminate. }
  rewrite Forall_forall in H. exact H.
Qed.

(** X26.  Nothing of an earlier run stays on an item that waits again: in
    every reachable state an item that is queued, held back for a key or a
    mapping table, or in OCR extraction carries no OCR text, no suggested
    name and no provider, and a queued or extracting item has no error
    message.  So a card shows an OCR text only while its item is being
    matched, or after it was completed or failed. *)
Theorem waiting_items_carry_no_results :
  forall (s : AppState),
    reachable s ->
    forall img, In img (processedImages s) ->
      (awaitsResult img = true ->
       ocrText img = None /\ suggestedName img = None /\ gameProvider img = None)
      /\ (status img = queued \/ status img = ocr_extracting ->
          errorMessage img = None)
      /\ (showOcrText img = true ->
          status img = name_matching \/ status img = completed
          \/ status img = error)
      /\ (awaitsResult img = true -> showsDownloadButton img = false).
Proof.
  intros s R img Hin.
  pose proof (reachable_freshShape R) as H. rewrite Forall_forall in H.
  destruct (H img Hin) as [H1 H2].
  split; [exact H1|]. split; [exact H2|]. split.
  - intros Sh. unfold showOcrText in Sh.
    destruct (awaitsResult img) eqn:A.
    + destruct (H1 eq_refl) as (O & _). rewrite O in Sh. discriminate Sh.
    + pose proof (reachable_never_processing R img Hin) as Np.
      unfold awaitsResult in A.
      destruct (status img); try discriminate A; try congruence; auto.
  - intros A. unfold showsDownloadButton. unfold awaitsResult in A.
    destruct (status img); try discriminate A; reflexivity.
Qed.

Lemma waiting_items_carry_no_results_witness :
  reachable (stateAfter sampleExtracting)
  /\ In (hd sampleQueuedItem (processedImages (stateAfter sampleExtracting)))
        (processedImages (stateAfter sampleExtracting))
  /\ status (hd sampleQueuedItem (processedImages (stateAfter sampleExtracting)))
     = ocr_extracting
  /\ errorMessage (hd sampleQueuedItem
                     (processedImages (stateAfter sampleExtracting))) = None.
Proof.
  assert (Hin : In (hd sampleQueuedItem (processedImages (stateAfter sampleExtracting)))
                   (processedImages (stateAfter sampleExtracting)))
    by (vm_compute; left; reflexivity).
  assert (St : status (hd sampleQueuedItem
                         (processedImages (stateAfter sampleExtracting)))
               = ocr_extracting) by (vm_compute; reflexivity).
  split; [exact sampleExtracting_reachable|].
  split; [exact Hin|]. split; [exact St|].
  exact (proj1 (proj2 (waiting_items_carry_no_results sampleExtracting_reachable
                         _ Hin)) (or_intror St)).
Defined.

(** ** The item in flight, as the page shows it *)

(** X27.  The legacy status [processing] is never reached, so a card shows
    its loader exactly for an item in OCR extraction or name matching.  In
    a reachable state such a card is the only one with a loader, it counts
    in the processing queue, and while it is shown the page is busy: the
    controls are disabled and neither start-all, the archive download nor
    "Clear All" is available. *)
Theorem loader_marks_the_item_in_flight :
  forall (s : AppState),
    reachable s ->
    forall img, In img (processedImages s) ->
      status img <> processing
      /\ (showsLoader img = true <-> isActive img = true)
      /\ (showsLoader img = true ->
          isCurrentlyProcessingImage s = true
          /\ globalDisable s = true
          /\ canStartProcessing s = false
          /\ canDownloadZip s = false
          /\ clearAllDisabled s = true
          /\ 0 < processingQueueCount s
          /\ forall other, In other (processedImages s) ->
               showsLoader other = true -> other = img).
Proof.
  intros s R img Hin.
  pose proof (reachable_invariant R) as (_ & D & (Hb & Ha & _)).
  assert (LA : forall x, In x (processedImages s) ->
                 (showsLoader x = true <-> isActive x = true)).
  { intros x Hx. pose proof (reachable_never_processing R x Hx) as Np.
    unfold showsLoader, isActive.
    destruct (status x); split; intros K; try reflexivity; try discriminate K.
    exfalso. apply Np. reflexivity. }
  split; [apply (reachable_never_processing R img Hin)|].
  split; [apply LA, Hin|].
  intros L. apply (LA img Hin) in L.
  destruct (Ha img Hin L) as (t & Pt & _ & Eid).
  assert (B : isCurrentlyProcessingImage s = true).
  { apply Hb. rewrite Pt. discriminate. }
  split; [exact B|].
  split; [unfold globalDisable; rewrite B; reflexivity|].
  split.
  { unfold canStartProcessing. rewrite B. cbn [negb].
    rewrite ?andb_false_r. reflexivity. }
  split.
  { unfold canDownloadZip. rewrite B. cbn [negb]. apply andb_false_r. }
  split.
  { unfold clearAllDisabled. rewrite B. rewrite orb_true_r. reflexivity. }
  split.
  { unfold processingQueueCount.
    assert (Q : In img (filter inProcessingQueue (processedImages s))).
    { apply filter_In. split; [exact Hin|].
      unfold isActive in L. unfold inProcessingQueue.
      destruct (status img); try discriminate L; reflexivity. }
    destruct (filter inProcessingQueue (processedImages s));
      [contradiction | simpl; lia]. }
  intros other Ho Lo. apply (LA other Ho) in Lo.
  destruct (Ha other Ho Lo) as (t' & Pt' & _ & Eid').
  rewrite Pt in Pt'. inversion Pt'; subst t'.
  apply (distinct_ids_inj _ other img D Ho Hin). congruence.
Qed.

Lemma loader_marks_the_item_in_flight_witness :
  reachable (stateAfter sampleExtracting)
  /\ In (hd sampleCompletedItem (processedImages (stateAfter sampleExtracting)))
        (processedImages (stateAfter sampleExtracting))
  /\ showsLoader (hd sampleCompletedItem
                    (processedImages (stateAfter sampleExtracting))) = true
  /\ canStartProcessing (stateAfter sampleExtracting) = false.
Proof.
  assert (Hin : In (hd sampleCompletedItem
                      (processedImages (stateAfter sampleExtracting)))
                   (processedImages (stateAfter sampleExtracting)))
    by (vm_compute; left; reflexivity).
  assert (L : showsLoader (hd sampleCompletedItem
                             (processedImages (stateAfter sampleExtracting)))
              = true) by (vm_compute; reflexivity).
  split; [exact sampleExtracting_reachable|].
  split; [exact Hin|]. split; [exact L|].
  destruct (loader_marks_the_item_in_flight sampleExtracting_reachable _ Hin)
    as (_ & _ & H).
  destruct (H L) as (_ & _ & C & _). exact C.
Defined.

(** X28.  The badge of a card tells the status: the eight statuses have
    eight different labels. *)
Theorem statusText_injective :
  forall (a b : ImageProcessingStatus), statusText a = statusText b -> a = b.
Proof.
  intros a b H. destruct a; destruct b; try reflexivity;
    vm_compute in H; discriminate H.
Qed.

Lemma statusText_injective_witness :
  statusText queued = statusText queued /\ queued = queued.
Proof.
  split; [reflexivity|].
  exact (statusText_injective queued queued eq_refl).
Defined.
